(** * The SPM residual function and its bandwidth analysis

    A shallow embedding of [src/bmlite/SPM/dae.py]: the functions
    [residuals] and [bandwidth].

    - Numbers are real numbers: rounding, overflow and NaN are not
      modelled, and a division is the total division of the reals.
    - A one-dimensional NumPy array is a list; indexing, index-array reads
      and writes, slices and broadcasting follow NumPy, and an operation
      that raises in Python ([IndexError], [ValueError]) yields [None].
    - The buffers [sv], [svdot] and [res] are passed by reference and [res]
      is written in place: they are cells of a store, named by their
      addresses, so that the writes and a possible aliasing of the arguments
      are visible.
    - The simulation object is a record that is only read; the experiment
      dictionary is a record, returned with its [events] entry set.
    - [Constants], [grad_r] and [div_r] come from modules of the package
      that are not part of the sources at hand: they are parameters. *)

From Stdlib Require Import Reals Lra String.
From stdpp Require Import base option list gmap strings.

Open Scope R_scope.

(** ** The NumPy fragment used by the module *)

Abbreviation ndarray := (list R).

#[global] Instance Rlt_decision (x y : R) : Decision (x < y) := Rlt_dec x y.
#[global] Instance Req_decision : EqDecision R := Req_dec_T.

(** [a[:-1]] and [a[1:]]. *)
Definition but_last (a : ndarray) : ndarray := take (length a - 1) a.
Definition but_first (a : ndarray) : ndarray := drop 1 a.

(** [a[-1]]: IndexError on an empty array. *)
Definition item_last (a : ndarray) : option R := last a.

(** [a[idx]] for an integer index array: a copy; IndexError when an index is
    out of bounds. *)
Definition fancy_get (a : ndarray) (idx : list nat) : option ndarray :=
  mapM (λ i, a !! i) idx.

(** Broadcasting a one-dimensional value to length [n]: the lengths agree,
    or the value has length one; ValueError otherwise. *)
Definition broadcast_to (n : nat) (v : ndarray) : option ndarray :=
  if decide (length v = n) then Some v
  else match v with
       | [x] => Some (replicate n x)
       | _ => None
       end.

(** [a[idx] = v] for an integer index array: the indices are checked, the
    value is broadcast, the writes happen in order. *)
Definition fancy_set (a : ndarray) (idx : list nat) (v : ndarray)
  : option ndarray :=
  if forallb (λ i, bool_decide (i < length a)%nat) idx then
    vs ← broadcast_to (length idx) v;
    Some (foldl (λ acc p, <[p.1 := p.2]> acc) a (zip idx vs))
  else None.

(** [a[i] = x] for a scalar index. *)
Definition item_set (a : ndarray) (i : nat) (x : R) : option ndarray :=
  if decide (i < length a)%nat then Some (<[i := x]> a) else None.

(** An elementwise binary operation on two arrays, with broadcasting. *)
Definition ew2 (f : R → R → R) (a b : ndarray) : option ndarray :=
  if decide (length a = length b) then Some (zip_with f a b)
  else match a, b with
       | [x], _ => Some (map (f x) b)
       | _, [y] => Some (map (λ x, f x y) a)
       | _, _ => None
       end.

(** Python's builtin [max(a, b)]: the first argument unless the second is
    strictly greater. *)
Definition pymax (a b : R) : R := if decide (a < b) then b else a.

(** ** The store of array buffers *)

(** The buffers passed by reference are the cells of a store; an address is
    the position of a cell.  Two arguments alias when their addresses are
    equal. *)
Abbreviation heap := (list ndarray).

Definition M (A : Type) : Type := heap → option (A * heap).

Definition ret {A} (x : A) : M A := λ h, Some (x, h).

Definition bind {A B} (m : M A) (k : A → M B) : M B :=
  λ h, match m h with
       | Some (x, h1) => k x h1
       | None => None
       end.

Definition lift {A} (o : option A) : M A :=
  λ h, match o with Some x => Some (x, h) | None => None end.

Definition load (a : nat) : M ndarray := λ h, lift (h !! a) h.

Definition store (a : nat) (v : ndarray) : M unit :=
  λ h, Some (tt, <[a := v]> h).

Declare Scope heap_scope.
Delimit Scope heap_scope with heap.
Notation "'do' x <- m ; k" := (bind m (λ x, k))
  (at level 10, x name, m at level 100, k at level 200) : heap_scope.
Notation "'do' ' p <- m ; k" := (bind m (λ x, match x with p => k end))
  (at level 10, p pattern, m at level 100, k at level 200) : heap_scope.

(** [buf[idx] = v] and [buf[i] = x] on the buffer at address [a]. *)
Definition store_fancy (a : nat) (idx : list nat) (v : ndarray) : M unit :=
  (do buf <- load a;
   do buf' <- lift (fancy_set buf idx v);
   store a buf')%heap.

Definition store_item (a : nat) (i : nat) (x : R) : M unit :=
  (do buf <- load a;
   do buf' <- lift (item_set buf i x);
   store a buf')%heap.

(** ** Simulation objects *)

(** [bmlite.Constants]: Faraday's constant and the gas constant. *)
Record Constants := { c_F : R; c_R : R }.

Record Battery := { temp : R; area : R; cap : R }.

Record Electrolyte := { el_ptr_phi_el : nat; Li_0 : R }.

(** An electrode domain: [ptr['phi_ed']], the index array [r_ptr['Li_ed']]
    of the radial nodes, the parameters, the radial mesh and the material
    functions. *)
Record Electrode := {
  ptr_phi_ed : nat;
  r_ptr_Li_ed : list nat;
  Li_max : R;
  alpha_a : R;
  alpha_c : R;
  A_s : R;
  thick : R;
  r : ndarray;
  rm : ndarray;
  rp : ndarray;
  get_Eeq : R → R → R;
  get_i0 : R → R → R → R;
  get_Ds : ndarray → R → ndarray;
}.

Record Simulation := {
  bat : Battery;
  el : Electrolyte;
  an : Electrode;
  ca : Electrode;
  _t0 : R;
  _flags_post : bool;
  _sv0 : ndarray;
  _svdot0 : ndarray;
}.

(** The snapshot stored under [exp['events']]. *)
Record Events := {
  time_s : R;
  time_min : R;
  time_h : R;
  current_A : R;
  current_C : R;
  voltage_V : R;
  power_W : R;
}.

(** The experiment dictionary: the three keys [residuals] reads and the one
    it writes. *)
Record Experiment := {
  mode : string;
  units : string;
  value : R → R;
  events : option Events;
}.

Definition set_events (e : Experiment) (ev : Events) : Experiment :=
  {| mode := mode e; units := units e; value := value e; events := Some ev |}.

Definition set_post (b : bool) (sim : Simulation) : Simulation :=
  {| bat := bat sim; el := el sim; an := an sim; ca := ca sim;
     _t0 := _t0 sim; _flags_post := b;
     _sv0 := _sv0 sim; _svdot0 := _svdot0 sim |}.

(** ** The residual function *)

Section Residuals.

Variable c : Constants.

(** [bmlite.math.grad_r(r, f)] and [bmlite.math.div_r(rm, rp, f)]. *)
Variable grad_r : ndarray → ndarray → option ndarray.
Variable div_r : ndarray → ndarray → ndarray → option ndarray.

(** The reaction current of an electrode: overpotential and Butler-Volmer
    rate (lines 173-177 for the anode, 197-201 for the cathode). *)
Definition sdot_ed (ed : Electrode) (el : Electrolyte) (T : R)
    (phi_ed phi_el : R) (xs : ndarray) : option R :=
  xs_surf ← item_last xs;
  let eta := phi_ed - phi_el - get_Eeq ed xs_surf T in
  let i0 := get_i0 ed xs_surf (Li_0 el) T in
  Some (i0 / c_F c * (  exp ( alpha_a ed * c_F c * eta / c_R c / T)
                      - exp ((- alpha_c ed) * c_F c * eta / c_R c / T))).

(** Weighted solid particle properties (lines 180-183, 204-207). *)
Definition Ds_ed (ed : Electrode) (T : R) (xs : ndarray) : option ndarray :=
  num_m ← ew2 Rminus (but_last (rp ed)) (but_last (rm ed));
  den_m ← ew2 Rminus (but_first (r ed)) (but_last (r ed));
  wt_m ← ew2 Rdiv (map (Rmult 0.5) num_m) den_m;
  num_p ← ew2 Rminus (but_first (rp ed)) (but_first (rm ed));
  den_p ← ew2 Rminus (but_first (r ed)) (but_last (r ed));
  wt_p ← ew2 Rdiv (map (Rmult 0.5) num_p) den_p;
  lo ← ew2 Rmult wt_m (get_Ds ed (but_last xs) T);
  hi ← ew2 Rmult wt_p (get_Ds ed (but_first xs) T);
  ew2 Rplus lo hi.

(** The radial flux vector [np.concat([[0.], Ds*grad_r(r, Li), [-sdot]])]
    (lines 186 and 210). *)
Definition Js_ed (ed : Electrode) (T : R) (xs : ndarray) (sdot : R)
  : option ndarray :=
  let Li := map (λ x, x * Li_max ed) xs in
  Ds ← Ds_ed ed T xs;
  g ← grad_r (r ed) Li;
  inner ← ew2 Rmult Ds g;
  Some ([0] ++ inner ++ [- sdot]).

(** The right-hand side of the solid-phase conservation of mass
    (lines 188-189 and 212-213). *)
Definition com_ed (ed : Electrode) (svdot Js : ndarray) : option ndarray :=
  dots ← fancy_get svdot (r_ptr_Li_ed ed);
  d ← div_r (rm ed) (rp ed) Js;
  ew2 Rminus (map (Rmult (Li_max ed)) dots) d.

(** External current [A/m^2] (line 216). *)
Definition i_ext (sim : Simulation) (sdot_an : R) : R :=
  (- sdot_an) * A_s (an sim) * thick (an sim) * c_F c.

(** Lines 151-216: the values read from [sv], and the rows of both
    electrodes.  Returns [(phi_ca, sdot_an, sdot_ca)]. *)
Definition domain_equations (a_sv a_svdot a_res : nat) (sim : Simulation)
  : M (R * R * R) :=
  let el := el sim in
  let an := an sim in
  let ca := ca sim in
  let T := temp (bat sim) in
  (do sv <- load a_sv;
   do phi_an <- lift (sv !! ptr_phi_ed an);
   do phi_el <- lift (sv !! el_ptr_phi_el el);
   do phi_ca <- lift (sv !! ptr_phi_ed ca);
   do xs_an <- lift (fancy_get sv (r_ptr_Li_ed an));
   do xs_ca <- lift (fancy_get sv (r_ptr_Li_ed ca));
   (* Anode *)
   do sdot_an <- lift (sdot_ed an el T phi_an phi_el xs_an);
   do Js_an <- lift (Js_ed an T xs_an sdot_an);
   do svdot <- load a_svdot;
   do rhs_an <- lift (com_ed an svdot Js_an);
   do _ <- store_fancy a_res (r_ptr_Li_ed an) rhs_an;
   do _ <- store_item a_res (ptr_phi_ed an) (phi_an - 0);
   (* Cathode *)
   do sdot_ca <- lift (sdot_ed ca el T phi_ca phi_el xs_ca);
   do Js_ca <- lift (Js_ed ca T xs_ca sdot_ca);
   do svdot <- load a_svdot;
   do rhs_ca <- lift (com_ed ca svdot Js_ca);
   do _ <- store_fancy a_res (r_ptr_Li_ed ca) rhs_ca;
   ret (phi_ca, sdot_an, sdot_ca))%heap.

(** Lines 219-249: the two boundary rows, by [(mode, units)]. *)
Definition boundary_conditions (t : R) (a_res : nat) (sim : Simulation)
    (exp : Experiment) (phi_ca sdot_an sdot_ca : R) : M unit :=
  let bat := bat sim in
  let el := el sim in
  let an := an sim in
  let ca := ca sim in
  let voltage_V := phi_ca in
  let current_A := i_ext sim sdot_an * area bat in
  let power_W := current_A * voltage_V in
  (if String.eqb (mode exp) "current" && String.eqb (units exp) "A" then
     do _ <- store_item a_res (ptr_phi_ed ca)
               (sdot_ca * A_s ca * thick ca * c_F c
                - value exp t / area bat);
     store_item a_res (el_ptr_phi_el el)
               (sdot_an * A_s an * thick an * c_F c
                + value exp t / area bat)
   else if String.eqb (mode exp) "current" && String.eqb (units exp) "C" then
     do _ <- store_item a_res (ptr_phi_ed ca)
               (sdot_ca * A_s ca * thick ca * c_F c
                - value exp t * cap bat / area bat);
     store_item a_res (el_ptr_phi_el el)
               (sdot_an * A_s an * thick an * c_F c
                + value exp t * cap bat / area bat)
   else if String.eqb (mode exp) "voltage" then
     do _ <- store_item a_res (ptr_phi_ed ca) (voltage_V - value exp t);
     store_item a_res (el_ptr_phi_el el)
               (sdot_an * A_s an * thick an + sdot_ca * A_s ca * thick ca)
   else if String.eqb (mode exp) "power" then
     do _ <- store_item a_res (ptr_phi_ed ca) (power_W - value exp t);
     store_item a_res (el_ptr_phi_el el)
               (sdot_an * A_s an * thick an + sdot_ca * A_s ca * thick ca)
   else ret tt)%heap.

(** Lines 223-225 and 252-262: the events snapshot. *)
Definition events_snapshot (t : R) (sim : Simulation)
    (phi_ca sdot_an : R) : Events :=
  let voltage_V := phi_ca in
  let current_A := i_ext sim sdot_an * area (bat sim) in
  let power_W := current_A * voltage_V in
  let total_time := _t0 sim + t in
  {| time_s := total_time;
     time_min := total_time / 60;
     time_h := total_time / 3600;
     current_A := current_A;
     current_C := current_A / cap (bat sim);
     voltage_V := voltage_V;
     power_W := power_W |}.

(** [residuals(t, sv, svdot, res, (sim, exp))]: the three buffers are
    given by their addresses; the result is the experiment dictionary
    after the call and the returned value ([None], or the pair of reaction
    rates when [sim._flags['post']] is set). *)
Definition residuals (t : R) (a_sv a_svdot a_res : nat)
    (sim : Simulation) (exp : Experiment)
  : M (Experiment * option (R * R)) :=
  (do '(phi_ca, sdot_an, sdot_ca) <- domain_equations a_sv a_svdot a_res sim;
   do _ <- boundary_conditions t a_res sim exp phi_ca sdot_an sdot_ca;
   let exp' := set_events exp (events_snapshot t sim phi_ca sdot_an) in
   ret (exp', if _flags_post sim then Some (sdot_an, sdot_ca) else None))%heap.

End Residuals.

(** ** The bandwidth analysis *)

Abbreviation matrix := (list ndarray).

(** [np.zeros([n, m])], by rows. *)
Definition zeros (n m : nat) : matrix := replicate n (replicate m 0).

(** [jac[:, j]]. *)
Definition get_col (jac : matrix) (j : nat) : option ndarray :=
  mapM (λ row : ndarray, row !! j) jac.

(** [jac[:, j] = v]. *)
Definition set_col (jac : matrix) (j : nat) (v : ndarray) : option matrix :=
  if forallb (λ row : ndarray, bool_decide (j < length row)%nat) jac then
    vs ← broadcast_to (length jac) v;
    Some (zip_with (λ (row : ndarray) x, <[j := x]> row) jac vs)
  else None.

(** A [for] loop over a list of indices, threading the loop state. *)
Fixpoint for_each {S : Type} (js : list nat) (body : nat → S → option S)
    (s : S) : option S :=
  match js with
  | [] => Some s
  | j :: js' => s' ← body j s; for_each js' body s'
  end.

(** The perturbation step [max(1e-6, 1e-6*x)] of lines 65 and 76. *)
Definition step (x : R) : R := pymax 1e-6 (1e-6 * x).

(** A copy of [v] with component [j] perturbed (lines 61 and 65, 74 and 76). *)
Definition perturbed (v : ndarray) (j : nat) : option ndarray :=
  x ← v !! j; item_set v j (x + step x).

(** [np.where(abs(v) > 0)[0]], the positions counted from [k]. *)
Fixpoint where_from (k : nat) (v : ndarray) : list nat :=
  match v with
  | [] => []
  | x :: v' =>
      if decide (0 < Rabs x) then k :: where_from (S k) v'
      else where_from (S k) v'
  end.

Definition where_pos (v : ndarray) : list nat := where_from 0 v.

(** The body of the loop of lines 86-94 on row [i]. *)
Definition band_step (i : nat) (row : ndarray) (lu : nat * nat) : nat * nat :=
  let '(lband, uband) := lu in
  let l_inds := where_pos (take i row) in
  let lband :=
    match head l_inds with
    | Some l0 => if decide (lband < i - l0)%nat then (i - l0)%nat else lband
    | None => lband
    end in
  let u_inds := map (Nat.add i) (where_pos (drop i row)) in
  let uband :=
    match last u_inds with
    | Some ul => if decide (uband < ul - i)%nat then (ul - i)%nat else uband
    | None => uband
    end in
  (lband, uband).

Fixpoint bands_from (i : nat) (rows : matrix) (lu : nat * nat) : nat * nat :=
  match rows with
  | [] => lu
  | row :: rows' => bands_from (S i) rows' (band_step i row lu)
  end.

(** Lines 82-94. *)
Definition find_bands (jac : matrix) : nat * nat :=
  bands_from 0 jac (0, 0)%nat.

(** Lines 96-98: the pattern of zeros and ones. *)
Definition j_pat (jac : matrix) : matrix :=
  map (map (λ x : R, if decide (x = 0) then 0 else 1)) jac.

(** The fake OCV experiment of lines 45-49. *)
Definition expr : Experiment :=
  {| mode := "current"; units := "C"; value := λ _, 0; events := None |}.

Section Bandwidth.

(** A call [residuals(t, sv, svdot, res, (sim, exp))] on three distinct
    arrays: the residual array and the experiment dictionary after the
    call. *)
Variable call : R → ndarray → ndarray → ndarray → Simulation → Experiment →
                option (ndarray * Experiment).

(** The loop of lines 60-69. *)
Definition probe_sv (sim : Simulation) (sv svdot res_0 : ndarray) (j : nat)
    (s : matrix * ndarray * Experiment)
  : option (matrix * ndarray * Experiment) :=
  let '(jac, res, expr) := s in
  dsv ← perturbed sv j;
  '(res, expr) ← call 0 dsv svdot res sim expr;
  dres ← ew2 Rminus res_0 res;
  jac ← set_col jac j dres;
  Some (jac, res, expr).

(** The loop of lines 71-80. *)
Definition probe_svdot (sim : Simulation) (sv svdot res_0 : ndarray) (j : nat)
    (s : matrix * ndarray * Experiment)
  : option (matrix * ndarray * Experiment) :=
  let '(jac, res, expr) := s in
  dsvdot ← perturbed svdot j;
  '(res, expr) ← call 0 sv dsvdot res sim expr;
  dres ← ew2 Rminus res_0 res;
  col ← get_col jac j;
  new ← ew2 Rplus col dres;
  jac ← set_col jac j new;
  Some (jac, res, expr).

(** Lines 41-80: the matrix of finite differences. *)
Definition jacobian_on (sim : Simulation) : option matrix :=
  let N := length (_sv0 sim) in
  let jac := zeros N N in
  let sv := _sv0 sim in
  let svdot := _svdot0 sim in
  let res := replicate (length sv) 0 in
  '(res, expr) ← call 0 sv svdot res sim expr;
  let res_0 := res in
  '(jac, res, expr) ←
    for_each (seq 0 N) (probe_sv sim sv svdot res_0) (jac, res, expr);
  '(jac, res, expr) ←
    for_each (seq 0 N) (probe_svdot sim sv svdot res_0) (jac, res, expr);
  Some jac.

(** Lines 82-100: the bands and the pattern of that matrix. *)
Definition bandwidth_on (sim : Simulation) : option (nat * nat * matrix) :=
  jac ← jacobian_on sim;
  let '(lband, uband) := find_bands jac in
  Some (lband, uband, j_pat jac).

End Bandwidth.

Section BandwidthOfResiduals.

Variable c : Constants.
Variable grad_r : ndarray → ndarray → option ndarray.
Variable div_r : ndarray → ndarray → ndarray → option ndarray.

(** The arrays that [bandwidth] passes to [residuals] are distinct objects
    (fresh copies): three cells of a store. *)
Definition call_residuals (t : R) (sv svdot res : ndarray)
    (sim : Simulation) (exp : Experiment) : option (ndarray * Experiment) :=
  match residuals c grad_r div_r t 0 1 2 sim exp [sv; svdot; res] with
  | Some ((exp', _), h') => res' ← h' !! 2%nat; Some (res', exp')
  | None => None
  end.

(** The matrix [jac] that [bandwidth(sim)] builds, and [bandwidth(sim)]. *)
Definition jacobian (sim : Simulation) : option matrix :=
  jacobian_on call_residuals sim.

Definition bandwidth (sim : Simulation) : option (nat * nat * matrix) :=
  bandwidth_on call_residuals sim.

End BandwidthOfResiduals.

(** ** The statements of the specification *)

(** The Butler-Volmer rate as the specification writes it. *)
Definition butler_volmer (c : Constants) (i0 a_a a_c eta T : R) : R :=
  i0 / c_F c * (  exp (a_a * c_F c * eta / (c_R c * T))
                - exp (- a_c * c_F c * eta / (c_R c * T))).

(** The rate of an electrode whose surface intercalation fraction is [x]. *)
Definition spec_rate (c : Constants) (ed : Electrode) (el : Electrolyte)
    (T phi_ed phi_el x : R) : R :=
  let eta := phi_ed - phi_el - get_Eeq ed x T in
  let i0 := get_i0 ed x (Li_0 el) T in
  butler_volmer c i0 (alpha_a ed) (alpha_c ed) eta T.

(** The value at the last radial node of an electrode. *)
Definition surface (ed : Electrode) (sv : ndarray) : option R :=
  k ← last (r_ptr_Li_ed ed); sv !! k.

(** The reaction charge of an electrode: the rate scaled by reactive area,
    thickness and Faraday's constant, as in the current-mode rows. *)
Definition reaction_charge (c : Constants) (ed : Electrode) (sdot : R) : R :=
  sdot * A_s ed * thick ed * c_F c.

(** The entry [(i, j)] of a matrix, when it exists. *)
Definition entry (jac : matrix) (i j : nat) : option R :=
  row ← jac !! i; row !! j.

(** The component [j] of a row exists and is not zero. *)
Definition row_nonzero (row : ndarray) (j : nat) : Prop :=
  ∃ x, row !! j = Some x ∧ x ≠ 0.

(** The entry [(i, j)] of a matrix exists and is not zero. *)
Definition nonzero_at (jac : matrix) (i j : nat) : Prop :=
  ∃ x, entry jac i j = Some x ∧ x ≠ 0.

(** [m] is the largest distance over the entries selected by [P], and 0
    when there is none. *)
Definition furthest (P : nat → nat → Prop) (dist : nat → nat → nat)
    (m : nat) : Prop :=
  (∀ i j, P i j → (dist i j ≤ m)%nat) ∧
  (m = 0%nat ∨ ∃ i j, P i j ∧ dist i j = m).

(** What a caller can observe of a call to [residuals]: the store, the
    events snapshot and the returned value. *)
Definition observe (out : option (Experiment * option (R * R) * heap))
  : option (heap * option Events * option (R * R)) :=
  match out with
  | Some ((e, r), h) => Some (h, events e, r)
  | None => None
  end.

(** The experiment with which [bandwidth] probes: current mode, C-rate
    units, the value zero at every time; the events entry is free. *)
Definition probe_exp (e : Experiment) : Prop :=
  mode e = "current"%string ∧ units e = "C"%string ∧ value e = (λ _, 0).

(** The states at which [bandwidth] probes: the stored initial vectors, with
    at most one component of one of them perturbed. *)
Definition probe_point (sim : Simulation) (sv svdot : ndarray) : Prop :=
  (sv = _sv0 sim ∧ svdot = _svdot0 sim) ∨
  (∃ j, perturbed (_sv0 sim) j = Some sv ∧ svdot = _svdot0 sim) ∨
  (∃ j, sv = _sv0 sim ∧ perturbed (_svdot0 sim) j = Some svdot).


(** The residual [r] that a call on the arrays [sv], [svdot] and the
    buffer [b] leaves when the boundary rows are the current-mode rows with
    zero applied current: the cathode row is the cathode reaction charge
    and the electrolyte row is the anode reaction charge. *)
Definition zero_current_rows (c : Constants)
    (grad_r : ndarray → ndarray → option ndarray)
    (div_r : ndarray → ndarray → ndarray → option ndarray)
    (sim : Simulation) (sv svdot b r : ndarray) : Prop :=
  ∃ phi_ca sdot_an sdot_ca h1 res1,
    domain_equations c grad_r div_r 0 1 2 sim [sv; svdot; b]
      = Some ((phi_ca, sdot_an, sdot_ca), h1) ∧
    h1 !! 2%nat = Some res1 ∧
    r = <[el_ptr_phi_el (el sim) := reaction_charge c (an sim) sdot_an]>
          (<[ptr_phi_ed (ca sim) := reaction_charge c (ca sim) sdot_ca]>
             res1).

(** The residual [r] was obtained by probing at [(sv, svdot)]: by a call
    of [residuals] at time zero under an experiment with the three entries
    of the fake one, which wrote the current-mode rows. *)
Definition probed (c : Constants)
    (grad_r : ndarray → ndarray → option ndarray)
    (div_r : ndarray → ndarray → ndarray → option ndarray)
    (sim : Simulation) (sv svdot r : ndarray) : Prop :=
  ∃ b e e', probe_exp e ∧
    call_residuals c grad_r div_r 0 sv svdot b sim e = Some (r, e') ∧
    zero_current_rows c grad_r div_r sim sv svdot b r.
(** ** Auxiliary notions for the further properties *)

(** Two arrays of the same length that agree on the rows selected by [W]. *)
Definition agree_on (W : nat → Prop) (x y : ndarray) : Prop :=
  length x = length y ∧ ∀ k, W k → x !! k = y !! k.

(** The rows that [residuals] writes under a supported experiment. *)
Definition written_row (sim : Simulation) (k : nat) : Prop :=
  k ∈ r_ptr_Li_ed (an sim) ∨ k = ptr_phi_ed (an sim) ∨
  k ∈ r_ptr_Li_ed (ca sim) ∨ k = ptr_phi_ed (ca sim) ∨
  k = el_ptr_phi_el (el sim).

(** The four supported [(mode, units)] combinations. *)
Definition supported (e : Experiment) : Prop :=
  (mode e = "current" ∧ units e = "A")%string ∨
  (mode e = "current" ∧ units e = "C")%string ∨
  mode e = "voltage"%string ∨ mode e = "power"%string.

(** A matrix of [n] rows of length [m]. *)
Definition shape (n m : nat) (jac : matrix) : Prop :=
  length jac = n ∧ Forall (λ row : ndarray, length row = m) jac.


Section ProbeDefs.

Variable c : Constants.
Variable grad_r : ndarray → ndarray → option ndarray.
Variable div_r : ndarray → ndarray → ndarray → option ndarray.

(** The residual at [(sv, svdot)] and time zero under the fake experiment,
    computed by a call of its own on a buffer of zeros. *)
Definition fresh_residual (sim : Simulation) (sv svdot : ndarray)
  : option ndarray :=
  '(res, _) ← call_residuals c grad_r div_r 0 sv svdot
                (replicate (length sv) 0) sim expr;
  Some res.

(** The residual at the initial point minus the residual with component
    [j] of the state perturbed, and the same for component [j] of the
    time derivative.  The differences are not divided by the step. *)
Definition sv_difference (sim : Simulation) (j : nat) : option ndarray :=
  res_0 ← fresh_residual sim (_sv0 sim) (_svdot0 sim);
  dsv ← perturbed (_sv0 sim) j;
  res ← fresh_residual sim dsv (_svdot0 sim);
  ew2 Rminus res_0 res.

Definition svdot_difference (sim : Simulation) (j : nat) : option ndarray :=
  res_0 ← fresh_residual sim (_sv0 sim) (_svdot0 sim);
  dsvdot ← perturbed (_svdot0 sim) j;
  res ← fresh_residual sim (_sv0 sim) dsvdot;
  ew2 Rminus res_0 res.

End ProbeDefs.
(** ** The hysteresis option ([src/bmlite/SPM/options.py]) *)

(** What the option touches of an electrode domain: its name, its
    dictionary of pointers, and the three attributes the option installs
    ([None] while an attribute is not set). *)
Record Domain := {
  _name : string;
  ptr : gmap string Z;
  g_hyst : option R;
  M_hyst : option R;
  hyst0 : option R;
}.

Definition set_ptr (d : Domain) (p : gmap string Z) : Domain :=
  {| _name := _name d; ptr := p;
     g_hyst := g_hyst d; M_hyst := M_hyst d; hyst0 := hyst0 d |}.

(** [Hysteresis.make_mesh(pshift)]. *)
Definition make_mesh (pshift : Z) (d : Domain) : option Domain :=
  if String.eqb (_name d) "anode" then
    p ← ptr d !! "phi_ed";
    Some (set_ptr d (<["hyst" := (p + 1)%Z]> (ptr d)))
  else if String.eqb (_name d) "cathode" then
    let shifted := (λ v, (v + 1)%Z) <$> ptr d in
    Some (set_ptr d (<["hyst" := (0 + pshift)%Z]> shifted))
  else Some d.

(** A Python index into a sequence of length [n]: a negative index counts
    from the end, an index outside [-n, n) is an IndexError. *)
Definition py_index (n : nat) (i : Z) : option nat :=
  if decide (0 ≤ i < Z.of_nat n)%Z then Some (Z.to_nat i)
  else if decide (- Z.of_nat n ≤ i < 0)%Z then Some (Z.to_nat (Z.of_nat n + i))
  else None.

(** [Hysteresis.sv0(sv0)]: writes [hyst0] into the array, in place. *)
Definition Hysteresis_sv0 (d : Domain) (sv0 : ndarray) : option ndarray :=
  start ← ptr d !! "start";
  x ← hyst0 d;
  hyst ← ptr d !! "hyst";
  j ← py_index (length sv0) (hyst - start);
  Some (<[j := x]> sv0).

(** A dictionary of pointers in which distinct names have distinct
    values. *)
Definition injective_ptr (p : gmap string Z) : Prop :=
  ∀ k1 k2 v, p !! k1 = Some v → p !! k2 = Some v → k1 = k2.

(** ** Solution objects ([bmlite/SPM/solutions]) *)

(** The Python values stored in a solution. *)
Inductive pyval :=
  | PNone
  | PBool (b : bool)
  | PFloat (x : R)
  | PStr (s : string)
  | PArr (a : ndarray)
  | PMat (m : matrix).

(** A solution object: the slots of [BaseSolution] and the [postvars] of
    its subclasses.  A slot that was never assigned is [None]; reading it
    is an AttributeError. *)
Record Solution := {
  _sim : Simulation;
  _exp : gmap string pyval;
  _t : option pyval;
  _y : option pyval;
  _ydot : option pyval;
  _success : option pyval;
  _onroot : option pyval;
  _message : option pyval;
  _solvetime : option pyval;
  postvars : gmap string pyval;
}.

(** [CVSolution.__init__(sim, exp)] and [CCSolution.__init__(sim, exp)]:
    the base class stores copies of [sim] and [exp] and sets six slots to
    the Python [None]; it does not assign [_solvetime].  The subclass sets
    [postvars] to the empty dictionary. *)
Definition Solution_init (sim : Simulation) (exp : gmap string pyval)
  : Solution :=
  {| _sim := sim; _exp := exp;
     _t := Some PNone; _y := Some PNone; _ydot := Some PNone;
     _success := Some PNone; _onroot := Some PNone; _message := Some PNone;
     _solvetime := None;
     postvars := ∅ |}.

(** The object returned by the IDA solver, as [ida_fill] reads it. *)
Record SolverReturn := {
  values_t : pyval;
  values_y : pyval;
  values_ydot : pyval;
  flag : Z;
  roots_t : pyval;
  sol_message : pyval;
}.

Definition is_PNone (v : pyval) : bool :=
  match v with PNone => true | _ => false end.

(** [BaseSolution.ida_fill(sol, solvetime)]. *)
Definition ida_fill (s : Solution) (sol : SolverReturn) (solvetime : pyval)
  : Solution :=
  {| _sim := _sim s; _exp := _exp s;
     _t := Some (values_t sol);
     _y := Some (values_y sol);
     _ydot := Some (values_ydot sol);
     _success := Some (PBool (if decide (flag sol >= 0)%Z then true
                              else false));
     _onroot := Some (PBool (if negb (is_PNone (roots_t sol)) then true
                             else false));
     _message := Some (sol_message sol);
     _solvetime := Some solvetime;
     postvars := postvars s |}.

(** [BaseSolution.dict_fill(sol)]: a missing key is a KeyError. *)
Definition dict_fill (s : Solution) (sol : gmap string pyval)
  : option Solution :=
  t ← sol !! "t";
  y ← sol !! "y";
  ydot ← sol !! "ydot";
  success ← sol !! "success";
  onroot ← sol !! "onroot";
  message ← sol !! "message";
  solvetime ← sol !! "solvetime";
  Some {| _sim := _sim s; _exp := _exp s;
          _t := Some t; _y := Some y; _ydot := Some ydot;
          _success := Some success; _onroot := Some onroot;
          _message := Some message; _solvetime := Some solvetime;
          postvars := postvars s |}.

(** [BaseSolution.to_dict()]. *)
Definition to_dict (s : Solution) : option (gmap string pyval) :=
  t ← _t s;
  y ← _y s;
  ydot ← _ydot s;
  success ← _success s;
  onroot ← _onroot s;
  message ← _message s;
  solvetime ← _solvetime s;
  Some (<["solvetime" := solvetime]>
        (<["message" := message]>
         (<["onroot" := onroot]>
          (<["success" := success]>
           (<["ydot" := ydot]>
            (<["y" := y]>
             (<["t" := t]> ∅))))))).

(** The keys of a solution dictionary. *)
Definition solution_keys : list string :=
  ["t"; "y"; "ydot"; "success"; "onroot"; "message"; "solvetime"]%string.

(** [np.min(a)] and [np.max(a)]: ValueError on an empty array. *)
Definition np_min (a : ndarray) : option R :=
  match a with
  | [] => None
  | x :: a' => Some (foldl Rmin x a')
  end.

Definition np_max (a : ndarray) : option R :=
  match a with
  | [] => None
  | x :: a' => Some (foldl Rmax x a')
  end.

(** Reading an array or a number out of a dictionary of Python values. *)
Definition get_arr (d : gmap string pyval) (k : string) : option ndarray :=
  v ← d !! k; match v with PArr a => Some a | _ => None end.

Definition get_float (d : gmap string pyval) (k : string) : option R :=
  v ← d !! k; match v with PFloat x => Some x | _ => None end.

Section Verify.

Variable c : Constants.

(** [self.post()], which fills [postvars] by running the residual function
    over the saved trajectory. *)
Variable post : Solution → option (gmap string pyval).

(** The value of [verify()] without plots: [CVSolution.verify]. *)
Definition CVSolution_verify (s : Solution) : option bool :=
  pv ← (if decide (postvars s = ∅) then post s else Some (postvars s));
  let an := an (_sim s) in
  let ca := ca (_sim s) in
  V_ext ← get_float (_exp s) "V_ext";
  y ← match _y s with Some (PMat y) => Some y | _ => None end;
  V_mod ← get_col y (ptr_phi_ed ca);
  i_mod ← get_arr pv "i_ext";
  sdot_an ← get_arr pv "sdot_an";
  let i_an := map (λ x, (- x) * A_s an * thick an * c_F c) sdot_an in
  sdot_ca ← get_arr pv "sdot_ca";
  let i_ca := map (λ x, x * A_s ca * thick ca * c_F c) sdot_ca in
  let rV := map (λ v, v / V_ext) V_mod in
  c1 ← np_min rV;
  c2 ← np_max rV;
  r_an ← ew2 Rdiv i_an i_mod;
  c3 ← np_min r_an;
  c4 ← np_max r_an;
  r_ca ← ew2 Rdiv i_ca i_mod;
  c5 ← np_min r_ca;
  c6 ← np_max r_ca;
  Some (forallb (λ b : bool, b)
          [bool_decide (0.995 <= c1); bool_decide (c2 <= 1.005);
           bool_decide (0.995 <= c3); bool_decide (c4 <= 1.005);
           bool_decide (0.995 <= c5); bool_decide (c6 <= 1.005)]).

(** [CCSolution.verify]. *)
Definition CCSolution_verify (s : Solution) : option bool :=
  pv ← (if decide (postvars s = ∅) then post s else Some (postvars s));
  let sim := _sim s in
  let an := an sim in
  let ca := ca sim in
  C_rate ← get_float (_exp s) "C_rate";
  let i_ext := C_rate * cap (bat sim) / area (bat sim) in
  i_mod ← get_arr pv "i_ext";
  sdot_an ← get_arr pv "sdot_an";
  let i_an := map (λ x, (- x) * A_s an * thick an * c_F c) sdot_an in
  sdot_ca ← get_arr pv "sdot_ca";
  let i_ca := map (λ x, x * A_s ca * thick ca * c_F c) sdot_ca in
  let r_mod := map (λ v, v / i_ext) i_mod in
  c1 ← np_min r_mod;
  c2 ← np_max r_mod;
  let r_an := map (λ v, v / i_ext) i_an in
  c3 ← np_min r_an;
  c4 ← np_max r_an;
  let r_ca := map (λ v, v / i_ext) i_ca in
  c5 ← np_min r_ca;
  c6 ← np_max r_ca;
  Some (forallb (λ b : bool, b)
          [bool_decide (0.995 <= c1); bool_decide (c2 <= 1.005);
           bool_decide (0.995 <= c3); bool_decide (c4 <= 1.005);
           bool_decide (0.995 <= c5); bool_decide (c6 <= 1.005)]).

End Verify.

(** Every component of an array lies within half a percent of one. *)
Definition within_half_percent (a : ndarray) : Prop :=
  Forall (λ x, 0.995 <= x <= 1.005) a.


(** ** The exit handler of [_utils.py] *)

(** The class attribute [ExitHandler._registered] and the list of functions
    that the interpreter runs at exit, in the order of registration.
    Functions are compared by identity; a function is given by a number. *)
Record ExitState := {
  _registered : list nat;
  atexit : list nat;
}.

(** [ExitHandler.register_atexit(func)]. *)
Definition register_atexit (func : nat) (s : ExitState) : ExitState :=
  if decide (func ∉ _registered s) then
    {| _registered := _registered s; atexit := atexit s ++ [func] |}
  else s.
(** ** Concrete objects on which the model is run *)

Module Example.

(** The physical constants, per kmol. *)
Definition c : Constants := {| c_F := 96485330; c_R := 8314.5 |}.

(** A finite-difference gradient and a finite-volume divergence on a
    radial mesh. *)
Definition diff (a : ndarray) : option ndarray :=
  ew2 Rminus (but_first a) (but_last a).

Definition grad_r (r f : ndarray) : option ndarray :=
  df ← diff f; dr ← diff r; ew2 Rdiv df dr.

Definition div_r (rm rp f : ndarray) : option ndarray :=
  out ← ew2 Rmult (map (λ x, x * x) rp) (but_first f);
  inn ← ew2 Rmult (map (λ x, x * x) rm) (but_last f);
  num ← ew2 Rminus out inn;
  den ← ew2 Rminus (map (λ x, x * x * x) rp) (map (λ x, x * x * x) rm);
  ew2 Rdiv (map (Rmult 3) num) den.

(** Two radial nodes per particle; the state vector is
    [Li_an(0), Li_an(1), phi_an, phi_el, Li_ca(0), Li_ca(1), phi_ca]. *)
Definition anode : Electrode :=
  {| ptr_phi_ed := 2; r_ptr_Li_ed := [0; 1]%nat;
     Li_max := 30; alpha_a := 0.5; alpha_c := 0.5; A_s := 1; thick := 1;
     r := [0.5; 1.5]; rm := [0; 1]; rp := [1; 2];
     get_Eeq := λ _ _, 0; get_i0 := λ _ _ _, 1;
     get_Ds := λ xs _, map (λ _, 1) xs |}.

Definition cathode : Electrode :=
  {| ptr_phi_ed := 6; r_ptr_Li_ed := [4; 5]%nat;
     Li_max := 50; alpha_a := 0.5; alpha_c := 0.5; A_s := 1; thick := 1;
     r := [0.5; 1.5]; rm := [0; 1]; rp := [1; 2];
     get_Eeq := λ _ _, 4; get_i0 := λ _ _ _, 1;
     get_Ds := λ xs _, map (λ _, 1) xs |}.

Definition sv : ndarray := [0.5; 0.5; 0; 0; 0.5; 0.5; 4.5].
Definition svdot : ndarray := [0; 0; 0; 0; 0; 0; 0].

Definition sim : Simulation :=
  {| bat := {| temp := 300; area := 1; cap := 1 |};
     el := {| el_ptr_phi_el := 3; Li_0 := 1 |};
     an := anode; ca := cathode;
     _t0 := 0; _flags_post := false;
     _sv0 := sv; _svdot0 := svdot |}.

(** The three buffers at addresses 0, 1 and 2; the residual buffer holds
    a recognisable value in every row. *)
Definition res : ndarray := [9; 9; 9; 9; 9; 9; 9].
Definition mem : heap := [sv; svdot; res].

Definition experiment (m u : string) (v : R → R) : Experiment :=
  {| mode := m; units := u; value := v; events := None |}.

Definition run (s : Simulation) (e : Experiment) :=
  residuals c grad_r div_r 0 0 1 2 s e mem.

End Example.



(** ** Concrete solution objects *)

(** A constant-voltage solution with two saved times and no post-processed
    variables yet, and a constant-current solution that already holds
    them. *)
Definition example_postvars : gmap string pyval :=
  {[ "i_ext" := PArr [96485330; 96485330];
     "sdot_an" := PArr [-1; -1]; "sdot_ca" := PArr [1; 1] ]}.

Definition example_cv_solution : Solution :=
  ida_fill (Solution_init Example.sim {[ "V_ext" := PFloat 4.5 ]})
    {| values_t := PArr [0; 1];
       values_y := PMat [Example.sv; Example.sv];
       values_ydot := PMat [Example.svdot; Example.svdot];
       flag := 0; roots_t := PNone; sol_message := PStr "ok" |}
    (PFloat 0.5).

Definition example_cc_solution : Solution :=
  {| _sim := Example.sim; _exp := {[ "C_rate" := PFloat 96485330 ]};
     _t := Some (PArr [0; 1]);
     _y := Some (PMat [Example.sv; Example.sv]);
     _ydot := Some (PMat [Example.svdot; Example.svdot]);
     _success := Some (PBool true); _onroot := Some (PBool false);
     _message := Some (PStr "ok"); _solvetime := Some (PFloat 0.5);
     postvars := example_postvars |}.

(** ** Reasoning about runs *)

Section Runs.

Context {A B : Type}.

Lemma bind_Some (m : M A) (k : A → M B) (h : heap) (out : B * heap) :
  bind m k h = Some out ↔ ∃ x h1, m h = Some (x, h1) ∧ k x h1 = Some out.
Proof.
  unfold bind. split.
  - destruct (m h) as [[x h1]|]; [eauto | discriminate].
  - intros (x & h1 & -> & Hk). exact Hk.
Qed.

Lemma lift_Some (o : option A) (h : heap) (x : A) (h' : heap) :
  lift o h = Some (x, h') ↔ o = Some x ∧ h' = h.
Proof.
  unfold lift. destruct o; split; intros H;
    try discriminate; try (destruct H; discriminate).
  - inversion H; subst; auto.
  - destruct H as [[= ->] ->]. reflexivity.
Qed.

End Runs.

Lemma load_Some (a : nat) (h : heap) (v : ndarray) (h' : heap) :
  load a h = Some (v, h') ↔ h !! a = Some v ∧ h' = h.
Proof. unfold load. apply lift_Some. Qed.

Lemma store_item_Some (a i : nat) (x : R) (h : heap) (u : unit) (h' : heap) :
  store_item a i x h = Some (u, h') ↔
  ∃ buf, h !! a = Some buf ∧ (i < length buf)%nat ∧
         h' = <[a := <[i := x]> buf]> h.
Proof.
  unfold store_item. rewrite bind_Some. split.
  - intros (buf & h1 & Hl & Hk). apply load_Some in Hl as [Hl ->].
    apply bind_Some in Hk as (buf' & h2 & Hs & Hk).
    apply lift_Some in Hs as [Hs ->].
    unfold item_set in Hs. case_decide; [|discriminate].
    injection Hs as <-. injection Hk as <-. eauto.
  - intros (buf & Hl & Hi & ->). exists buf, h. split.
    + apply load_Some; auto.
    + apply bind_Some. exists (<[i := x]> buf), h. split.
      * apply lift_Some. split; [|done]. unfold item_set.
        case_decide; [done | contradiction].
      * destruct u. reflexivity.
Qed.

Lemma store_fancy_Some (a : nat) (idx : list nat) (v : ndarray)
    (h : heap) (u : unit) (h' : heap) :
  store_fancy a idx v h = Some (u, h') ↔
  ∃ buf buf', h !! a = Some buf ∧ fancy_set buf idx v = Some buf' ∧
              h' = <[a := buf']> h.
Proof.
  unfold store_fancy. rewrite bind_Some. split.
  - intros (buf & h1 & Hl & Hk). apply load_Some in Hl as [Hl ->].
    apply bind_Some in Hk as (buf' & h2 & Hs & Hk).
    apply lift_Some in Hs as [Hs ->]. injection Hk as <-. eauto.
  - intros (buf & buf' & Hl & Hs & ->). exists buf, h. split.
    + apply load_Some; auto.
    + apply bind_Some. exists buf', h. split.
      * apply lift_Some; auto.
      * destruct u. reflexivity.
Qed.

(** In-place writes keep the length of the buffer and touch only the rows
    they name. *)
Lemma foldl_insert_length (l : list (nat * R)) (a : ndarray) :
  length (foldl (λ acc p, <[p.1 := p.2]> acc) a l) = length a.
Proof.
  revert a. induction l as [|p l IH]; intros a; simpl; [done|].
  rewrite IH. apply length_insert.
Qed.

Lemma foldl_insert_lookup_ne (l : list (nat * R)) (a : ndarray) (k : nat) :
  k ∉ l.*1 →
  foldl (λ acc p, <[p.1 := p.2]> acc) a l !! k = a !! k.
Proof.
  revert a. induction l as [|p l IH]; intros a Hk; simpl; [done|].
  rewrite fmap_cons in Hk. apply not_elem_of_cons in Hk as [Hne Hk].
  rewrite IH by done. apply list_lookup_insert_ne. congruence.
Qed.

Lemma fancy_set_length (a : ndarray) idx v a' :
  fancy_set a idx v = Some a' → length a' = length a.
Proof.
  unfold fancy_set. destruct (forallb _ idx); [|discriminate].
  destruct (broadcast_to _ v) as [vs|]; simpl; [|discriminate].
  intros [= <-]. apply foldl_insert_length.
Qed.

Lemma fancy_set_lookup_ne (a : ndarray) idx v a' (k : nat) :
  fancy_set a idx v = Some a' → k ∉ idx → a' !! k = a !! k.
Proof.
  unfold fancy_set. destruct (forallb _ idx); [|discriminate].
  destruct (broadcast_to _ v) as [vs|]; simpl; [|discriminate].
  intros [= <-] Hk. apply foldl_insert_lookup_ne.
  intros Hin. apply Hk. apply list_elem_of_fmap in Hin as ([i x] & -> & Hin).
  apply elem_of_zip_l in Hin. exact Hin.
Qed.

(** Reading through an index array: the last value read is the value at the
    last index. *)
Lemma fancy_get_last (a : ndarray) (idx : list nat) (xs : ndarray) (x : R) :
  fancy_get a idx = Some xs → item_last xs = Some x →
  ∃ k, last idx = Some k ∧ a !! k = Some x.
Proof.
  unfold fancy_get, item_last. intros Hm Hl.
  apply mapM_Some in Hm. apply Forall2_last in Hm.
  rewrite Hl in Hm. inversion Hm as [k y Hk Heq1 Heq2|]; subst. eauto.
Qed.

Section ResidualsRuns.

Variable c : Constants.
Variable grad_r : ndarray → ndarray → option ndarray.
Variable div_r : ndarray → ndarray → ndarray → option ndarray.

Ltac inv_bind H x h :=
  apply bind_Some in H as (x & h & ? & H).

(** What a successful run of the domain equations has read, computed and
    written. *)
Lemma domain_equations_inv a_sv a_svdot a_res sim h phi_ca sdot_an sdot_ca h1 :
  domain_equations c grad_r div_r a_sv a_svdot a_res sim h
    = Some ((phi_ca, sdot_an, sdot_ca), h1) →
  ∃ sv phi_an phi_el xs_an xs_ca Js_an Js_ca res0 res1,
    h !! a_sv = Some sv ∧
    sv !! ptr_phi_ed (an sim) = Some phi_an ∧
    sv !! el_ptr_phi_el (el sim) = Some phi_el ∧
    sv !! ptr_phi_ed (ca sim) = Some phi_ca ∧
    fancy_get sv (r_ptr_Li_ed (an sim)) = Some xs_an ∧
    fancy_get sv (r_ptr_Li_ed (ca sim)) = Some xs_ca ∧
    sdot_ed c (an sim) (el sim) (temp (bat sim)) phi_an phi_el xs_an
      = Some sdot_an ∧
    sdot_ed c (ca sim) (el sim) (temp (bat sim)) phi_ca phi_el xs_ca
      = Some sdot_ca ∧
    Js_ed grad_r (an sim) (temp (bat sim)) xs_an sdot_an = Some Js_an ∧
    Js_ed grad_r (ca sim) (temp (bat sim)) xs_ca sdot_ca = Some Js_ca ∧
    h !! a_res = Some res0 ∧
    h1 = <[a_res := res1]> h ∧
    length res1 = length res0 ∧
    (∀ k, k ∉ r_ptr_Li_ed (an sim) → k ≠ ptr_phi_ed (an sim) →
          k ∉ r_ptr_Li_ed (ca sim) → res1 !! k = res0 !! k).
Proof.
  unfold domain_equations. intros H.
  inv_bind H sv h0. apply load_Some in H0 as [Hsv ->].
  inv_bind H phi_an h0. apply lift_Some in H0 as [Hpa ->].
  inv_bind H phi_el h0. apply lift_Some in H0 as [Hpe ->].
  inv_bind H phi_ca' h0. apply lift_Some in H0 as [Hpc ->].
  inv_bind H xs_an h0. apply lift_Some in H0 as [Hxa ->].
  inv_bind H xs_ca h0. apply lift_Some in H0 as [Hxc ->].
  inv_bind H sdot_an' h0. apply lift_Some in H0 as [Hsa ->].
  inv_bind H Js_an h0. apply lift_Some in H0 as [Hja ->].
  inv_bind H svdot1 h0. apply load_Some in H0 as [Hsd1 ->].
  inv_bind H rhs_an h0. apply lift_Some in H0 as [Hra ->].
  inv_bind H u1 h2. apply store_fancy_Some in H0 as (res0 & r1 & Hr0 & Hset1 & ->).
  assert (Hlt : (a_res < length h)%nat) by (eapply lookup_lt_Some; eauto).
  inv_bind H u2 h3. apply store_item_Some in H0 as (b2 & Hb2 & Hi2 & ->).
  rewrite list_lookup_insert_eq in Hb2 by done. injection Hb2 as <-.
  rewrite list_insert_insert_eq in *.
  inv_bind H sdot_ca' h0. apply lift_Some in H0 as [Hsc ->].
  inv_bind H Js_ca h0. apply lift_Some in H0 as [Hjc ->].
  inv_bind H svdot2 h0. apply load_Some in H0 as [Hsd2 ->].
  inv_bind H rhs_ca h0. apply lift_Some in H0 as [Hrc ->].
  inv_bind H u3 h4. apply store_fancy_Some in H0 as (b3 & r3 & Hb3 & Hset3 & ->).
  rewrite list_lookup_insert_eq in Hb3 by done. injection Hb3 as <-.
  rewrite list_insert_insert_eq in *.
  unfold ret in H. injection H as -> -> -> <-.
  exists sv, phi_an, phi_el, xs_an, xs_ca, Js_an, Js_ca, res0, r3.
  repeat (split; [assumption || reflexivity|]).
  split.
  - rewrite (fancy_set_length _ _ _ _ Hset3), length_insert.
    apply (fancy_set_length _ _ _ _ Hset1).
  - intros k Hka Hkp Hkc.
    rewrite (fancy_set_lookup_ne _ _ _ _ _ Hset3 Hkc).
    rewrite list_lookup_insert_ne by done.
    apply (fancy_set_lookup_ne _ _ _ _ _ Hset1 Hka).
Qed.

(** The boundary conditions write at most the two boundary rows. *)
Lemma boundary_conditions_frame t a_res sim exp phi_ca sdot_an sdot_ca h1 u h' :
  boundary_conditions c t a_res sim exp phi_ca sdot_an sdot_ca h1
    = Some (u, h') →
  ∀ res1, h1 !! a_res = Some res1 →
  ∃ res2, h' = <[a_res := res2]> h1 ∧ length res2 = length res1 ∧
    (∀ k, k ≠ ptr_phi_ed (ca sim) → k ≠ el_ptr_phi_el (el sim) →
          res2 !! k = res1 !! k).
Proof.
  intros H res1 Hres1.
  assert (Hlt : (a_res < length h1)%nat) by (eapply lookup_lt_Some; eauto).
  assert (Htwo : ∀ x y,
    bind (store_item a_res (ptr_phi_ed (ca sim)) x)
         (λ _, store_item a_res (el_ptr_phi_el (el sim)) y) h1 = Some (u, h') →
    ∃ res2, h' = <[a_res := res2]> h1 ∧ length res2 = length res1 ∧
      (∀ k, k ≠ ptr_phi_ed (ca sim) → k ≠ el_ptr_phi_el (el sim) →
            res2 !! k = res1 !! k)).
  { intros x y Hb. inv_bind Hb u1 h2.
    apply store_item_Some in H0 as (b1 & Hb1 & Hi1 & ->).
    apply store_item_Some in Hb as (b2 & Hb2 & Hi2 & ->).
    rewrite list_lookup_insert_eq in Hb2 by done. injection Hb2 as <-.
    rewrite list_insert_insert_eq. rewrite Hres1 in Hb1. injection Hb1 as <-.
    eexists. split; [reflexivity|]. split.
    - by rewrite !length_insert.
    - intros k Hk1 Hk2. by rewrite !list_lookup_insert_ne by done. }
  unfold boundary_conditions in H.
  repeat (match type of H with
          | (if ?b then _ else _) _ = _ => destruct b
          end; [by eapply Htwo|]).
  unfold ret in H. injection H as _ <-. exists res1. split; [|done].
  symmetry. by apply list_insert_id.
Qed.

(** A run of [residuals] is a run of the domain equations followed by the
    boundary conditions; the events are stored and the value returned. *)
Lemma residuals_inv t a_sv a_svdot a_res sim exp h e' r h' :
  residuals c grad_r div_r t a_sv a_svdot a_res sim exp h = Some ((e', r), h') →
  ∃ phi_ca sdot_an sdot_ca h1,
    domain_equations c grad_r div_r a_sv a_svdot a_res sim h
      = Some ((phi_ca, sdot_an, sdot_ca), h1) ∧
    boundary_conditions c t a_res sim exp phi_ca sdot_an sdot_ca h1
      = Some (tt, h') ∧
    e' = set_events exp (events_snapshot c t sim phi_ca sdot_an) ∧
    r = (if _flags_post sim then Some (sdot_an, sdot_ca) else None).
Proof.
  unfold residuals. intros H.
  inv_bind H x h1. destruct x as [[phi_ca sdot_an] sdot_ca].
  inv_bind H u h2. destruct u. unfold ret in H. injection H as <- <- <-.
  exists phi_ca, sdot_an, sdot_ca, h1. auto.
Qed.

End ResidualsRuns.

(** ** Properties of [residuals] *)

(** Evaluation of the model on concrete objects, leaving real arithmetic
    symbolic. *)
Ltac run_model :=
  cbv -[IZR Rdiv Rmult Rplus Rminus Ropp Rinv exp Rabs Rlt Rle Rmax Rlt_dec
        Req_dec_T].

Section ResidualsClaims.

Variable c : Constants.
Variable grad_r : ndarray → ndarray → option ndarray.
Variable div_r : ndarray → ndarray → ndarray → option ndarray.

(** The rate computed by the code is the rate of the specification:
    dividing by [R] and then by [T] is dividing by [R*T]. *)
Lemma sdot_ed_spec ed el T phi_ed phi_el xs x :
  item_last xs = Some x →
  sdot_ed c ed el T phi_ed phi_el xs
    = Some (spec_rate c ed el T phi_ed phi_el x).
Proof.
  intros Hx. unfold sdot_ed. rewrite Hx. simpl. f_equal.
  unfold spec_rate, butler_volmer, Rdiv. rewrite !Rinv_mult.
  f_equal. f_equal; f_equal; ring.
Qed.

Lemma surface_fancy_get ed (sv xs : ndarray) x :
  fancy_get sv (r_ptr_Li_ed ed) = Some xs → item_last xs = Some x →
  surface ed sv = Some x.
Proof.
  intros Hg Hl. destruct (fancy_get_last _ _ _ _ Hg Hl) as (k & Hk & Hx).
  unfold surface. rewrite Hk. exact Hx.
Qed.

Lemma sdot_ed_inv ed el T phi_ed phi_el (sv xs : ndarray) s :
  fancy_get sv (r_ptr_Li_ed ed) = Some xs →
  sdot_ed c ed el T phi_ed phi_el xs = Some s →
  ∃ x, surface ed sv = Some x ∧ s = spec_rate c ed el T phi_ed phi_el x.
Proof.
  intros Hg Hs. destruct (item_last xs) as [x|] eqn:Hl.
  - exists x. split; [by eapply surface_fancy_get|].
    rewrite (sdot_ed_spec _ _ _ _ _ _ _ Hl) in Hs. by injection Hs.
  - unfold sdot_ed in Hs. rewrite Hl in Hs. discriminate.
Qed.

(** C1.  In every call to [residuals] that returns, the reaction rate of
    the anode and of the cathode is [i0/F * (exp(alpha_a*F*eta/(R*T)) -
    exp(-alpha_c*F*eta/(R*T)))], with [eta] the electrode potential minus
    the electrolyte potential minus [get_Eeq] at the surface fraction, and
    [i0 = get_i0(surface fraction, Li_0, T)]; the surface fraction is the
    state value at the last radial node of the electrode.  These are the
    rates the domain equations compute, the ones returned under the
    [post] flag and the ones behind the events snapshot. *)
Theorem residuals_reaction_rates t a_sv a_svdot a_res sim exp h sv e' r h' :
  h !! a_sv = Some sv →
  residuals c grad_r div_r t a_sv a_svdot a_res sim exp h
    = Some ((e', r), h') →
  ∃ phi_an phi_el phi_ca x_an x_ca h1,
    sv !! ptr_phi_ed (an sim) = Some phi_an ∧
    sv !! el_ptr_phi_el (el sim) = Some phi_el ∧
    sv !! ptr_phi_ed (ca sim) = Some phi_ca ∧
    surface (an sim) sv = Some x_an ∧
    surface (ca sim) sv = Some x_ca ∧
    let T := temp (bat sim) in
    let sdot_an := spec_rate c (an sim) (el sim) T phi_an phi_el x_an in
    let sdot_ca := spec_rate c (ca sim) (el sim) T phi_ca phi_el x_ca in
    domain_equations c grad_r div_r a_sv a_svdot a_res sim h
      = Some ((phi_ca, sdot_an, sdot_ca), h1) ∧
    r = (if _flags_post sim then Some (sdot_an, sdot_ca) else None) ∧
    events e' = Some (events_snapshot c t sim phi_ca sdot_an).
Proof.
  intros Hsv H.
  apply residuals_inv in H as (phi_ca & sa & sc & h1 & Hd & _ & -> & ->).
  pose proof Hd as Hd'.
  apply domain_equations_inv in Hd'
    as (sv' & phi_an & phi_el & xs_an & xs_ca & Js_an & Js_ca & res0 & res1
        & Hsv' & Hpa & Hpe & Hpc & Hxa & Hxc & Hsa & Hsc & _).
  rewrite Hsv in Hsv'. injection Hsv' as <-.
  destruct (sdot_ed_inv _ _ _ _ _ _ _ _ Hxa Hsa) as (x_an & Hsurf_a & ->).
  destruct (sdot_ed_inv _ _ _ _ _ _ _ _ Hxc Hsc) as (x_ca & Hsurf_c & ->).
  exists phi_an, phi_el, phi_ca, x_an, x_ca, h1. simpl. auto 10.
Qed.


End ResidualsClaims.

Lemma residuals_reaction_rates_witness :
  ∃ e' r h',
    Example.run Example.sim (Example.experiment "voltage" "V" (λ _, 4))
      = Some ((e', r), h') ∧
    ∃ phi_an phi_el phi_ca x_an x_ca h1,
      Example.sv !! 2%nat = Some phi_an ∧
      Example.sv !! 3%nat = Some phi_el ∧
      Example.sv !! 6%nat = Some phi_ca ∧
      surface Example.anode Example.sv = Some x_an ∧
      surface Example.cathode Example.sv = Some x_ca ∧
      domain_equations Example.c Example.grad_r Example.div_r 0 1 2
        Example.sim Example.mem
        = Some ((phi_ca,
                 spec_rate Example.c Example.anode (el Example.sim) 300
                   phi_an phi_el x_an,
                 spec_rate Example.c Example.cathode (el Example.sim) 300
                   phi_ca phi_el x_ca), h1) ∧
      r = None.
Proof.
  eexists _, _, _. split; [run_model; reflexivity|].
  destruct (residuals_reaction_rates Example.c Example.grad_r Example.div_r
              0 0 1 2 Example.sim
              (Example.experiment "voltage" "V" (λ _, 4)) Example.mem
              Example.sv _ _ _ eq_refl eq_refl)
    as (phi_an & phi_el & phi_ca & x_an & x_ca & h1 & H1 & H2 & H3 & H4 & H5
        & H6 & H7 & _).
  exists phi_an, phi_el, phi_ca, x_an, x_ca, h1. auto 10.
Defined.

Section BoundaryClaims.

Variable c : Constants.
Variable grad_r : ndarray → ndarray → option ndarray.
Variable div_r : ndarray → ndarray → ndarray → option ndarray.

Lemma boundary_conditions_voltage t a_res sim exp phi_ca sdot_an sdot_ca :
  mode exp = "voltage"%string →
  boundary_conditions c t a_res sim exp phi_ca sdot_an sdot_ca
  = bind (store_item a_res (ptr_phi_ed (ca sim)) (phi_ca - value exp t))
      (λ _, store_item a_res (el_ptr_phi_el (el sim))
              (sdot_an * A_s (an sim) * thick (an sim)
               + sdot_ca * A_s (ca sim) * thick (ca sim))).
Proof. intros Hm. unfold boundary_conditions. rewrite Hm. reflexivity. Qed.

Lemma boundary_conditions_unsupported t a_res sim exp phi_ca sdot_an sdot_ca :
  ¬ (mode exp = "current" ∧ units exp = "A")%string →
  ¬ (mode exp = "current" ∧ units exp = "C")%string →
  mode exp ≠ "voltage"%string → mode exp ≠ "power"%string →
  boundary_conditions c t a_res sim exp phi_ca sdot_an sdot_ca = ret tt.
Proof.
  intros HA HC HV HP. unfold boundary_conditions.
  apply String.eqb_neq in HV, HP. rewrite HV, HP.
  destruct (String.eqb (mode exp) "current") eqn:Hm; [|reflexivity].
  apply String.eqb_eq in Hm.
  destruct (String.eqb (units exp) "A") eqn:Hu1.
  { apply String.eqb_eq in Hu1. tauto. }
  destruct (String.eqb (units exp) "C") eqn:Hu2.
  { apply String.eqb_eq in Hu2. tauto. }
  reflexivity.
Qed.

Lemma two_rows_Some a_res i1 x1 i2 x2 (h1 : heap) (res1 : ndarray) u h' :
  h1 !! a_res = Some res1 →
  bind (store_item a_res i1 x1) (λ _, store_item a_res i2 x2) h1
    = Some (u, h') →
  h' = <[a_res := <[i2 := x2]> (<[i1 := x1]> res1)]> h1.
Proof.
  intros Hres1 H.
  assert (Hlt : (a_res < length h1)%nat) by (eapply lookup_lt_Some; eauto).
  apply bind_Some in H as (u1 & h2 & H1 & H2).
  apply store_item_Some in H1 as (b1 & Hb1 & _ & ->).
  apply store_item_Some in H2 as (b2 & Hb2 & _ & ->).
  rewrite list_lookup_insert_eq in Hb2 by done. injection Hb2 as <-.
  rewrite Hres1 in Hb1. injection Hb1 as <-.
  by rewrite list_insert_insert_eq.
Qed.

(** C2, as the code has it.  In voltage mode [residuals] overrides
    exactly two rows of the buffer left by the domain equations: the
    cathode row with the cathode potential minus the applied voltage, and
    the electrolyte row with the sum of the two reaction rates scaled by
    reactive area and thickness only.  That sum carries no Faraday factor:
    multiplied by [F] it is the net charge balance of the current-mode
    rows. *)
Theorem voltage_mode_rows t a_sv a_svdot a_res sim exp h e' r h' :
  mode exp = "voltage"%string →
  residuals c grad_r div_r t a_sv a_svdot a_res sim exp h
    = Some ((e', r), h') →
  ∃ sv phi_ca sdot_an sdot_ca h1 res1,
    h !! a_sv = Some sv ∧
    sv !! ptr_phi_ed (ca sim) = Some phi_ca ∧
    domain_equations c grad_r div_r a_sv a_svdot a_res sim h
      = Some ((phi_ca, sdot_an, sdot_ca), h1) ∧
    h1 !! a_res = Some res1 ∧
    let row_A := phi_ca - value exp t in
    let row_B := sdot_an * A_s (an sim) * thick (an sim)
                 + sdot_ca * A_s (ca sim) * thick (ca sim) in
    h' = <[a_res := <[el_ptr_phi_el (el sim) := row_B]>
                      (<[ptr_phi_ed (ca sim) := row_A]> res1)]> h1 ∧
    row_B * c_F c = reaction_charge c (an sim) sdot_an
                    + reaction_charge c (ca sim) sdot_ca.
Proof.
  intros Hm H.
  apply residuals_inv in H as (phi_ca & sa & sc & h1 & Hd & Hb & _).
  pose proof Hd as Hd'.
  apply domain_equations_inv in Hd'
    as (sv & phi_an & phi_el & xs_an & xs_ca & Js_an & Js_ca & res0 & res1
        & Hsv & _ & _ & Hpc & _ & _ & _ & _ & _ & _ & Hr0 & Hh1 & _).
  assert (Hr1 : h1 !! a_res = Some res1).
  { subst h1. apply list_lookup_insert_eq. by eapply lookup_lt_Some. }
  rewrite boundary_conditions_voltage in Hb by done.
  apply (two_rows_Some _ _ _ _ _ _ _ _ _ Hr1) in Hb.
  exists sv, phi_ca, sa, sc, h1, res1. simpl.
  repeat (split; [assumption|]). unfold reaction_charge. ring.
Qed.

(** C4.  With [mode = 'current'], the experiment [units = 'C'] with value
    [v] and the experiment [units = 'A'] with value [t -> v(t)*bat.cap]
    are indistinguishable: the same store (hence the same residual
    vector), the same events snapshot and the same returned value, or an
    exception in both. *)
Theorem current_units_equivalent t a_sv a_svdot a_res sim
    (v : R → R) (ev1 ev2 : option Events) h :
  observe (residuals c grad_r div_r t a_sv a_svdot a_res sim
             {| mode := "current"; units := "C"; value := v;
                events := ev1 |} h)
  = observe (residuals c grad_r div_r t a_sv a_svdot a_res sim
             {| mode := "current"; units := "A";
                value := λ t, v t * cap (bat sim); events := ev2 |} h).
Proof.
  unfold residuals, bind.
  destruct (domain_equations _ _ _ _ _ _ _ _) as [[[[phi_ca sa] sc] h1]|];
    [|reflexivity].
  unfold boundary_conditions. simpl.
  match goal with
  | |- observe (match ?m with _ => _ end) = _ => destruct m as [[[] h2]|]
  end; reflexivity.
Qed.

(** C5.  An experiment whose [(mode, units)] is none of current/'A',
    current/'C', voltage, power raises nothing of its own: the call
    returns whenever the same call returns for some other experiment.  On
    an index map whose two boundary rows are not electrode rows, the
    cathode [phi_ed] row and the electrolyte row keep the values the
    caller left in the buffer, and every other row is what the call
    writes for the other experiment. *)
Theorem unsupported_falls_through t a_sv a_svdot a_res sim exp exp0 h
    e0 r0 h0 res :
  ¬ (mode exp = "current" ∧ units exp = "A")%string →
  ¬ (mode exp = "current" ∧ units exp = "C")%string →
  mode exp ≠ "voltage"%string → mode exp ≠ "power"%string →
  ptr_phi_ed (ca sim) ∉ r_ptr_Li_ed (an sim) →
  ptr_phi_ed (ca sim) ≠ ptr_phi_ed (an sim) →
  ptr_phi_ed (ca sim) ∉ r_ptr_Li_ed (ca sim) →
  el_ptr_phi_el (el sim) ∉ r_ptr_Li_ed (an sim) →
  el_ptr_phi_el (el sim) ≠ ptr_phi_ed (an sim) →
  el_ptr_phi_el (el sim) ∉ r_ptr_Li_ed (ca sim) →
  h !! a_res = Some res →
  residuals c grad_r div_r t a_sv a_svdot a_res sim exp0 h
    = Some ((e0, r0), h0) →
  ∃ e' r h' res',
    residuals c grad_r div_r t a_sv a_svdot a_res sim exp h
      = Some ((e', r), h') ∧
    h' !! a_res = Some res' ∧
    length res' = length res ∧
    res' !! ptr_phi_ed (ca sim) = res !! ptr_phi_ed (ca sim) ∧
    res' !! el_ptr_phi_el (el sim) = res !! el_ptr_phi_el (el sim) ∧
    (∀ a, a ≠ a_res → h' !! a = h0 !! a) ∧
    ∃ res0, h0 !! a_res = Some res0 ∧
      ∀ k, k ≠ ptr_phi_ed (ca sim) → k ≠ el_ptr_phi_el (el sim) →
           res' !! k = res0 !! k.
Proof.
  intros HA HC HV HP Hc1 Hc2 Hc3 He1 He2 He3 Hres H0.
  apply residuals_inv in H0 as (phi_ca & sa & sc & h1 & Hd & Hb & _ & _).
  pose proof Hd as Hd'.
  apply domain_equations_inv in Hd'
    as (sv & phi_an & phi_el & xs_an & xs_ca & Js_an & Js_ca & res0' & res1
        & _ & _ & _ & _ & _ & _ & _ & _ & _ & _ & Hr0 & Hh1 & Hlen & Hfr).
  rewrite Hres in Hr0. injection Hr0 as <-.
  assert (Hlt : (a_res < length h)%nat) by (by eapply lookup_lt_Some).
  assert (Hr1 : h1 !! a_res = Some res1).
  { subst h1. by apply list_lookup_insert_eq. }
  destruct (boundary_conditions_frame _ _ _ _ _ _ _ _ _ _ _ Hb _ Hr1)
    as (res2 & -> & Hlen2 & Hfr2).
  exists (set_events exp (events_snapshot c t sim phi_ca sa)),
         (if _flags_post sim then Some (sa, sc) else None), h1, res1.
  split.
  { unfold residuals, bind. rewrite Hd.
    rewrite boundary_conditions_unsupported by done. reflexivity. }
  split; [done|]. split; [done|].
  split; [by apply Hfr|]. split; [by apply Hfr|]. split.
  - intros a Ha. by rewrite list_lookup_insert_ne by done.
  - exists res2. split.
    + apply list_lookup_insert_eq. subst h1. by rewrite length_insert.
    + intros k Hk1 Hk2. symmetry. by apply Hfr2.
Qed.

End BoundaryClaims.

Section EffectClaims.

Variable c : Constants.
Variable grad_r : ndarray → ndarray → option ndarray.
Variable div_r : ndarray → ndarray → ndarray → option ndarray.

(** C6.  Running [residuals] with [sim._flags['post']] unset and set,
    everything else equal: both calls raise, or both return with the same
    store (the same contents of [res]) and the same experiment dictionary
    (the same events snapshot); the value returned is [None] with the
    flag unset and the pair of the two reaction rates, without the
    residual array, with the flag set. *)
Theorem post_flag_noninterference t a_sv a_svdot a_res sim exp h :
  match residuals c grad_r div_r t a_sv a_svdot a_res (set_post false sim)
          exp h,
        residuals c grad_r div_r t a_sv a_svdot a_res (set_post true sim)
          exp h
  with
  | Some ((e0, r0), h0), Some ((e1, r1), h1) =>
      h0 = h1 ∧ e0 = e1 ∧ r0 = None ∧
      ∃ phi_ca sdot_an sdot_ca hm,
        domain_equations c grad_r div_r a_sv a_svdot a_res sim h
          = Some ((phi_ca, sdot_an, sdot_ca), hm) ∧
        r1 = Some (sdot_an, sdot_ca)
  | None, None => True
  | _, _ => False
  end.
Proof.
  unfold residuals, bind.
  change (domain_equations c grad_r div_r a_sv a_svdot a_res
            (set_post false sim) h)
    with (domain_equations c grad_r div_r a_sv a_svdot a_res sim h).
  change (domain_equations c grad_r div_r a_sv a_svdot a_res
            (set_post true sim) h)
    with (domain_equations c grad_r div_r a_sv a_svdot a_res sim h).
  destruct (domain_equations _ _ _ _ _ _ _ _)
    as [[[[phi_ca sa] sc] hm]|]; [|exact I].
  change (boundary_conditions c t a_res (set_post true sim) exp phi_ca sa sc)
    with (boundary_conditions c t a_res (set_post false sim) exp phi_ca sa sc).
  destruct (boundary_conditions _ _ _ _ _ _ _ _ _) as [[[] h2]|]; [|exact I].
  simpl. repeat split. exists phi_ca, sa, sc, hm. auto.
Qed.

(** C7.  A call to [residuals] that returns has changed nothing but the
    buffer [res], whose length it keeps: every other cell of the store,
    so [sv] and [svdot] when they are buffers other than [res], is as
    before.  The simulation object is only read.  The experiment
    dictionary keeps its mode, units and value, and its events entry is a
    snapshot with the seven fields [time_s], [time_min], [time_h],
    [current_A], [current_C], [voltage_V], [power_W], where
    [time_s = sim._t0 + t], [time_min = time_s/60], [time_h = time_s/3600],
    [current_C = current_A/bat.cap] and [power_W = current_A*voltage_V]. *)
Theorem residuals_frame t a_sv a_svdot a_res sim exp h e' r h' :
  residuals c grad_r div_r t a_sv a_svdot a_res sim exp h
    = Some ((e', r), h') →
  (∃ res res', h !! a_res = Some res ∧ h' = <[a_res := res']> h ∧
               length res' = length res) ∧
  (∀ a, a ≠ a_res → h' !! a = h !! a) ∧
  (a_sv ≠ a_res → h' !! a_sv = h !! a_sv) ∧
  (a_svdot ≠ a_res → h' !! a_svdot = h !! a_svdot) ∧
  mode e' = mode exp ∧ units e' = units exp ∧ value e' = value exp ∧
  ∃ ev, events e' = Some ev ∧
    time_s ev = _t0 sim + t ∧
    time_min ev = time_s ev / 60 ∧
    time_h ev = time_s ev / 3600 ∧
    current_C ev = current_A ev / cap (bat sim) ∧
    power_W ev = current_A ev * voltage_V ev.
Proof.
  intros H.
  apply residuals_inv in H as (phi_ca & sa & sc & h1 & Hd & Hb & -> & _).
  apply domain_equations_inv in Hd
    as (sv & phi_an & phi_el & xs_an & xs_ca & Js_an & Js_ca & res0 & res1
        & _ & _ & _ & _ & _ & _ & _ & _ & _ & _ & Hr0 & -> & Hlen & _).
  assert (Hlt : (a_res < length h)%nat) by (by eapply lookup_lt_Some).
  assert (Hr1 : <[a_res := res1]> h !! a_res = Some res1)
    by (by apply list_lookup_insert_eq).
  destruct (boundary_conditions_frame _ _ _ _ _ _ _ _ _ _ _ Hb _ Hr1)
    as (res2 & -> & Hlen2 & _).
  rewrite list_insert_insert_eq.
  assert (Hfr : ∀ a, a ≠ a_res → <[a_res := res2]> h !! a = h !! a).
  { intros a Ha. by apply list_lookup_insert_ne. }
  split; [|split; [|split; [|split]]]; auto.
  - exists res0, res2. split; [done|]. split; [done|]. congruence.
  - simpl. repeat split. eexists. split; [reflexivity|]. simpl. auto.
Qed.

End EffectClaims.

(** ** The claims on a concrete simulation *)

Ltac solve_notin :=
  let H := fresh in
  intros H;
  repeat (apply elem_of_cons in H as [H|H]; [discriminate H|]);
  by apply elem_of_nil in H.

Lemma voltage_mode_rows_witness :
  ∃ e' r h',
    Example.run Example.sim (Example.experiment "voltage" "V" (λ _, 4))
      = Some ((e', r), h') ∧
    ∃ phi_ca sdot_an sdot_ca h1 res1,
      Example.sv !! 6%nat = Some phi_ca ∧
      domain_equations Example.c Example.grad_r Example.div_r 0 1 2
        Example.sim Example.mem = Some ((phi_ca, sdot_an, sdot_ca), h1) ∧
      h1 !! 2%nat = Some res1 ∧
      h' = <[2%nat := <[3%nat := sdot_an * 1 * 1 + sdot_ca * 1 * 1]>
                        (<[6%nat := phi_ca - 4]> res1)]> h1 ∧
      (sdot_an * 1 * 1 + sdot_ca * 1 * 1) * c_F Example.c
        = reaction_charge Example.c Example.anode sdot_an
          + reaction_charge Example.c Example.cathode sdot_ca.
Proof.
  eexists _, _, _. split; [run_model; reflexivity|].
  destruct (voltage_mode_rows Example.c Example.grad_r Example.div_r
              0 0 1 2 Example.sim
              (Example.experiment "voltage" "V" (λ _, 4)) Example.mem
              _ _ _ eq_refl eq_refl)
    as (sv & phi_ca & sa & sc & h1 & res1 & Hsv & H).
  injection Hsv as <-.
  exists phi_ca, sa, sc, h1, res1. exact H.
Defined.

(** C2 as stated fails: on the example, the electrolyte row written in
    voltage mode is not the sum of the two reaction charges. *)
Lemma voltage_row_counterexample :
  ∃ e' r h' res' phi_ca sdot_an sdot_ca h1,
    Example.run Example.sim (Example.experiment "voltage" "V" (λ _, 4))
      = Some ((e', r), h') ∧
    domain_equations Example.c Example.grad_r Example.div_r 0 1 2
      Example.sim Example.mem = Some ((phi_ca, sdot_an, sdot_ca), h1) ∧
    h' !! 2%nat = Some res' ∧
    res' !! 3%nat ≠
      Some (reaction_charge Example.c Example.anode sdot_an
            + reaction_charge Example.c Example.cathode sdot_ca).
Proof.
  eexists _, _, _, _, _, _, _, _.
  split; [run_model; reflexivity|].
  split; [run_model; reflexivity|].
  split; [reflexivity|].
  run_model. intros [= H]. revert H.
  match goal with
  | |- context [exp ?a - exp ?b] =>
      assert (exp a - exp b = 0)
        by (replace a with 0 by lra; replace b with 0 by lra; lra)
  end.
  match goal with
  | |- context [exp ?a - exp ?b] =>
      assert (0 < exp a - exp b)
        by (assert (b < a) by lra; pose proof (exp_increasing b a); lra)
  end.
  lra.
Qed.

Lemma unsupported_falls_through_witness :
  ∃ e' r h' res',
    Example.run Example.sim (Example.experiment "current" "mA" (λ _, 1))
      = Some ((e', r), h') ∧
    h' !! 2%nat = Some res' ∧
    length res' = length Example.res ∧
    res' !! 6%nat = Example.res !! 6%nat ∧
    res' !! 3%nat = Example.res !! 3%nat.
Proof.
  edestruct (unsupported_falls_through Example.c Example.grad_r Example.div_r
               0 0 1 2 Example.sim
               (Example.experiment "current" "mA" (λ _, 1))
               (Example.experiment "current" "A" (λ _, 1))
               Example.mem)
    as (e' & r & h' & res' & H1 & H2 & H3 & H4 & H5 & _).
  - intros [_ H]; discriminate H.
  - intros [_ H]; discriminate H.
  - discriminate.
  - discriminate.
  - solve_notin.
  - discriminate.
  - solve_notin.
  - solve_notin.
  - discriminate.
  - solve_notin.
  - reflexivity.
  - run_model. reflexivity.
  - exists e', r, h', res'. auto.
Defined.

Lemma residuals_frame_witness :
  ∃ e' r h',
    Example.run Example.sim (Example.experiment "power" "W" (λ _, 1))
      = Some ((e', r), h') ∧
    h' !! 0%nat = Some Example.sv ∧ h' !! 1%nat = Some Example.svdot ∧
    mode e' = "power"%string ∧
    ∃ ev, events e' = Some ev ∧ time_min ev = time_s ev / 60 ∧
          power_W ev = current_A ev * voltage_V ev.
Proof.
  eexists _, _, _. split; [run_model; reflexivity|].
  destruct (residuals_frame Example.c Example.grad_r Example.div_r
              0 0 1 2 Example.sim
              (Example.experiment "power" "W" (λ _, 1)) Example.mem
              _ _ _ eq_refl)
    as (_ & _ & Hsv & Hsvdot & Hm & _ & _ & ev & Hev & _ & Hmin & _ & _ & Hp).
  split; [apply Hsv; discriminate|].
  split; [apply Hsvdot; discriminate|].
  split; [exact Hm|].
  exists ev. auto.
Defined.

(** The side conditions of the frame property matter: when the caller
    passes one array as both [sv] and [res], the call overwrites the state
    vector (here its last row, with the voltage-mode residual). *)
Remark residuals_aliased_buffers :
  ∃ out h' sv',
    residuals Example.c Example.grad_r Example.div_r 0 0 1 0 Example.sim
      (Example.experiment "voltage" "V" (λ _, 4))
      [Example.sv; Example.svdot] = Some (out, h') ∧
    h' !! 0%nat = Some sv' ∧ h' !! 1%nat = Some Example.svdot ∧
    sv' !! 6%nat = Some (4.5 - 4) ∧ Example.sv !! 6%nat = Some 4.5.
Proof.
  eexists _, _, _. split; [run_model; reflexivity|].
  repeat split; reflexivity.
Qed.

(** ** Properties of [bandwidth] *)

Lemma step_Rmax (x : R) : step x = Rmax 1e-6 (1e-6 * x).
Proof.
  unfold step, pymax, Rmax.
  destruct (decide (1e-6 < 1e-6 * x)), (Rle_dec 1e-6 (1e-6 * x)); lra.
Qed.

(** C8, as the code has it.  For a column index [j] with component [x], the
    perturbed copy differs from the vector at [j] only, where it holds
    [x + max(1e-6, 1e-6*x)]: the step takes the signed value, not its
    magnitude.  It is at least [1e-6] and never zero, also for [x = 0] and
    for negative [x], where it is exactly [1e-6]; it is the step
    [max(1e-6, 1e-6*|x|)] exactly when [x >= -1].  The loop over [y] and
    the loop over [y'] perturb through the same function. *)
Theorem perturbation_step (v : ndarray) (j : nat) (x : R) :
  v !! j = Some x →
  perturbed v j = Some (<[j := x + Rmax 1e-6 (1e-6 * x)]> v) ∧
  1e-6 <= step x ∧
  step x ≠ 0 ∧
  (x <= 0 → step x = 1e-6) ∧
  (step x = Rmax 1e-6 (1e-6 * Rabs x) ↔ -1 <= x).
Proof.
  intros Hx. split; [|split; [|split; [|split]]].
  - unfold perturbed. rewrite Hx. simpl. unfold item_set.
    rewrite decide_True by (by eapply lookup_lt_Some).
    by rewrite step_Rmax.
  - rewrite step_Rmax. unfold Rmax. destruct (Rle_dec _ _); lra.
  - rewrite step_Rmax. unfold Rmax. destruct (Rle_dec _ _); lra.
  - rewrite step_Rmax. unfold Rmax. destruct (Rle_dec _ _); lra.
  - rewrite step_Rmax. unfold Rmax, Rabs.
    destruct (Rcase_abs x);
      repeat match goal with
             | |- context [Rle_dec ?a ?b] => destruct (Rle_dec a b)
             end; split; lra.
Qed.

Lemma perturbation_step_witness :
  perturbed [0.5; -2; 0] 1 = Some [0.5; -2 + Rmax 1e-6 (1e-6 * -2); 0] ∧
  1e-6 <= step (-2) ∧ step (-2) ≠ 0 ∧ step (-2) = 1e-6.
Proof.
  destruct (perturbation_step [0.5; -2; 0] 1 (-2) eq_refl)
    as (H1 & H2 & H3 & H4 & _).
  split; [exact H1|]. split; [exact H2|]. split; [exact H3|].
  apply H4. lra.
Defined.

(** C8 as stated fails: the component [-2] is perturbed by [1e-6], not by
    [max(1e-6, 1e-6*|-2|) = 2e-6]. *)
Lemma perturbation_counterexample :
  ∃ dsv d, perturbed [0.5; -2; 0] 1 = Some dsv ∧ dsv !! 1%nat = Some d ∧
           d - -2 ≠ Rmax 1e-6 (1e-6 * Rabs (-2)).
Proof.
  eexists _, _. split; [reflexivity|]. split; [reflexivity|].
  unfold step, pymax, Rmax, Rabs.
  destruct (decide (1e-6 < 1e-6 * -2)); destruct (Rcase_abs (-2));
    repeat match goal with
           | |- context [Rle_dec ?a ?b] => destruct (Rle_dec a b)
           end; lra.
Qed.

Section Bands.

Implicit Types (v row : ndarray) (jac : matrix) (i j k n m : nat).

Lemma Rabs_pos_iff (x : R) : 0 < Rabs x ↔ x ≠ 0.
Proof.
  split.
  - intros H ->. rewrite Rabs_R0 in H. lra.
  - apply Rabs_pos_lt.
Qed.

(** The positions found by [np.where(abs(v) > 0)]. *)
Lemma elem_of_where_from k v n :
  n ∈ where_from k v ↔ ∃ p x, n = (k + p)%nat ∧ v !! p = Some x ∧ x ≠ 0.
Proof.
  revert k. induction v as [|y v IH]; intros k; simpl.
  - split; [by intros ?%elem_of_nil | by intros (p & x & _ & ? & _)].
  - assert (Htl : n ∈ where_from (S k) v ↔
                  ∃ p x, n = (k + S p)%nat ∧ v !! p = Some x ∧ x ≠ 0).
    { rewrite IH. split; intros (p & x & -> & ?); exists p, x;
        (split; [lia | done]). }
    destruct (decide (0 < Rabs y)) as [Hy|Hy]; rewrite Rabs_pos_iff in Hy.
    + rewrite elem_of_cons, Htl. split.
      * intros [->|(p & x & -> & Hp & Hx)].
        -- exists 0%nat, y. split; [lia | done].
        -- exists (S p), x. done.
      * intros ([|p] & x & -> & Hp & Hx).
        -- left. lia.
        -- right. exists p, x. done.
    + rewrite Htl. split.
      * intros (p & x & -> & Hp & Hx). exists (S p), x. done.
      * intros ([|p] & x & -> & Hp & Hx).
        -- simpl in Hp. injection Hp as ->. contradiction.
        -- exists p, x. done.
Qed.

Lemma where_from_ge k v n : n ∈ where_from k v → (k ≤ n)%nat.
Proof. rewrite elem_of_where_from. intros (p & x & -> & _). lia. Qed.

(** The positions come in increasing order: the first is the least and
    the last is the greatest. *)
Lemma head_where_from k v n :
  head (where_from k v) = Some n →
  ∀ m, m ∈ where_from k v → (n ≤ m)%nat.
Proof.
  revert k. induction v as [|y v IH]; intros k; simpl; [done|].
  destruct (decide (0 < Rabs y)); [|by apply IH].
  simpl. intros [= <-] m [->|Hm%where_from_ge]%elem_of_cons; lia.
Qed.

Lemma last_where_from k v n :
  last (where_from k v) = Some n →
  ∀ m, m ∈ where_from k v → (m ≤ n)%nat.
Proof.
  revert k. induction v as [|y v IH]; intros k; simpl; [done|].
  destruct (decide (0 < Rabs y)); [|by apply IH].
  rewrite last_cons. destruct (last (where_from (S k) v)) as [z|] eqn:Hl.
  - intros [= <-] m [->|Hm]%elem_of_cons; [|by eapply IH].
    apply last_Some_elem_of, where_from_ge in Hl. lia.
  - apply last_None in Hl. rewrite Hl.
    intros [= <-] m [->|Hm%elem_of_nil]%elem_of_cons; [lia|done].
Qed.

Lemma elem_of_where_take i row j :
  j ∈ where_pos (take i row) ↔ (j < i)%nat ∧ row_nonzero row j.
Proof.
  unfold where_pos, row_nonzero. rewrite elem_of_where_from. split.
  - intros (p & x & -> & Hp & Hx). apply lookup_take_Some in Hp as [Hp ?].
    split; [done|]. exists x. done.
  - intros [Hj (x & Hp & Hx)]. exists j, x. split; [done|].
    split; [|done]. apply lookup_take_Some. done.
Qed.

Lemma elem_of_where_drop i row j :
  j ∈ map (Nat.add i) (where_pos (drop i row)) ↔ (i ≤ j)%nat ∧ row_nonzero row j.
Proof.
  unfold where_pos, row_nonzero.
  change (map (Nat.add i)) with (fmap (M := list) (Nat.add i)).
  rewrite list_elem_of_fmap. split.
  - intros (q & -> & Hq). apply elem_of_where_from in Hq
      as (p & x & -> & Hp & Hx).
    rewrite lookup_drop in Hp. simpl. split; [lia|]. exists x. done.
  - intros [Hj (x & Hp & Hx)]. exists (j - i)%nat. split; [lia|].
    apply elem_of_where_from. exists (j - i)%nat, x. split; [done|].
    rewrite lookup_drop. replace (i + (j - i))%nat with j by lia. done.
Qed.

(** One row of the loop: the band grows to the furthest nonzero entry of
    the row on each side of the diagonal. *)
Lemma band_step_spec i row l u l' u' :
  band_step i row (l, u) = (l', u') →
  ((l ≤ l')%nat ∧
   (∀ j, (j < i)%nat → row_nonzero row j → (i - j ≤ l')%nat) ∧
   (l' = l ∨ ∃ j, (j < i)%nat ∧ row_nonzero row j ∧ (i - j)%nat = l')) ∧
  ((u ≤ u')%nat ∧
   (∀ j, (i ≤ j)%nat → row_nonzero row j → (j - i ≤ u')%nat) ∧
   (u' = u ∨ ∃ j, (i ≤ j)%nat ∧ row_nonzero row j ∧ (j - i)%nat = u')).
Proof.
  unfold band_step. intros [= <- <-]. split.
  - destruct (head (where_pos (take i row))) as [l0|] eqn:Hh.
    + pose proof (head_where_from _ _ _ Hh) as Hmin.
      apply head_Some_elem_of, elem_of_where_take in Hh as [Hl0 Hnz].
      assert (Hall : ∀ j, (j < i)%nat → row_nonzero row j → (l0 ≤ j)%nat).
      { intros j Hj Hn. apply Hmin, elem_of_where_take. done. }
      case_decide.
      * split; [lia|]. split.
        -- intros j Hj Hn. specialize (Hall j Hj Hn). lia.
        -- right. exists l0. done.
      * split; [lia|]. split; [|by left].
        intros j Hj Hn. specialize (Hall j Hj Hn). lia.
    + apply head_None in Hh. split; [lia|]. split; [|by left].
      intros j Hj Hn.
      assert (Hin : j ∈ where_pos (take i row))
        by (by apply elem_of_where_take).
      rewrite Hh in Hin. by apply elem_of_nil in Hin.
  - destruct (last (map (Nat.add i) (where_pos (drop i row))))
      as [ul|] eqn:Hl.
    + assert (Hmax : ∀ j, (i ≤ j)%nat → row_nonzero row j → (j ≤ ul)%nat).
      { intros j Hj Hn.
        assert (Hin : j ∈ map (Nat.add i) (where_pos (drop i row)))
          by (by apply elem_of_where_drop).
        change (map (Nat.add i)) with (fmap (M := list) (Nat.add i)) in *.
        rewrite fmap_last in Hl.
        destruct (last (where_pos (drop i row))) as [q|] eqn:Hq;
          [|discriminate]. injection Hl as <-.
        apply list_elem_of_fmap in Hin as (p & -> & Hp).
        pose proof (last_where_from _ _ _ Hq p Hp). lia. }
      apply last_Some_elem_of, elem_of_where_drop in Hl as [Hul Hnz].
      case_decide.
      * split; [lia|]. split.
        -- intros j Hj Hn. specialize (Hmax j Hj Hn). lia.
        -- right. exists ul. done.
      * split; [lia|]. split; [|by left].
        intros j Hj Hn. specialize (Hmax j Hj Hn). lia.
    + apply last_None in Hl. split; [lia|]. split; [|by left].
      intros j Hj Hn.
      assert (Hin : j ∈ map (Nat.add i) (where_pos (drop i row)))
        by (by apply elem_of_where_drop).
      rewrite Hl in Hin. by apply elem_of_nil in Hin.
Qed.

(** The loop over the rows, started at row [i] with bands [(l, u)]. *)
Lemma bands_from_spec rows i l u l' u' :
  bands_from i rows (l, u) = (l', u') →
  ((l ≤ l')%nat ∧
   (∀ k row j, rows !! k = Some row → (j < i + k)%nat → row_nonzero row j →
               (i + k - j ≤ l')%nat) ∧
   (l' = l ∨ ∃ k row j, rows !! k = Some row ∧ (j < i + k)%nat ∧
                        row_nonzero row j ∧ (i + k - j)%nat = l')) ∧
  ((u ≤ u')%nat ∧
   (∀ k row j, rows !! k = Some row → (i + k ≤ j)%nat → row_nonzero row j →
               (j - (i + k) ≤ u')%nat) ∧
   (u' = u ∨ ∃ k row j, rows !! k = Some row ∧ (i + k ≤ j)%nat ∧
                        row_nonzero row j ∧ (j - (i + k))%nat = u')).
Proof.
  revert i l u. induction rows as [|row rows IH]; intros i l u H.
  { injection H as <- <-.
    split; (split; [lia|]; split; [by intros ? ? ? ?| by left]). }
  cbn [bands_from] in H.
  destruct (band_step i row (l, u)) as [l1 u1] eqn:Hb.
  apply band_step_spec in Hb
    as [(Hl1 & Hl2 & Hl3) (Hu1 & Hu2 & Hu3)].
  apply IH in H as [(Il1 & Il2 & Il3) (Iu1 & Iu2 & Iu3)].
  split.
  - split; [lia|]. split.
    + intros [|k] row' j Hk Hj Hn; simpl in Hk.
      * injection Hk as <-. rewrite Nat.add_0_r in *.
        specialize (Hl2 j Hj Hn). lia.
      * replace (i + S k)%nat with (S i + k)%nat in * by lia.
        by eapply Il2.
    + destruct Il3 as [->|(k & row' & j & Hk & Hj & Hn & <-)].
      * destruct Hl3 as [->|(j & Hj & Hn & <-)]; [by left|].
        right. exists 0%nat, row, j. rewrite Nat.add_0_r. done.
      * right. exists (S k), row', j.
        replace (i + S k)%nat with (S i + k)%nat by lia. done.
  - split; [lia|]. split.
    + intros [|k] row' j Hk Hj Hn; simpl in Hk.
      * injection Hk as <-. rewrite Nat.add_0_r in *.
        specialize (Hu2 j Hj Hn). lia.
      * replace (i + S k)%nat with (S i + k)%nat in * by lia.
        by eapply Iu2.
    + destruct Iu3 as [->|(k & row' & j & Hk & Hj & Hn & <-)].
      * destruct Hu3 as [->|(j & Hj & Hn & <-)]; [by left|].
        right. exists 0%nat, row, j. rewrite Nat.add_0_r. done.
      * right. exists (S k), row', j.
        replace (i + S k)%nat with (S i + k)%nat by lia. done.
Qed.

Lemma nonzero_at_row jac i j :
  nonzero_at jac i j ↔ ∃ row, jac !! i = Some row ∧ row_nonzero row j.
Proof.
  unfold nonzero_at, entry, row_nonzero. split.
  - intros (x & He & Hx). destruct (jac !! i) as [row|]; [|discriminate].
    exists row. split; [done|]. exists x. done.
  - intros (row & -> & x & Hr & Hx). exists x. done.
Qed.

Lemma entry_j_pat jac i j :
  entry (j_pat jac) i j
  = (λ x : R, if decide (x = 0) then 0 else 1) <$> entry jac i j.
Proof.
  unfold entry, j_pat.
  change (map (map ?f) jac) with (fmap (M := list) (fmap (M := list) f) jac).
  rewrite list_lookup_fmap. destruct (jac !! i) as [row|]; [simpl|done].
  apply list_lookup_fmap.
Qed.

(** The bands and the pattern of an arbitrary matrix. *)
Lemma find_bands_spec jac :
  furthest (λ i j, (j < i)%nat ∧ nonzero_at jac i j) (λ i j, (i - j)%nat)
    (find_bands jac).1 ∧
  furthest (λ i j, (i ≤ j)%nat ∧ nonzero_at jac i j) (λ i j, (j - i)%nat)
    (find_bands jac).2 ∧
  (∀ i j, entry (j_pat jac) i j = Some 1 ↔ nonzero_at jac i j) ∧
  (∀ i j, entry (j_pat jac) i j = Some 0 ↔ entry jac i j = Some 0) ∧
  (∀ i j, is_Some (entry (j_pat jac) i j) ↔ is_Some (entry jac i j)).
Proof.
  destruct (find_bands jac) as [l u] eqn:Hf. unfold find_bands in Hf.
  apply bands_from_spec in Hf as [(_ & Hl2 & Hl3) (_ & Hu2 & Hu3)].
  cbn [fst snd].
  split; [|split; [|split; [|split]]].
  - split.
    + intros i j [Hj (row & Hr & Hn)%nonzero_at_row].
      by apply (Hl2 i row j).
    + destruct Hl3 as [Hl|(k & row & j & Hk & Hj & Hn & He)]; [by left|].
      right. exists k, j. split; [|done]. split; [done|].
      apply nonzero_at_row. by exists row.
  - split.
    + intros i j [Hj (row & Hr & Hn)%nonzero_at_row].
      by apply (Hu2 i row j).
    + destruct Hu3 as [Hu|(k & row & j & Hk & Hj & Hn & He)]; [by left|].
      right. exists k, j. split; [|done]. split; [done|].
      apply nonzero_at_row. by exists row.
  - intros i j. rewrite entry_j_pat. unfold nonzero_at.
    destruct (entry jac i j) as [x|]; simpl.
    + case_decide; split.
      * intros [= H01]. lra.
      * intros (y & [= <-] & Hy). contradiction.
      * intros _. by exists x.
      * done.
    + split; [done | by intros (? & ? & _)].
  - intros i j. rewrite entry_j_pat.
    destruct (entry jac i j) as [x|]; simpl; [|done].
    case_decide; split; try done.
    * by subst.
    * intros [= H10]. lra.
    * intros [= ->]. contradiction.
  - intros i j. rewrite entry_j_pat. apply fmap_is_Some.
Qed.

End Bands.

Section BandwidthClaims.

Variable c : Constants.
Variable grad_r : ndarray → ndarray → option ndarray.
Variable div_r : ndarray → ndarray → ndarray → option ndarray.

(** [bandwidth] returns as soon as its matrix of finite differences is
    built. *)
Lemma bandwidth_of_jacobian sim jac :
  jacobian c grad_r div_r sim = Some jac →
  bandwidth c grad_r div_r sim
  = Some ((find_bands jac).1, (find_bands jac).2, j_pat jac).
Proof.
  intros HJ. unfold bandwidth, bandwidth_on.
  fold (jacobian c grad_r div_r sim). rewrite HJ. simpl.
  by destruct (find_bands jac).
Qed.

(** C9.  When [bandwidth] returns [(lband, uband, j_pat)], with [jac] the
    matrix of finite differences it has built: [lband] is the largest
    distance [i - j] over the nonzero entries [(i, j)] of [jac] with
    [j < i], and 0 when there is none; [uband] is the largest distance
    [j - i] over the nonzero entries with [i <= j]; [j_pat] has the shape of
    [jac], with 1 exactly at the nonzero entries and 0 at the others. *)
Theorem bandwidth_bands sim lband uband pat :
  bandwidth c grad_r div_r sim = Some (lband, uband, pat) →
  ∃ jac, jacobian c grad_r div_r sim = Some jac ∧
    furthest (λ i j, (j < i)%nat ∧ nonzero_at jac i j) (λ i j, (i - j)%nat)
      lband ∧
    furthest (λ i j, (i ≤ j)%nat ∧ nonzero_at jac i j) (λ i j, (j - i)%nat)
      uband ∧
    (∀ i j, entry pat i j = Some 1 ↔ nonzero_at jac i j) ∧
    (∀ i j, entry pat i j = Some 0 ↔ entry jac i j = Some 0) ∧
    (∀ i j, is_Some (entry pat i j) ↔ is_Some (entry jac i j)).
Proof.
  intros H. destruct (jacobian c grad_r div_r sim) as [jac|] eqn:HJ.
  - rewrite (bandwidth_of_jacobian _ _ HJ) in H. injection H as <- <- <-.
    exists jac. split; [done|]. apply find_bands_spec.
  - unfold bandwidth, bandwidth_on in H.
    fold (jacobian c grad_r div_r sim) in H. rewrite HJ in H. discriminate.
Qed.

End BandwidthClaims.

Ltac run_probe :=
  cbv -[IZR Rdiv Rmult Rplus Rminus Ropp Rinv exp Rabs Rlt Rle Rmax Rlt_dec
        Req_dec_T step find_bands j_pat].

Lemma bandwidth_bands_witness :
  ∃ lband uband pat jac,
    bandwidth Example.c Example.grad_r Example.div_r Example.sim
      = Some (lband, uband, pat) ∧
    jacobian Example.c Example.grad_r Example.div_r Example.sim = Some jac ∧
    length jac = 7%nat ∧
    furthest (λ i j, (j < i)%nat ∧ nonzero_at jac i j) (λ i j, (i - j)%nat)
      lband ∧
    furthest (λ i j, (i ≤ j)%nat ∧ nonzero_at jac i j) (λ i j, (j - i)%nat)
      uband ∧
    (∀ i j, entry pat i j = Some 1 ↔ nonzero_at jac i j).
Proof.
  assert (HJ : ∃ jac,
    jacobian Example.c Example.grad_r Example.div_r Example.sim = Some jac
    ∧ length jac = 7%nat).
  { eexists. split; [run_probe; reflexivity | reflexivity]. }
  destruct HJ as (jac & HJ & Hlen).
  pose proof (bandwidth_of_jacobian _ _ _ _ _ HJ) as Hb.
  destruct (bandwidth_bands _ _ _ _ _ _ _ Hb)
    as (jac' & HJ' & Hl & Hu & Hp & _).
  rewrite HJ in HJ'. injection HJ' as <-.
  exists (find_bands jac).1, (find_bands jac).2, (j_pat jac), jac. auto 10.
Defined.


Lemma for_each_ext {S : Type} (I : S → Prop) (js : list nat)
    (f g : nat → S → option S) (s : S) :
  I s →
  (∀ j s, I s → f j s = g j s) →
  (∀ j s s', I s → g j s = Some s' → I s') →
  for_each js f s = for_each js g s.
Proof.
  intros Hs Hfg Hinv. revert s Hs.
  induction js as [|j js IH]; intros s Hs; simpl; [done|].
  rewrite (Hfg j s Hs). destruct (g j s) as [s'|] eqn:Hg; simpl; [|done].
  apply IH. by eapply Hinv.
Qed.

Lemma for_each_invariant {S : Type} (I : S → Prop) (js : list nat)
    (g : nat → S → option S) (s s' : S) :
  I s →
  (∀ j s s', I s → g j s = Some s' → I s') →
  for_each js g s = Some s' → I s'.
Proof.
  intros Hs Hinv. revert s Hs.
  induction js as [|j js IH]; intros s Hs; simpl.
  - by intros [= <-].
  - destruct (g j s) as [s1|] eqn:Hg; simpl; [|done].
    apply IH. by eapply Hinv.
Qed.

Section ProbeClaims.

Variable c : Constants.
Variable grad_r : ndarray → ndarray → option ndarray.
Variable div_r : ndarray → ndarray → ndarray → option ndarray.

(** A call keeps the three keys of the experiment it reads. *)
Lemma call_residuals_probe_exp t sv svdot res sim e res' e' :
  call_residuals c grad_r div_r t sv svdot res sim e = Some (res', e') →
  probe_exp e → probe_exp e'.
Proof.
  unfold call_residuals.
  destruct (residuals _ _ _ _ _ _ _ _ _ _) as [[[e1 r1] h1]|] eqn:Hr;
    [|discriminate].
  destruct (h1 !! 2%nat); [simpl|discriminate]. intros [= _ <-].
  apply residuals_inv in Hr as (? & ? & ? & ? & _ & _ & -> & _).
  done.
Qed.

Lemma boundary_conditions_probe t a_res sim e phi_ca sdot_an sdot_ca :
  probe_exp e →
  boundary_conditions c t a_res sim e phi_ca sdot_an sdot_ca
  = bind (store_item a_res (ptr_phi_ed (ca sim))
            (sdot_ca * A_s (ca sim) * thick (ca sim) * c_F c
             - 0 * cap (bat sim) / area (bat sim)))
      (λ _, store_item a_res (el_ptr_phi_el (el sim))
              (sdot_an * A_s (an sim) * thick (an sim) * c_F c
               + 0 * cap (bat sim) / area (bat sim))).
Proof.
  intros (Hm & Hu & Hv). unfold boundary_conditions.
  rewrite Hm, Hu, Hv. reflexivity.
Qed.

(** The analysis looks at the residual function only at time zero, under
    the fake experiment and at the probe points. *)
Lemma jacobian_on_probe_ext (sim : Simulation)
    (call : R → ndarray → ndarray → ndarray → Simulation → Experiment →
            option (ndarray * Experiment)) :
  (∀ sv svdot res e, probe_exp e → probe_point sim sv svdot →
     call 0 sv svdot res sim e
     = call_residuals c grad_r div_r 0 sv svdot res sim e) →
  jacobian_on call sim = jacobian c grad_r div_r sim.
Proof.
  intros Hcall.
  unfold jacobian, jacobian_on.
  assert (Hexpr : probe_exp expr) by done.
  rewrite Hcall by (done || by left).
  destruct (call_residuals _ _ _ 0 (_sv0 sim) _ _ _ _) as [[res_0 e0]|] eqn:H0;
    simpl; [|done].
  apply call_residuals_probe_exp in H0; [|done].
  set (I := λ s : matrix * ndarray * Experiment, probe_exp s.2).
  assert (Hinv1 : ∀ j s s', I s →
    probe_sv (call_residuals c grad_r div_r) sim (_sv0 sim) (_svdot0 sim)
      res_0 j s = Some s' → I s').
  { intros j [[jac res] e] s' He. unfold I, probe_sv in *. simpl in He.
    destruct (perturbed _ j); simpl; [|done].
    destruct (call_residuals _ _ _ _ _ _ _ _ _) as [[res' e']|] eqn:Hc;
      simpl; [|done].
    destruct (ew2 _ _ _); simpl; [|done].
    destruct (set_col _ _ _); simpl; [|done].
    intros [= <-]. simpl. by eapply call_residuals_probe_exp. }
  assert (Hinv2 : ∀ j s s', I s →
    probe_svdot (call_residuals c grad_r div_r) sim (_sv0 sim) (_svdot0 sim)
      res_0 j s = Some s' → I s').
  { intros j [[jac res] e] s' He. unfold I, probe_svdot in *. simpl in He.
    destruct (perturbed _ j); simpl; [|done].
    destruct (call_residuals _ _ _ _ _ _ _ _ _) as [[res' e']|] eqn:Hc;
      simpl; [|done].
    destruct (ew2 _ _ _); simpl; [|done].
    destruct (get_col _ _); simpl; [|done].
    destruct (ew2 _ _ _); simpl; [|done].
    destruct (set_col _ _ _); simpl; [|done].
    intros [= <-]. simpl. by eapply call_residuals_probe_exp. }
  rewrite (for_each_ext I _
             (probe_sv call sim (_sv0 sim) (_svdot0 sim) res_0)
             (probe_sv (call_residuals c grad_r div_r) sim (_sv0 sim)
                (_svdot0 sim) res_0));
    [|done| |done].
  2: { intros j [[jac res] e] He. unfold I, probe_sv in *. simpl in He.
       destruct (perturbed _ j) as [dsv|] eqn:Hp; simpl; [|done].
       rewrite Hcall; [done|done|]. right. left. eauto. }
  destruct (for_each _ (probe_sv (call_residuals c grad_r div_r) sim
                          (_sv0 sim) (_svdot0 sim) res_0) _)
    as [[[jac1 res1] e1]|] eqn:H1; simpl; [|done].
  apply (for_each_invariant I) in H1; [|done|done].
  rewrite (for_each_ext I _
             (probe_svdot call sim (_sv0 sim) (_svdot0 sim) res_0)
             (probe_svdot (call_residuals c grad_r div_r) sim (_sv0 sim)
                (_svdot0 sim) res_0));
    [done|done| |done].
  intros j [[jac res] e] He. unfold I, probe_svdot in *. simpl in He.
  destruct (perturbed _ j) as [dsvdot|] eqn:Hp; simpl; [|done].
  rewrite Hcall; [done|done|]. right. right. eauto.
Qed.


End ProbeClaims.

(** ** Further properties of [residuals] *)

Lemma agree_on_insert (W : nat → Prop) (x y : ndarray) (i : nat) (v : R) :
  agree_on W x y →
  agree_on (λ k, W k ∨ k = i) (<[i := v]> x) (<[i := v]> y).
Proof.
  intros [Hlen HW]. split; [by rewrite !length_insert|].
  intros k Hk. destruct (decide (k = i)) as [->|Hne].
  - destruct (decide (i < length x)%nat) as [Hi|Hi].
    + rewrite !list_lookup_insert_eq by lia. done.
    + rewrite !list_insert_ge by lia. rewrite !lookup_ge_None_2 by lia. done.
  - rewrite !list_lookup_insert_ne by done. destruct Hk as [Hk|Hk]; auto.
    contradiction.
Qed.

Lemma agree_on_weaken (W W' : nat → Prop) (x y : ndarray) :
  (∀ k, W' k → W k) → agree_on W x y → agree_on W' x y.
Proof. intros HWW [Hlen HW]. split; auto. Qed.

Lemma agree_on_foldl (l : list (nat * R)) (W : nat → Prop) (x y : ndarray) :
  agree_on W x y →
  agree_on (λ k, W k ∨ k ∈ l.*1)
    (foldl (λ acc p, <[p.1 := p.2]> acc) x l)
    (foldl (λ acc p, <[p.1 := p.2]> acc) y l).
Proof.
  revert W x y. induction l as [|p l IH]; intros W x y Hxy; simpl.
  - eapply agree_on_weaken; [|exact Hxy].
    intros k [Hk|Hk%elem_of_nil]; done.
  - pose proof (IH _ _ _ (agree_on_insert W x y p.1 p.2 Hxy)) as H.
    eapply agree_on_weaken; [|exact H].
    intros k [Hk|Hk]; [auto|]. rewrite ?fmap_cons in Hk.
    apply elem_of_cons in Hk as [->|Hk]; auto.
Qed.

Lemma agree_on_eq (W : nat → Prop) (x y : ndarray) :
  agree_on W x y → (∀ k, (k < length x)%nat → W k) → x = y.
Proof.
  intros [Hlen HW] Hall. apply list_eq. intros k.
  destruct (decide (k < length x)%nat) as [Hk|Hk]; [auto|].
  rewrite !lookup_ge_None_2 by lia. done.
Qed.

(** An index-array write succeeds or fails on the lengths alone, and its
    rows do not depend on what the buffer held. *)
Lemma fancy_set_agree (W : nat → Prop) (a b : ndarray) idx v a' :
  fancy_set a idx v = Some a' → agree_on W a b →
  ∃ b', fancy_set b idx v = Some b' ∧ agree_on (λ k, W k ∨ k ∈ idx) a' b'.
Proof.
  unfold fancy_set. intros Ha Hab. destruct Hab as [Hlen HW].
  rewrite <- Hlen. destruct (forallb _ idx); [|discriminate].
  destruct (broadcast_to _ v) as [vs|] eqn:Hb; simpl in *; [|discriminate].
  injection Ha as <-. eexists. split; [reflexivity|].
  eapply agree_on_weaken; [|apply agree_on_foldl; by split].
  intros k [Hk|Hk]; [auto|]. right.
  assert (Hvs : length vs = length idx).
  { unfold broadcast_to in Hb. case_decide; [by injection Hb as <-|].
    destruct v as [|x [|? ?]]; try discriminate. injection Hb as <-.
    apply length_replicate. }
  rewrite fst_zip by lia. done.
Qed.

Lemma fancy_set_bounds (a : ndarray) idx v a' :
  fancy_set a idx v = Some a' → ∀ k, k ∈ idx → (k < length a)%nat.
Proof.
  unfold fancy_set. destruct (forallb _ idx) eqn:Hf; [|discriminate].
  intros _ k Hk. rewrite forallb_forall in Hf.
  apply list_elem_of_In, Hf in Hk. by apply bool_decide_eq_true_1 in Hk.
Qed.

Lemma fancy_get_bounds (a : ndarray) idx xs :
  fancy_get a idx = Some xs →
  length xs = length idx ∧ ∀ k, k ∈ idx → (k < length a)%nat.
Proof.
  unfold fancy_get. intros H%mapM_Some. split.
  - symmetry. by eapply Forall2_length.
  - intros k Hk. apply list_elem_of_lookup in Hk as [i Hi].
    destruct (Forall2_lookup_l _ _ _ _ _ H Hi) as (x & _ & Hx).
    by eapply lookup_lt_Some.
Qed.

Section MoreResiduals.

Variable c : Constants.
Variable grad_r : ndarray → ndarray → option ndarray.
Variable div_r : ndarray → ndarray → ndarray → option ndarray.

Ltac inv_bind H x h :=
  apply bind_Some in H as (x & h & ? & H).

(** A run of the domain equations, step by step. *)
Lemma domain_equations_steps a_sv a_svdot a_res sim h phi_ca sdot_an sdot_ca h1 :
  domain_equations c grad_r div_r a_sv a_svdot a_res sim h
    = Some ((phi_ca, sdot_an, sdot_ca), h1) ↔
  ∃ sv phi_an phi_el xs_an xs_ca Js_an Js_ca svdot1 svdot2 rhs_an rhs_ca
    res0 r1 r3,
    h !! a_sv = Some sv ∧
    sv !! ptr_phi_ed (an sim) = Some phi_an ∧
    sv !! el_ptr_phi_el (el sim) = Some phi_el ∧
    sv !! ptr_phi_ed (ca sim) = Some phi_ca ∧
    fancy_get sv (r_ptr_Li_ed (an sim)) = Some xs_an ∧
    fancy_get sv (r_ptr_Li_ed (ca sim)) = Some xs_ca ∧
    sdot_ed c (an sim) (el sim) (temp (bat sim)) phi_an phi_el xs_an
      = Some sdot_an ∧
    Js_ed grad_r (an sim) (temp (bat sim)) xs_an sdot_an = Some Js_an ∧
    h !! a_svdot = Some svdot1 ∧
    com_ed div_r (an sim) svdot1 Js_an = Some rhs_an ∧
    h !! a_res = Some res0 ∧
    fancy_set res0 (r_ptr_Li_ed (an sim)) rhs_an = Some r1 ∧
    (ptr_phi_ed (an sim) < length r1)%nat ∧
    sdot_ed c (ca sim) (el sim) (temp (bat sim)) phi_ca phi_el xs_ca
      = Some sdot_ca ∧
    Js_ed grad_r (ca sim) (temp (bat sim)) xs_ca sdot_ca = Some Js_ca ∧
    <[a_res := <[ptr_phi_ed (an sim) := phi_an - 0]> r1]> h !! a_svdot
      = Some svdot2 ∧
    com_ed div_r (ca sim) svdot2 Js_ca = Some rhs_ca ∧
    fancy_set (<[ptr_phi_ed (an sim) := phi_an - 0]> r1)
      (r_ptr_Li_ed (ca sim)) rhs_ca = Some r3 ∧
    h1 = <[a_res := r3]> h.
Proof.
  unfold domain_equations. split.
  - intros H.
    inv_bind H sv h0. apply load_Some in H0 as [Hsv ->].
    inv_bind H phi_an h0. apply lift_Some in H0 as [Hpa ->].
    inv_bind H phi_el h0. apply lift_Some in H0 as [Hpe ->].
    inv_bind H phi_ca' h0. apply lift_Some in H0 as [Hpc ->].
    inv_bind H xs_an h0. apply lift_Some in H0 as [Hxa ->].
    inv_bind H xs_ca h0. apply lift_Some in H0 as [Hxc ->].
    inv_bind H sdot_an' h0. apply lift_Some in H0 as [Hsa ->].
    inv_bind H Js_an h0. apply lift_Some in H0 as [Hja ->].
    inv_bind H svdot1 h0. apply load_Some in H0 as [Hsd1 ->].
    inv_bind H rhs_an h0. apply lift_Some in H0 as [Hra ->].
    inv_bind H u1 h2.
    apply store_fancy_Some in H0 as (res0 & r1 & Hr0 & Hset1 & ->).
    assert (Hlt : (a_res < length h)%nat) by (eapply lookup_lt_Some; eauto).
    inv_bind H u2 h3. apply store_item_Some in H0 as (b2 & Hb2 & Hi2 & ->).
    rewrite list_lookup_insert_eq in Hb2 by done. injection Hb2 as <-.
    rewrite list_insert_insert_eq in *.
    inv_bind H sdot_ca' h0. apply lift_Some in H0 as [Hsc ->].
    inv_bind H Js_ca h0. apply lift_Some in H0 as [Hjc ->].
    inv_bind H svdot2 h0. apply load_Some in H0 as [Hsd2 ->].
    inv_bind H rhs_ca h0. apply lift_Some in H0 as [Hrc ->].
    inv_bind H u3 h4.
    apply store_fancy_Some in H0 as (b3 & r3 & Hb3 & Hset3 & ->).
    rewrite list_lookup_insert_eq in Hb3 by done. injection Hb3 as <-.
    rewrite list_insert_insert_eq in *.
    unfold ret in H. injection H as -> -> -> <-.
    exists sv, phi_an, phi_el, xs_an, xs_ca, Js_an, Js_ca, svdot1, svdot2,
           rhs_an, rhs_ca, res0, r1, r3.
    repeat (split; [assumption || reflexivity|]). reflexivity.
  - intros (sv & phi_an & phi_el & xs_an & xs_ca & Js_an & Js_ca & svdot1
            & svdot2 & rhs_an & rhs_ca & res0 & r1 & r3 & Hsv & Hpa & Hpe
            & Hpc & Hxa & Hxc & Hsa & Hja & Hsd1 & Hra & Hr0 & Hset1 & Hi
            & Hsc & Hjc & Hsd2 & Hrc & Hset3 & ->).
    assert (Hlt : (a_res < length h)%nat) by (eapply lookup_lt_Some; eauto).
    apply bind_Some. exists sv, h. split; [by apply load_Some|].
    apply bind_Some. exists phi_an, h. split; [by apply lift_Some|].
    apply bind_Some. exists phi_el, h. split; [by apply lift_Some|].
    apply bind_Some. exists phi_ca, h. split; [by apply lift_Some|].
    apply bind_Some. exists xs_an, h. split; [by apply lift_Some|].
    apply bind_Some. exists xs_ca, h. split; [by apply lift_Some|].
    apply bind_Some. exists sdot_an, h. split; [by apply lift_Some|].
    apply bind_Some. exists Js_an, h. split; [by apply lift_Some|].
    apply bind_Some. exists svdot1, h. split; [by apply load_Some|].
    apply bind_Some. exists rhs_an, h. split; [by apply lift_Some|].
    apply bind_Some. exists tt, (<[a_res := r1]> h).
    split; [apply store_fancy_Some; eauto|].
    apply bind_Some.
    exists tt, (<[a_res := <[ptr_phi_ed (an sim) := phi_an - 0]> r1]> h).
    split.
    { apply store_item_Some. exists r1.
      rewrite list_lookup_insert_eq by done.
      by rewrite list_insert_insert_eq. }
    apply bind_Some. eexists sdot_ca, _. split; [by apply lift_Some|].
    apply bind_Some. eexists Js_ca, _. split; [by apply lift_Some|].
    apply bind_Some. eexists svdot2, _. split; [by apply load_Some|].
    apply bind_Some. eexists rhs_ca, _. split; [by apply lift_Some|].
    apply bind_Some. eexists tt, _. split.
    { apply store_fancy_Some. eexists _, r3.
      rewrite list_lookup_insert_eq by done. eauto. }
    by rewrite list_insert_insert_eq.
Qed.

End MoreResiduals.

Section MoreBoundary.

Variable c : Constants.
Variable grad_r : ndarray → ndarray → option ndarray.
Variable div_r : ndarray → ndarray → ndarray → option ndarray.

Lemma boundary_conditions_current t a_res sim exp phi_ca sdot_an sdot_ca :
  mode exp = "current"%string →
  (units exp = "A" ∨ units exp = "C")%string →
  let i_app := if String.eqb (units exp) "A"
               then value exp t / area (bat sim)
               else value exp t * cap (bat sim) / area (bat sim) in
  boundary_conditions c t a_res sim exp phi_ca sdot_an sdot_ca
  = bind (store_item a_res (ptr_phi_ed (ca sim))
            (reaction_charge c (ca sim) sdot_ca - i_app))
      (λ _, store_item a_res (el_ptr_phi_el (el sim))
              (reaction_charge c (an sim) sdot_an + i_app)).
Proof.
  intros Hm [Hu|Hu]; unfold boundary_conditions; rewrite Hm, Hu; reflexivity.
Qed.

Lemma boundary_conditions_power t a_res sim exp phi_ca sdot_an sdot_ca :
  mode exp = "power"%string →
  boundary_conditions c t a_res sim exp phi_ca sdot_an sdot_ca
  = bind (store_item a_res (ptr_phi_ed (ca sim))
            (i_ext c sim sdot_an * area (bat sim) * phi_ca - value exp t))
      (λ _, store_item a_res (el_ptr_phi_el (el sim))
              (sdot_an * A_s (an sim) * thick (an sim)
               + sdot_ca * A_s (ca sim) * thick (ca sim))).
Proof. intros Hm. unfold boundary_conditions. rewrite Hm. reflexivity. Qed.

Lemma domain_equations_buffer a_sv a_svdot a_res sim h out h1 :
  domain_equations c grad_r div_r a_sv a_svdot a_res sim h = Some (out, h1) →
  ∃ res1, h1 !! a_res = Some res1.
Proof.
  destruct out as [[phi_ca sa] sc]. intros Hd.
  apply domain_equations_inv in Hd
    as (? & ? & ? & ? & ? & ? & ? & res0 & res1 & _ & _ & _ & _ & _ & _ & _
        & _ & _ & _ & Hr0 & -> & _).
  exists res1. apply list_lookup_insert_eq. by eapply lookup_lt_Some.
Qed.

(** In current mode the cathode row is the cathode reaction charge minus
    the applied current density and the electrolyte row is the anode
    reaction charge plus it, the density being [value(t)/area] for the
    units ['A'] and [value(t)*cap/area] for ['C']; the applied current
    cancels in the sum of the two rows, which is the net reaction charge. *)
Theorem current_mode_rows t a_sv a_svdot a_res sim exp h e' r h' :
  mode exp = "current"%string →
  (units exp = "A" ∨ units exp = "C")%string →
  residuals c grad_r div_r t a_sv a_svdot a_res sim exp h
    = Some ((e', r), h') →
  ∃ phi_ca sdot_an sdot_ca h1 res1,
    domain_equations c grad_r div_r a_sv a_svdot a_res sim h
      = Some ((phi_ca, sdot_an, sdot_ca), h1) ∧
    h1 !! a_res = Some res1 ∧
    let i_app := if String.eqb (units exp) "A"
                 then value exp t / area (bat sim)
                 else value exp t * cap (bat sim) / area (bat sim) in
    let row_A := reaction_charge c (ca sim) sdot_ca - i_app in
    let row_B := reaction_charge c (an sim) sdot_an + i_app in
    h' = <[a_res := <[el_ptr_phi_el (el sim) := row_B]>
                      (<[ptr_phi_ed (ca sim) := row_A]> res1)]> h1 ∧
    row_A + row_B = reaction_charge c (an sim) sdot_an
                    + reaction_charge c (ca sim) sdot_ca.
Proof.
  intros Hm Hu H.
  apply residuals_inv in H as (phi_ca & sa & sc & h1 & Hd & Hb & _).
  destruct (domain_equations_buffer _ _ _ _ _ _ _ Hd) as [res1 Hr1].
  rewrite boundary_conditions_current in Hb by done.
  apply (two_rows_Some _ _ _ _ _ _ _ _ _ Hr1) in Hb.
  exists phi_ca, sa, sc, h1, res1. simpl.
  split; [done|]. split; [done|]. split; [done|]. ring.
Qed.

(** In power mode the cathode row is the cell power, external current
    times area times cathode potential, minus the applied power, and the
    electrolyte row is the one of voltage mode. *)
Theorem power_mode_rows t a_sv a_svdot a_res sim exp h e' r h' :
  mode exp = "power"%string →
  residuals c grad_r div_r t a_sv a_svdot a_res sim exp h
    = Some ((e', r), h') →
  ∃ phi_ca sdot_an sdot_ca h1 res1 ev,
    domain_equations c grad_r div_r a_sv a_svdot a_res sim h
      = Some ((phi_ca, sdot_an, sdot_ca), h1) ∧
    h1 !! a_res = Some res1 ∧
    events e' = Some ev ∧
    let row_A := power_W ev - value exp t in
    let row_B := sdot_an * A_s (an sim) * thick (an sim)
                 + sdot_ca * A_s (ca sim) * thick (ca sim) in
    power_W ev = (- sdot_an) * A_s (an sim) * thick (an sim) * c_F c
                 * area (bat sim) * phi_ca ∧
    h' = <[a_res := <[el_ptr_phi_el (el sim) := row_B]>
                      (<[ptr_phi_ed (ca sim) := row_A]> res1)]> h1.
Proof.
  intros Hm H.
  apply residuals_inv in H as (phi_ca & sa & sc & h1 & Hd & Hb & -> & _).
  destruct (domain_equations_buffer _ _ _ _ _ _ _ Hd) as [res1 Hr1].
  rewrite boundary_conditions_power in Hb by done.
  apply (two_rows_Some _ _ _ _ _ _ _ _ _ Hr1) in Hb.
  exists phi_ca, sa, sc, h1, res1. eexists. simpl.
  split; [done|]. split; [done|]. split; [reflexivity|]. simpl.
  split; [reflexivity|]. exact Hb.
Qed.

(** A voltage experiment and a power experiment, run on the same store,
    leave the same store except for the cathode row of [res]. *)
Theorem voltage_power_differ_at_cathode_row t a_sv a_svdot a_res sim
    e_v e_p h ev' rv hv ep' rp hp :
  mode e_v = "voltage"%string → mode e_p = "power"%string →
  residuals c grad_r div_r t a_sv a_svdot a_res sim e_v h
    = Some ((ev', rv), hv) →
  residuals c grad_r div_r t a_sv a_svdot a_res sim e_p h
    = Some ((ep', rp), hp) →
  (∀ a, a ≠ a_res → hv !! a = hp !! a) ∧
  ∃ res_v res_p, hv !! a_res = Some res_v ∧ hp !! a_res = Some res_p ∧
    length res_v = length res_p ∧
    ∀ k, k ≠ ptr_phi_ed (ca sim) → res_v !! k = res_p !! k.
Proof.
  intros Hmv Hmp Hv Hp.
  apply residuals_inv in Hv as (phi_ca & sa & sc & h1 & Hd & Hbv & _).
  apply residuals_inv in Hp as (phi_ca' & sa' & sc' & h1' & Hd' & Hbp & _).
  rewrite Hd in Hd'. injection Hd' as <- <- <- <-.
  destruct (domain_equations_buffer _ _ _ _ _ _ _ Hd) as [res1 Hr1].
  rewrite boundary_conditions_voltage in Hbv by done.
  rewrite boundary_conditions_power in Hbp by done.
  apply (two_rows_Some _ _ _ _ _ _ _ _ _ Hr1) in Hbv, Hbp. subst hv hp.
  assert (Hlt : (a_res < length h1)%nat) by (by eapply lookup_lt_Some).
  split.
  - intros a Ha. by rewrite !list_lookup_insert_ne by done.
  - eexists _, _. rewrite !list_lookup_insert_eq by done.
    split; [done|]. split; [done|]. split; [by rewrite !length_insert|].
    intros k Hk.
    set (B := sa * A_s (an sim) * thick (an sim)
              + sc * A_s (ca sim) * thick (ca sim)).
    assert (Hagree : agree_on (λ k, k ≠ ptr_phi_ed (ca sim))
              (<[ptr_phi_ed (ca sim) := phi_ca - value e_v t]> res1)
              (<[ptr_phi_ed (ca sim) :=
                   i_ext c sim sa * area (bat sim) * phi_ca - value e_p t]>
                 res1)).
    { split; [by rewrite !length_insert|]. intros j Hj.
      by rewrite !list_lookup_insert_ne by done. }
    apply (agree_on_insert _ _ _ (el_ptr_phi_el (el sim)) B) in Hagree
      as [_ Hag].
    apply Hag. by left.
Qed.

(** The events snapshot and the returned value depend on the time, the
    simulation and the state vector only: not on the experiment, nor on
    [svdot], nor on what [res] holds, nor on where the buffers are. *)
Theorem events_depend_on_state_only t sim sv
    a_sv1 a_svdot1 a_res1 e1 h1 e1' r1 h1'
    a_sv2 a_svdot2 a_res2 e2 h2 e2' r2 h2' :
  h1 !! a_sv1 = Some sv → h2 !! a_sv2 = Some sv →
  residuals c grad_r div_r t a_sv1 a_svdot1 a_res1 sim e1 h1
    = Some ((e1', r1), h1') →
  residuals c grad_r div_r t a_sv2 a_svdot2 a_res2 sim e2 h2
    = Some ((e2', r2), h2') →
  events e1' = events e2' ∧ r1 = r2.
Proof.
  intros Hsv1 Hsv2 H1 H2.
  apply residuals_inv in H1 as (pc1 & sa1 & sc1 & g1 & Hd1 & _ & -> & ->).
  apply residuals_inv in H2 as (pc2 & sa2 & sc2 & g2 & Hd2 & _ & -> & ->).
  apply domain_equations_inv in Hd1
    as (sv1 & pa1 & pe1 & xa1 & xc1 & ? & ? & ? & ? & Hs1 & Hpa1 & Hpe1
        & Hpc1 & Hxa1 & Hxc1 & Hsa1 & Hsc1 & _).
  apply domain_equations_inv in Hd2
    as (sv2 & pa2 & pe2 & xa2 & xc2 & ? & ? & ? & ? & Hs2 & Hpa2 & Hpe2
        & Hpc2 & Hxa2 & Hxc2 & Hsa2 & Hsc2 & _).
  rewrite Hsv1 in Hs1. injection Hs1 as <-.
  rewrite Hsv2 in Hs2. injection Hs2 as <-.
  rewrite Hpa1 in Hpa2. injection Hpa2 as <-.
  rewrite Hpe1 in Hpe2. injection Hpe2 as <-.
  rewrite Hpc1 in Hpc2. injection Hpc2 as <-.
  rewrite Hxa1 in Hxa2. injection Hxa2 as <-.
  rewrite Hxc1 in Hxc2. injection Hxc2 as <-.
  rewrite Hsa1 in Hsa2. injection Hsa2 as <-.
  rewrite Hsc1 in Hsc2. injection Hsc2 as <-.
  done.
Qed.

(** The anode is the ground: on an index map where the anode potential row
    is neither a cathode row nor the electrolyte row, the anode row of the
    residual is the anode potential of the state vector. *)
Theorem anode_ground_row t a_sv a_svdot a_res sim exp h sv e' r h' :
  ptr_phi_ed (an sim) ∉ r_ptr_Li_ed (ca sim) →
  ptr_phi_ed (an sim) ≠ ptr_phi_ed (ca sim) →
  ptr_phi_ed (an sim) ≠ el_ptr_phi_el (el sim) →
  h !! a_sv = Some sv →
  residuals c grad_r div_r t a_sv a_svdot a_res sim exp h
    = Some ((e', r), h') →
  ∃ res' phi_an, h' !! a_res = Some res' ∧
    sv !! ptr_phi_ed (an sim) = Some phi_an ∧
    res' !! ptr_phi_ed (an sim) = Some phi_an.
Proof.
  intros Hn1 Hn2 Hn3 Hsv H.
  apply residuals_inv in H as (phi_ca & sa & sc & h1 & Hd & Hb & _).
  destruct (domain_equations_buffer _ _ _ _ _ _ _ Hd) as [res1 Hr1].
  destruct (boundary_conditions_frame _ _ _ _ _ _ _ _ _ _ _ Hb _ Hr1)
    as (res2 & -> & _ & Hfr).
  apply domain_equations_steps in Hd
    as (sv' & phi_an & phi_el & xs_an & xs_ca & Js_an & Js_ca & svdot1
        & svdot2 & rhs_an & rhs_ca & res0 & r1 & r3 & Hsv' & Hpa & _ & _
        & _ & _ & _ & _ & _ & _ & Hr0 & Hset1 & Hi & _ & _ & _ & _ & Hset3
        & ->).
  rewrite Hsv in Hsv'. injection Hsv' as <-.
  assert (Hlt : (a_res < length h)%nat) by (by eapply lookup_lt_Some).
  rewrite list_lookup_insert_eq in Hr1 by done. injection Hr1 as <-.
  exists res2, phi_an. split.
  { apply list_lookup_insert_eq. by rewrite length_insert. }
  split; [done|]. rewrite Hfr by done.
  rewrite (fancy_set_lookup_ne _ _ _ _ _ Hset3 Hn1).
  rewrite list_lookup_insert_eq by done. f_equal. ring.
Qed.

End MoreBoundary.

Section Population.

Variable c : Constants.
Variable grad_r : ndarray → ndarray → option ndarray.
Variable div_r : ndarray → ndarray → ndarray → option ndarray.

Lemma two_rows_iff a_res i1 x1 i2 x2 (h1 : heap) (res1 : ndarray) h' :
  h1 !! a_res = Some res1 →
  bind (store_item a_res i1 x1) (λ _, store_item a_res i2 x2) h1
    = Some (tt, h') ↔
  (i1 < length res1)%nat ∧ (i2 < length res1)%nat ∧
  h' = <[a_res := <[i2 := x2]> (<[i1 := x1]> res1)]> h1.
Proof.
  intros Hres1.
  assert (Hlt : (a_res < length h1)%nat) by (eapply lookup_lt_Some; eauto).
  rewrite bind_Some. split.
  - intros (u1 & h2 & H1 & H2).
    apply store_item_Some in H1 as (b1 & Hb1 & Hi1 & ->).
    apply store_item_Some in H2 as (b2 & Hb2 & Hi2 & ->).
    rewrite list_lookup_insert_eq in Hb2 by done. injection Hb2 as <-.
    rewrite Hres1 in Hb1. injection Hb1 as <-.
    rewrite length_insert in Hi2. by rewrite list_insert_insert_eq.
  - intros (Hi1 & Hi2 & ->).
    exists tt, (<[a_res := <[i1 := x1]> res1]> h1). split.
    + apply store_item_Some. eauto.
    + apply store_item_Some. exists (<[i1 := x1]> res1).
      rewrite list_lookup_insert_eq by done. rewrite length_insert.
      by rewrite list_insert_insert_eq.
Qed.

(** Under a supported experiment the boundary conditions are two row
    writes, whose values do not depend on the store. *)
Lemma boundary_conditions_supported t sim exp phi_ca sdot_an sdot_ca :
  supported exp →
  ∃ A B, ∀ a_res,
    boundary_conditions c t a_res sim exp phi_ca sdot_an sdot_ca
    = bind (store_item a_res (ptr_phi_ed (ca sim)) A)
        (λ _, store_item a_res (el_ptr_phi_el (el sim)) B).
Proof.
  intros [[Hm Hu]|[[Hm Hu]|[Hm|Hm]]].
  - eexists _, _. intros a_res.
    apply boundary_conditions_current; auto.
  - eexists _, _. intros a_res.
    apply boundary_conditions_current; auto.
  - eexists _, _. intros a_res. by apply boundary_conditions_voltage.
  - eexists _, _. intros a_res. by apply boundary_conditions_power.
Qed.

(** The values that a call writes and returns do not depend on what the
    residual buffer held, when every row is written. *)
Lemma residuals_buffer_irrelevant t a_sv a_svdot a_res sim exp h res res2
    e' r h' :
  a_res ≠ a_sv → a_res ≠ a_svdot →
  supported exp →
  (∀ k, (k < length res)%nat → written_row sim k) →
  h !! a_res = Some res → length res2 = length res →
  residuals c grad_r div_r t a_sv a_svdot a_res sim exp h
    = Some ((e', r), h') →
  residuals c grad_r div_r t a_sv a_svdot a_res sim exp (<[a_res := res2]> h)
    = Some ((e', r), h').
Proof.
  intros Hsv Hsvdot Hsup Hcover Hres Hlen H.
  assert (Hlt : (a_res < length h)%nat) by (by eapply lookup_lt_Some).
  apply residuals_inv in H as (phi_ca & sa & sc & h1 & Hd & Hb & -> & ->).
  apply domain_equations_steps in Hd
    as (sv & phi_an & phi_el & xs_an & xs_ca & Js_an & Js_ca & svdot1
        & svdot2 & rhs_an & rhs_ca & res0 & r1 & r3 & Hs & Hpa & Hpe & Hpc
        & Hxa & Hxc & Hsa & Hja & Hsd1 & Hra & Hr0 & Hset1 & Hi & Hsc & Hjc
        & Hsd2 & Hrc & Hset3 & ->).
  rewrite Hres in Hr0. injection Hr0 as <-.
  rewrite list_lookup_insert_ne in Hsd2 by done.
  assert (Hag0 : agree_on (λ _, False) res res2) by (by split).
  destruct (fancy_set_agree _ _ _ _ _ _ Hset1 Hag0) as (r1' & Hset1' & Hag1).
  apply (agree_on_insert _ _ _ (ptr_phi_ed (an sim)) (phi_an - 0)) in Hag1.
  destruct (fancy_set_agree _ _ _ _ _ _ Hset3 Hag1) as (r3' & Hset3' & Hag3).
  destruct (boundary_conditions_supported t sim exp phi_ca sa sc Hsup)
    as (A & B & HAB).
  rewrite HAB in Hb.
  apply two_rows_iff with (res1 := r3) in Hb;
    [|by apply list_lookup_insert_eq].
  destruct Hb as (Hi1 & Hi2 & ->). rewrite list_insert_insert_eq.
  apply (agree_on_insert _ _ _ (ptr_phi_ed (ca sim)) A) in Hag3.
  apply (agree_on_insert _ _ _ (el_ptr_phi_el (el sim)) B) in Hag3.
  pose proof Hag3 as [Hlen3 _]. rewrite !length_insert in Hlen3.
  assert (Hfin : <[el_ptr_phi_el (el sim) := B]>
                   (<[ptr_phi_ed (ca sim) := A]> r3)
                 = <[el_ptr_phi_el (el sim) := B]>
                     (<[ptr_phi_ed (ca sim) := A]> r3')).
  { eapply agree_on_eq; [exact Hag3|]. intros k Hk.
    rewrite !length_insert in Hk.
    rewrite (fancy_set_length _ _ _ _ Hset3), length_insert,
            (fancy_set_length _ _ _ _ Hset1) in Hk.
    specialize (Hcover k Hk). unfold written_row in Hcover. tauto. }
  unfold residuals. apply bind_Some.
  exists (phi_ca, sa, sc), (<[a_res := r3']> h). split.
  { apply domain_equations_steps.
    exists sv, phi_an, phi_el, xs_an, xs_ca, Js_an, Js_ca, svdot1, svdot2,
           rhs_an, rhs_ca, res2, r1', r3'.
    rewrite !list_lookup_insert_ne by done.
    rewrite list_lookup_insert_eq by done.
    rewrite !list_insert_insert_eq.
    repeat (split; [assumption || reflexivity|]).
    split.
    { rewrite (fancy_set_length _ _ _ _ Hset1'), Hlen,
              <- (fancy_set_length _ _ _ _ Hset1). done. }
    rewrite list_lookup_insert_ne by done.
    repeat (split; [assumption || reflexivity|]). reflexivity. }
  apply bind_Some. exists tt, (<[a_res := <[el_ptr_phi_el (el sim) := B]>
                                 (<[ptr_phi_ed (ca sim) := A]> r3)]> h).
  split; [|reflexivity].
  rewrite HAB, Hfin.
  replace (<[a_res := <[el_ptr_phi_el (el sim) := B]>
                       (<[ptr_phi_ed (ca sim) := A]> r3')]> h)
    with (<[a_res := <[el_ptr_phi_el (el sim) := B]>
                       (<[ptr_phi_ed (ca sim) := A]> r3')]>
            (<[a_res := r3']> h))
    by apply list_insert_insert_eq.
  apply two_rows_iff with (res1 := r3').
  - by apply list_lookup_insert_eq.
  - split; [lia|]. split; [lia|]. reflexivity.
Qed.

(** [residuals] fully populates [res]: on an index map that covers every
    row, under a supported experiment and with [res] a buffer of its own,
    the call returns the same values and leaves the same store whatever the
    buffer held before. *)
Theorem residuals_fully_populates t a_sv a_svdot a_res sim exp h res res2
    e' r h' :
  a_res ≠ a_sv → a_res ≠ a_svdot →
  supported exp →
  (∀ k, (k < length res)%nat → written_row sim k) →
  h !! a_res = Some res → length res2 = length res →
  residuals c grad_r div_r t a_sv a_svdot a_res sim exp h
    = Some ((e', r), h') →
  residuals c grad_r div_r t a_sv a_svdot a_res sim exp (<[a_res := res2]> h)
    = Some ((e', r), h').
Proof. apply residuals_buffer_irrelevant. Qed.

(** An electrode without radial nodes makes [residuals] raise: there is no
    surface value to read. *)
Theorem residuals_no_radial_nodes t a_sv a_svdot a_res sim exp h :
  r_ptr_Li_ed (an sim) = [] ∨ r_ptr_Li_ed (ca sim) = [] →
  residuals c grad_r div_r t a_sv a_svdot a_res sim exp h = None.
Proof.
  intros Hempty.
  destruct (residuals _ _ _ _ _ _ _ _ _ _) as [[[e' r] h']|] eqn:H; [|done].
  exfalso.
  apply residuals_inv in H as (phi_ca & sa & sc & h1 & Hd & _).
  apply domain_equations_inv in Hd
    as (sv & phi_an & phi_el & xs_an & xs_ca & ? & ? & ? & ? & _ & _ & _ & _
        & Hxa & Hxc & Hsa & Hsc & _).
  apply fancy_get_bounds in Hxa as [Hla _], Hxc as [Hlc _].
  destruct Hempty as [He|He]; rewrite He in *.
  - destruct xs_an; [|discriminate]. discriminate.
  - destruct xs_ca; [|discriminate]. discriminate.
Qed.

(** [residuals] returns only when every pointer lies within the buffers:
    the three potentials and the radial nodes within [sv], the radial
    nodes within [svdot], the radial nodes and the anode row within [res],
    and under a supported experiment the two boundary rows within [res]. *)
Theorem residuals_bounds t a_sv a_svdot a_res sim exp h sv svdot res
    e' r h' :
  h !! a_sv = Some sv → h !! a_svdot = Some svdot → h !! a_res = Some res →
  residuals c grad_r div_r t a_sv a_svdot a_res sim exp h
    = Some ((e', r), h') →
  (ptr_phi_ed (an sim) < length sv)%nat ∧
  (el_ptr_phi_el (el sim) < length sv)%nat ∧
  (ptr_phi_ed (ca sim) < length sv)%nat ∧
  (∀ k, k ∈ r_ptr_Li_ed (an sim) ∨ k ∈ r_ptr_Li_ed (ca sim) →
        (k < length sv)%nat ∧ (k < length svdot)%nat ∧
        (k < length res)%nat) ∧
  (ptr_phi_ed (an sim) < length res)%nat ∧
  (supported exp →
   (ptr_phi_ed (ca sim) < length res)%nat ∧
   (el_ptr_phi_el (el sim) < length res)%nat).
Proof.
  intros Hsv Hsvdot Hres H.
  assert (Hlt : (a_res < length h)%nat) by (by eapply lookup_lt_Some).
  apply residuals_inv in H as (phi_ca & sa & sc & h1 & Hd & Hb & _).
  apply domain_equations_steps in Hd
    as (sv' & phi_an & phi_el & xs_an & xs_ca & Js_an & Js_ca & svdot1
        & svdot2 & rhs_an & rhs_ca & res0 & r1 & r3 & Hs & Hpa & Hpe & Hpc
        & Hxa & Hxc & Hsa & Hja & Hsd1 & Hra & Hr0 & Hset1 & Hi & Hsc & Hjc
        & Hsd2 & Hrc & Hset3 & ->).
  rewrite Hsv in Hs. injection Hs as <-.
  rewrite Hsvdot in Hsd1. injection Hsd1 as <-.
  rewrite Hres in Hr0. injection Hr0 as <-.
  pose proof (fancy_set_length _ _ _ _ Hset1) as Hl1.
  pose proof (fancy_set_length _ _ _ _ Hset3) as Hl3.
  rewrite length_insert in Hl3.
  assert (Hl2 : length svdot2 = length svdot).
  { destruct (decide (a_svdot = a_res)) as [->|Hne].
    - rewrite list_lookup_insert_eq in Hsd2 by done. injection Hsd2 as <-.
      rewrite length_insert. congruence.
    - rewrite list_lookup_insert_ne in Hsd2 by done. congruence. }
  split; [by eapply lookup_lt_Some|].
  split; [by eapply lookup_lt_Some|].
  split; [by eapply lookup_lt_Some|].
  split; [|split; [lia|]].
  - intros k [Hk|Hk].
    + split; [by eapply (proj2 (fancy_get_bounds _ _ _ Hxa))|]. split.
      * unfold com_ed in Hra.
        destruct (fancy_get svdot _) as [dots|] eqn:Hg; [|discriminate].
        by eapply (proj2 (fancy_get_bounds _ _ _ Hg)).
      * by eapply fancy_set_bounds.
    + split; [by eapply (proj2 (fancy_get_bounds _ _ _ Hxc))|]. split.
      * unfold com_ed in Hrc.
        destruct (fancy_get svdot2 _) as [dots|] eqn:Hg; [|discriminate].
        rewrite <- Hl2. by eapply (proj2 (fancy_get_bounds _ _ _ Hg)).
      * pose proof (fancy_set_bounds _ _ _ _ Hset3 k Hk) as Hb3.
        rewrite length_insert in Hb3. lia.
  - intros Hsup.
    destruct (boundary_conditions_supported t sim exp phi_ca sa sc Hsup)
      as (A & B & HAB).
    rewrite HAB in Hb.
    apply two_rows_iff with (res1 := r3) in Hb;
      [|by apply list_lookup_insert_eq].
    destruct Hb as (Hi1 & Hi2 & _). lia.
Qed.

End Population.

(** Shapes of the array operations. *)
Lemma ew2_same_length (f : R → R → R) (a b : ndarray) :
  length a = length b →
  ∃ z, ew2 f a b = Some z ∧ length z = length a.
Proof.
  intros Hl. unfold ew2. rewrite decide_True by done.
  eexists. split; [reflexivity|]. rewrite length_zip_with. lia.
Qed.

(** ** Further properties of [bandwidth] *)

Lemma shape_zeros (n m : nat) : shape n m (zeros n m).
Proof.
  unfold shape, zeros. split; [apply length_replicate|].
  apply Forall_forall. intros row Hrow%elem_of_replicate.
  destruct Hrow as [-> _]. apply length_replicate.
Qed.

Lemma broadcast_to_length (n : nat) (v vs : ndarray) :
  broadcast_to n v = Some vs → length vs = n.
Proof.
  unfold broadcast_to. case_decide; [by intros [= <-]|].
  destruct v as [|x [|? ?]]; try discriminate.
  intros [= <-]. apply length_replicate.
Qed.

(** A column write keeps the shape of the matrix. *)
Lemma set_col_shape (n m : nat) (jac jac' : matrix) (j : nat) (v : ndarray) :
  set_col jac j v = Some jac' → shape n m jac → shape n m jac'.
Proof.
  unfold set_col. destruct (forallb _ jac); [|discriminate].
  destruct (broadcast_to _ v) as [vs|] eqn:Hb; simpl; [|discriminate].
  intros [= <-] [Hn Hm]. apply broadcast_to_length in Hb.
  split; [rewrite length_zip_with; lia|].
  apply Forall_forall. intros row' Hrow'.
  apply list_elem_of_lookup in Hrow' as [i Hi].
  apply lookup_zip_with_Some in Hi as (row & x & -> & Hrow & _).
  rewrite length_insert. rewrite Forall_forall in Hm.
  apply Hm. by eapply list_elem_of_lookup_2.
Qed.

Lemma shape_entry (n m : nat) (jac : matrix) (i j : nat) (x : R) :
  shape n m jac → entry jac i j = Some x → (i < n)%nat ∧ (j < m)%nat.
Proof.
  intros [Hn Hm] He. unfold entry in He.
  destruct (jac !! i) as [row|] eqn:Hrow; [simpl in He|discriminate].
  split; [rewrite <- Hn; by eapply lookup_lt_Some|].
  rewrite Forall_forall in Hm.
  rewrite <- (Hm row) by (by eapply list_elem_of_lookup_2).
  by eapply lookup_lt_Some.
Qed.

Section BandwidthShape.

Variable call : R → ndarray → ndarray → ndarray → Simulation → Experiment →
                option (ndarray * Experiment).

(** The matrix of finite differences is square, of the size of the state
    vector, whatever the residual function. *)
Lemma jacobian_on_shape sim jac :
  jacobian_on call sim = Some jac →
  shape (length (_sv0 sim)) (length (_sv0 sim)) jac.
Proof.
  unfold jacobian_on. set (N := length (_sv0 sim)).
  destruct (call 0 _ _ _ _ _) as [[res_0 e0]|]; simpl; [|discriminate].
  set (I := λ s : matrix * ndarray * Experiment, shape N N s.1.1).
  destruct (for_each _ (probe_sv call _ _ _ _) _)
    as [[[jac1 res1] e1]|] eqn:H1; simpl; [|discriminate].
  apply (for_each_invariant I) in H1; [|apply shape_zeros|].
  2: { intros j [[ja ra] ea] s' Hs. unfold probe_sv.
       destruct (perturbed _ j); simpl; [|discriminate].
       destruct (call _ _ _ _ _ _) as [[? ?]|]; simpl; [|discriminate].
       destruct (ew2 _ _ _); simpl; [|discriminate].
       destruct (set_col _ _ _) eqn:Hc; simpl; [|discriminate].
       intros [= <-]. unfold I. simpl. by eapply set_col_shape. }
  destruct (for_each _ (probe_svdot call _ _ _ _) _)
    as [[[jac2 res2] e2]|] eqn:H2; simpl; [|discriminate].
  apply (for_each_invariant I) in H2; [|exact H1|].
  2: { intros j [[ja ra] ea] s' Hs. unfold probe_svdot.
       destruct (perturbed _ j); simpl; [|discriminate].
       destruct (call _ _ _ _ _ _) as [[? ?]|]; simpl; [|discriminate].
       destruct (ew2 _ _ _); simpl; [|discriminate].
       destruct (get_col _ _); simpl; [|discriminate].
       destruct (ew2 _ _ _); simpl; [|discriminate].
       destruct (set_col _ _ _) eqn:Hc; simpl; [|discriminate].
       intros [= <-]. unfold I. simpl. by eapply set_col_shape. }
  by intros [= <-].
Qed.

End BandwidthShape.

Section MoreBandwidth.

Variable c : Constants.
Variable grad_r : ndarray → ndarray → option ndarray.
Variable div_r : ndarray → ndarray → ndarray → option ndarray.

(** When [bandwidth] returns, the state vector has [N >= 1] components, the
    pattern is an [N] by [N] matrix of zeros and ones, and both bands are
    at most [N - 1]. *)
Theorem bandwidth_shape sim lband uband pat :
  bandwidth c grad_r div_r sim = Some (lband, uband, pat) →
  let N := length (_sv0 sim) in
  (0 < N)%nat ∧ shape N N pat ∧
  (lband ≤ N - 1)%nat ∧ (uband ≤ N - 1)%nat ∧
  ∀ i j x, entry pat i j = Some x → x = 0 ∨ x = 1.
Proof.
  intros H N.
  destruct (jacobian c grad_r div_r sim) as [jac|] eqn:HJ.
  2: { unfold bandwidth, bandwidth_on in H.
       fold (jacobian c grad_r div_r sim) in H. rewrite HJ in H.
       discriminate. }
  rewrite (bandwidth_of_jacobian _ _ _ _ _ HJ) in H. injection H as <- <- <-.
  pose proof (jacobian_on_shape _ _ _ HJ) as Hsh. fold N in Hsh.
  destruct (find_bands_spec jac) as ((_ & Hl) & (_ & Hu) & _).
  assert (HN : (0 < N)%nat).
  { unfold jacobian, jacobian_on in HJ. fold N in HJ.
    destruct (_sv0 sim) as [|x sv0] eqn:Hsv0; [|simpl in N; lia].
    exfalso. unfold call_residuals, residuals, bind, domain_equations, bind,
      load, lift in HJ. simpl in HJ. discriminate. }
  split; [done|]. split.
  { destruct Hsh as [Hn Hm]. unfold shape, j_pat.
    rewrite length_map. split; [done|].
    apply Forall_forall. intros row' Hrow'.
    change (map (map ?f) jac)
      with (fmap (M := list) (fmap (M := list) f) jac) in Hrow'.
    apply list_elem_of_fmap in Hrow' as (row & -> & Hrow).
    rewrite length_fmap. rewrite Forall_forall in Hm. by apply Hm. }
  split.
  { destruct Hl as [->|(i & j & [Hj (x & He & _)] & <-)]; [lia|].
    apply (shape_entry _ _ _ _ _ _ Hsh) in He. lia. }
  split.
  { destruct Hu as [->|(i & j & [Hj (x & He & _)] & <-)]; [lia|].
    apply (shape_entry _ _ _ _ _ _ Hsh) in He. lia. }
  intros i j x. rewrite entry_j_pat.
  destruct (entry jac i j) as [y|]; simpl; [|discriminate].
  intros [= <-]. case_decide; auto.
Qed.

(** The diagnostics flag is read at the return statement of [residuals]
    only, so it does not reach the analysis. *)
Lemma call_residuals_set_post b t sv svdot res sim e :
  call_residuals c grad_r div_r t sv svdot res (set_post b sim) e
  = call_residuals c grad_r div_r t sv svdot res sim e.
Proof.
  unfold call_residuals, residuals, bind.
  change (domain_equations c grad_r div_r 0 1 2 (set_post b sim))
    with (domain_equations c grad_r div_r 0 1 2 sim).
  destruct (domain_equations _ _ _ _ _ _ _ _)
    as [[[[phi_ca sa] sc] hm]|]; [|reflexivity].
  change (boundary_conditions c t 2 (set_post b sim) e phi_ca sa sc)
    with (boundary_conditions c t 2 sim e phi_ca sa sc).
  destruct (boundary_conditions _ _ _ _ _ _ _ _ _) as [[[] h2]|];
    reflexivity.
Qed.

(** [bandwidth] gives the same bands and pattern with the diagnostics flag
    of the simulation set or unset. *)
Theorem bandwidth_ignores_post_flag b sim :
  bandwidth c grad_r div_r (set_post b sim) = bandwidth c grad_r div_r sim.
Proof.
  unfold bandwidth, bandwidth_on. f_equal.
  unfold jacobian_on. cbn [_sv0 _svdot0 set_post].
  rewrite call_residuals_set_post.
  destruct (call_residuals _ _ _ 0 _ _ _ _ _) as [[res_0 e0]|]; simpl;
    [|done].
  rewrite (for_each_ext (λ _, True) _
             (probe_sv (call_residuals c grad_r div_r) (set_post b sim)
                (_sv0 sim) (_svdot0 sim) res_0)
             (probe_sv (call_residuals c grad_r div_r) sim
                (_sv0 sim) (_svdot0 sim) res_0)); [|done| |done].
  2: { intros j [[ja ra] ea] _. unfold probe_sv.
       destruct (perturbed _ j); simpl; [|done].
       by rewrite call_residuals_set_post. }
  destruct (for_each _ _ _) as [[[jac1 res1] e1]|]; simpl; [|done].
  rewrite (for_each_ext (λ _, True) _
             (probe_svdot (call_residuals c grad_r div_r) (set_post b sim)
                (_sv0 sim) (_svdot0 sim) res_0)
             (probe_svdot (call_residuals c grad_r div_r) sim
                (_sv0 sim) (_svdot0 sim) res_0)); [done|done| |done].
  intros j [[ja ra] ea] _. unfold probe_svdot.
  destruct (perturbed _ j); simpl; [|done].
  by rewrite call_residuals_set_post.
Qed.

End MoreBandwidth.

(** ** The columns of the matrix of finite differences *)

Lemma for_each_seq_invariant {St : Type} (P : nat → St → Prop)
    (f : nat → St → option St) (n k : nat) (s s' : St) :
  P k s →
  (∀ j t t', (k ≤ j < k + n)%nat → P j t → f j t = Some t' → P (S j) t') →
  for_each (seq k n) f s = Some s' → P (k + n)%nat s'.
Proof.
  revert k s. induction n as [|n IH]; intros k s Hs Hstep; simpl.
  - intros [= <-]. by rewrite Nat.add_0_r.
  - destruct (f k s) as [s1|] eqn:Hf; simpl; [|done].
    intros H. replace (k + S n)%nat with (S k + n)%nat by lia.
    apply (IH (S k) s1); [|intros j t t' Hj; apply Hstep; lia|done].
    apply (Hstep k s); [lia|done|done].
Qed.

Lemma mapM_lookup_zip_insert_ne (j j' : nat) (jac : matrix) (vs : ndarray) :
  j ≠ j' → length vs = length jac →
  mapM (λ row : ndarray, row !! j')
    (zip_with (λ (row : ndarray) x, <[j := x]> row) jac vs)
  = mapM (λ row : ndarray, row !! j') jac.
Proof.
  intros Hj. revert vs.
  induction jac as [|row jac IH]; intros [|x vs] Hl; try done.
  simpl in *. rewrite list_lookup_insert_ne by done.
  rewrite IH by lia. done.
Qed.

Lemma mapM_lookup_zip_insert_eq (j : nat) (jac : matrix) (vs : ndarray) :
  Forall (λ row : ndarray, (j < length row)%nat) jac →
  length vs = length jac →
  mapM (λ row : ndarray, row !! j)
    (zip_with (λ (row : ndarray) x, <[j := x]> row) jac vs)
  = Some vs.
Proof.
  intros HF. revert vs.
  induction HF as [|row jac Hrow HF IH]; intros [|x vs] Hl; try done.
  simpl in *. rewrite list_lookup_insert_eq by done. simpl.
  rewrite IH by lia. done.
Qed.

(** Writing column [j] leaves every other column as it was. *)
Lemma set_col_get_col_ne (jac jac' : matrix) (j j' : nat) (v : ndarray) :
  j ≠ j' → set_col jac j v = Some jac' → get_col jac' j' = get_col jac j'.
Proof.
  intros Hj. unfold set_col, get_col.
  destruct (forallb _ jac); [|discriminate].
  destruct (broadcast_to _ v) as [vs|] eqn:Hb; simpl; [|discriminate].
  intros [= <-]. apply mapM_lookup_zip_insert_ne; [done|].
  by eapply broadcast_to_length.
Qed.

(** Reading back the column that was written. *)
Lemma set_col_get_col (jac jac' : matrix) (j : nat) (v : ndarray) :
  length v = length jac → set_col jac j v = Some jac' →
  get_col jac' j = Some v.
Proof.
  intros Hl. unfold set_col, get_col.
  destruct (forallb _ jac) eqn:HF; [|discriminate].
  unfold broadcast_to. rewrite decide_True by done. simpl.
  intros [= <-]. apply mapM_lookup_zip_insert_eq; [|done].
  apply Forall_forall. intros row Hrow.
  rewrite forallb_forall in HF.
  apply list_elem_of_In, HF, bool_decide_eq_true_1 in Hrow. done.
Qed.

Lemma get_col_length (jac : matrix) (j : nat) (col : ndarray) :
  get_col jac j = Some col → length col = length jac.
Proof. unfold get_col. intros H. symmetry. by eapply length_mapM. Qed.

Lemma perturbed_length (v dv : ndarray) (j : nat) :
  perturbed v j = Some dv → length dv = length v.
Proof.
  unfold perturbed, item_set. destruct (v !! j); simpl; [|discriminate].
  case_decide; [|discriminate]. intros [= <-]. apply length_insert.
Qed.

Lemma ew2_length (f : R → R → R) (a b z : ndarray) :
  length a = length b → ew2 f a b = Some z → length z = length a.
Proof.
  intros Hl Hz. destruct (ew2_same_length f a b Hl) as (z' & Hz' & Hlz).
  congruence.
Qed.

Section JacobianColumns.

Variable c : Constants.
Variable grad_r : ndarray → ndarray → option ndarray.
Variable div_r : ndarray → ndarray → ndarray → option ndarray.

(** Under the fake experiment the values that a call writes do not depend
    on the events entry of the dictionary. *)
Lemma residuals_probe_exp_irrelevant t a_sv a_svdot a_res sim e e2 h e' r h' :
  probe_exp e → probe_exp e2 →
  residuals c grad_r div_r t a_sv a_svdot a_res sim e h = Some ((e', r), h') →
  ∃ e2', residuals c grad_r div_r t a_sv a_svdot a_res sim e2 h
         = Some ((e2', r), h').
Proof.
  intros He He2 H.
  apply residuals_inv in H as (phi_ca & sa & sc & h1 & Hd & Hb & -> & ->).
  eexists. unfold residuals. apply bind_Some.
  exists (phi_ca, sa, sc), h1. split; [done|].
  apply bind_Some. exists tt, h'. split; [|reflexivity].
  rewrite boundary_conditions_probe by done.
  by rewrite boundary_conditions_probe in Hb.
Qed.

Lemma residuals_probe_length t a_sv a_svdot a_res sim e h res e' r h' :
  probe_exp e → h !! a_res = Some res →
  residuals c grad_r div_r t a_sv a_svdot a_res sim e h = Some ((e', r), h') →
  ∃ res', h' !! a_res = Some res' ∧ length res' = length res.
Proof.
  intros He Hres H.
  apply residuals_inv in H as (phi_ca & sa & sc & h1 & Hd & Hb & -> & ->).
  apply domain_equations_steps in Hd
    as (sv & phi_an & phi_el & xs_an & xs_ca & Js_an & Js_ca & svdot1
        & svdot2 & rhs_an & rhs_ca & res0 & r1 & r3 & Hs & Hpa & Hpe & Hpc
        & Hxa & Hxc & Hsa & Hja & Hsd1 & Hra & Hr0 & Hset1 & Hi & Hsc & Hjc
        & Hsd2 & Hrc & Hset3 & ->).
  rewrite Hres in Hr0. injection Hr0 as <-.
  assert (Hlt : (a_res < length h)%nat) by (by eapply lookup_lt_Some).
  rewrite boundary_conditions_probe in Hb by done.
  apply two_rows_iff with (res1 := r3) in Hb;
    [|by apply list_lookup_insert_eq].
  destruct Hb as (_ & _ & ->). rewrite list_insert_insert_eq.
  eexists. split; [by apply list_lookup_insert_eq|].
  rewrite !length_insert, (fancy_set_length _ _ _ _ Hset3), length_insert.
  by rewrite (fancy_set_length _ _ _ _ Hset1).
Qed.

(** A probing call on the reused buffer and dictionary gives the residual
    of a fresh call. *)
Lemma call_residuals_probe_fresh sim sv svdot res e r e' :
  (∀ k, (k < length res)%nat → written_row sim k) →
  probe_exp e → length res = length sv →
  call_residuals c grad_r div_r 0 sv svdot res sim e = Some (r, e') →
  fresh_residual c grad_r div_r sim sv svdot = Some r ∧
  length r = length res ∧ probe_exp e'.
Proof.
  intros Hcov He Hl H. split; [|split].
  - unfold call_residuals in H.
    destruct (residuals _ _ _ _ _ _ _ _ _ _) as [[[e1 r1] h1]|] eqn:Hr;
      [|discriminate].
    destruct (h1 !! 2%nat) as [r'|] eqn:Hh1; simpl in H; [|discriminate].
    injection H as -> ->.
    destruct (residuals_probe_exp_irrelevant _ _ _ _ _ _ expr _ _ _ _
                He (conj eq_refl (conj eq_refl eq_refl)) Hr) as (e2' & Hr2).
    apply (residuals_buffer_irrelevant c grad_r div_r 0 0 1 2 sim expr
             [sv; svdot; res] res (replicate (length sv) 0))
      in Hr2; try done.
    + simpl in Hr2. unfold fresh_residual, call_residuals.
      rewrite Hr2. rewrite Hh1. reflexivity.
    + right. left. done.
    + rewrite length_replicate. done.
  - unfold call_residuals in H.
    destruct (residuals _ _ _ _ _ _ _ _ _ _) as [[[e1 r1] h1]|] eqn:Hr;
      [|discriminate].
    destruct (h1 !! 2%nat) as [r'|] eqn:Hh1; simpl in H; [|discriminate].
    injection H as -> ->.
    apply (residuals_probe_length _ _ _ _ _ _ _ res) in Hr
      as (res' & Hres' & Hlen); [|done|done].
    congruence.
  - by eapply call_residuals_probe_exp.
Qed.

(** One round of the first loop. *)
Lemma probe_sv_step sim res_0 j jac res e jac' res' e' :
  (∀ k, (k < length (_sv0 sim))%nat → written_row sim k) →
  fresh_residual c grad_r div_r sim (_sv0 sim) (_svdot0 sim) = Some res_0 →
  length res_0 = length (_sv0 sim) →
  shape (length (_sv0 sim)) (length (_sv0 sim)) jac →
  length res = length (_sv0 sim) → probe_exp e →
  probe_sv (call_residuals c grad_r div_r) sim (_sv0 sim) (_svdot0 sim)
    res_0 j (jac, res, e) = Some (jac', res', e') →
  shape (length (_sv0 sim)) (length (_sv0 sim)) jac' ∧
  length res' = length (_sv0 sim) ∧ probe_exp e' ∧
  (∃ d, sv_difference c grad_r div_r sim j = Some d ∧
        length d = length (_sv0 sim) ∧ get_col jac' j = Some d) ∧
  ∀ j', j ≠ j' → get_col jac' j' = get_col jac j'.
Proof.
  intros Hcov Hf0 Hl0 Hsh Hlr He. unfold probe_sv.
  destruct (perturbed _ j) as [dsv|] eqn:Hp; simpl; [|discriminate].
  destruct (call_residuals _ _ _ _ _ _ _ _ _) as [[r1 e1]|] eqn:Hc;
    simpl; [|discriminate].
  destruct (ew2 _ _ _) as [dres|] eqn:Hd; simpl; [|discriminate].
  destruct (set_col _ _ _) as [jac1|] eqn:Hs; simpl; [|discriminate].
  intros [= <- <- <-].
  pose proof (perturbed_length _ _ _ Hp) as Hld.
  apply call_residuals_probe_fresh in Hc as (Hf1 & Hl1 & He1);
    [|by rewrite Hlr|done|congruence].
  assert (Hldres : length dres = length (_sv0 sim)).
  { rewrite <- Hl0. eapply ew2_length; [|exact Hd]. congruence. }
  split; [by eapply set_col_shape|]. split; [congruence|].
  split; [done|]. split.
  - exists dres. split; [|split; [done|]].
    + unfold sv_difference. rewrite Hf0. simpl. rewrite Hp. simpl.
      rewrite Hf1. simpl. exact Hd.
    + eapply set_col_get_col; [|exact Hs]. destruct Hsh as [Hn _].
      congruence.
  - intros j' Hj. by eapply set_col_get_col_ne.
Qed.

(** One round of the second loop. *)
Lemma probe_svdot_step sim res_0 j jac res e jac' res' e' :
  (∀ k, (k < length (_sv0 sim))%nat → written_row sim k) →
  fresh_residual c grad_r div_r sim (_sv0 sim) (_svdot0 sim) = Some res_0 →
  length res_0 = length (_sv0 sim) →
  shape (length (_sv0 sim)) (length (_sv0 sim)) jac →
  length res = length (_sv0 sim) → probe_exp e →
  probe_svdot (call_residuals c grad_r div_r) sim (_sv0 sim) (_svdot0 sim)
    res_0 j (jac, res, e) = Some (jac', res', e') →
  shape (length (_sv0 sim)) (length (_sv0 sim)) jac' ∧
  length res' = length (_sv0 sim) ∧ probe_exp e' ∧
  (∃ col0 d col, get_col jac j = Some col0 ∧
        svdot_difference c grad_r div_r sim j = Some d ∧
        ew2 Rplus col0 d = Some col ∧ get_col jac' j = Some col) ∧
  ∀ j', j ≠ j' → get_col jac' j' = get_col jac j'.
Proof.
  intros Hcov Hf0 Hl0 Hsh Hlr He. unfold probe_svdot.
  destruct (perturbed _ j) as [dsvdot|] eqn:Hp; simpl; [|discriminate].
  destruct (call_residuals _ _ _ _ _ _ _ _ _) as [[r1 e1]|] eqn:Hc;
    simpl; [|discriminate].
  destruct (ew2 Rminus _ _) as [dres|] eqn:Hd; simpl; [|discriminate].
  destruct (get_col jac j) as [col0|] eqn:Hg; simpl; [|discriminate].
  destruct (ew2 Rplus _ _) as [new|] eqn:Hn; simpl; [|discriminate].
  destruct (set_col _ _ _) as [jac1|] eqn:Hs; simpl; [|discriminate].
  intros [= <- <- <-].
  apply call_residuals_probe_fresh in Hc as (Hf1 & Hl1 & He1);
    [|by rewrite Hlr|done|done].
  assert (Hldres : length dres = length (_sv0 sim)).
  { rewrite <- Hl0. eapply ew2_length; [|exact Hd]. congruence. }
  pose proof (get_col_length _ _ _ Hg) as Hlc.
  destruct Hsh as [Hrows Hcols].
  assert (Hlnew : length new = length jac).
  { rewrite <- Hlc. eapply ew2_length; [|exact Hn]. congruence. }
  split; [by eapply set_col_shape|]. split; [congruence|].
  split; [done|]. split.
  - exists col0, dres, new. split; [done|]. split; [|split; [done|]].
    + unfold svdot_difference. rewrite Hf0. simpl. rewrite Hp. simpl.
      rewrite Hf1. simpl. exact Hd.
    + by eapply set_col_get_col.
  - intros j' Hj. by eapply set_col_get_col_ne.
Qed.

(** When every row of the state vector has an equation and the analysis
    returns, column [j] of its matrix is the sum of two residual
    differences, each between independent evaluations: the residual at the
    initial point minus the residual with component [j] of the state
    perturbed, plus the residual at the initial point minus the residual
    with component [j] of the time derivative perturbed.  Reusing one
    buffer and one dictionary across the calls does not show, and the
    differences are not divided by the step. *)
Theorem jacobian_columns sim jac :
  (∀ k, (k < length (_sv0 sim))%nat → written_row sim k) →
  jacobian c grad_r div_r sim = Some jac →
  ∀ j, (j < length (_sv0 sim))%nat →
    ∃ d1 d2 col,
      sv_difference c grad_r div_r sim j = Some d1 ∧
      svdot_difference c grad_r div_r sim j = Some d2 ∧
      ew2 Rplus d1 d2 = Some col ∧
      get_col jac j = Some col.
Proof.
  intros Hcov HJ. unfold jacobian, jacobian_on in HJ.
  destruct (call_residuals _ _ _ 0 (_sv0 sim) _ _ _ _)
    as [[res_0 e0]|] eqn:H0; simpl in HJ; [|discriminate].
  apply call_residuals_probe_fresh in H0 as (Hf0 & Hl0 & He0);
    [|by rewrite length_replicate|done|by rewrite length_replicate].
  rewrite length_replicate in Hl0.
  destruct (for_each _ (probe_sv _ _ _ _ _) _)
    as [[[jac1 res1] e1]|] eqn:H1; simpl in HJ; [|discriminate].
  destruct (for_each _ (probe_svdot _ _ _ _ _) _)
    as [[[jac2 res2] e2]|] eqn:H2; simpl in HJ; [|discriminate].
  injection HJ as ->.
  set (N := length (_sv0 sim)) in *.
  set (P1 := λ (k : nat) (s : matrix * ndarray * Experiment),
    shape N N s.1.1 ∧ length s.1.2 = N ∧ probe_exp s.2 ∧
    ∀ j, (j < k)%nat →
      ∃ d, sv_difference c grad_r div_r sim j = Some d ∧
           get_col s.1.1 j = Some d).
  apply (for_each_seq_invariant P1) in H1.
  2: { unfold P1. simpl. split; [apply shape_zeros|].
       split; [done|]. split; [done|]. intros j Hj. lia. }
  2: { intros j [[ja ra] ea] [[jb rb] eb] Hj (Hsh & Hlr & He & Hcols) Hstep.
       simpl in *.
       apply probe_sv_step in Hstep
         as (Hsh' & Hlr' & He' & (d & Hd & _ & Hg) & Hne); try done.
       unfold P1. simpl. split; [done|]. split; [done|]. split; [done|].
       intros j' Hj'. destruct (decide (j' = j)) as [->|Hjj].
       - by exists d.
       - rewrite Hne by done. apply Hcols. lia. }
  destruct H1 as (Hsh1 & Hlr1 & He1 & Hcols1). simpl in *.
  set (P2 := λ (k : nat) (s : matrix * ndarray * Experiment),
    shape N N s.1.1 ∧ length s.1.2 = N ∧ probe_exp s.2 ∧
    (∀ j, (j < k)%nat →
      ∃ d1 d2 col,
        sv_difference c grad_r div_r sim j = Some d1 ∧
        svdot_difference c grad_r div_r sim j = Some d2 ∧
        ew2 Rplus d1 d2 = Some col ∧ get_col s.1.1 j = Some col) ∧
    (∀ j, (k ≤ j < N)%nat →
      ∃ d, sv_difference c grad_r div_r sim j = Some d ∧
           get_col s.1.1 j = Some d)).
  apply (for_each_seq_invariant P2) in H2.
  2: { unfold P2. simpl. split; [done|]. split; [done|]. split; [done|].
       split.
       - intros j Hj. lia.
       - intros j Hj. apply Hcols1. lia. }
  2: { intros j [[ja ra] ea] [[jb rb] eb] Hj
         (Hsh & Hlr & He & Hdone & Htodo) Hstep.
       simpl in *.
       apply probe_svdot_step in Hstep
         as (Hsh' & Hlr' & He' & (col0 & d2 & col & Hg0 & Hd2 & Hcol & Hg)
             & Hne); try done.
       unfold P2. simpl. split; [done|]. split; [done|]. split; [done|].
       split.
       - intros j' Hj'. destruct (decide (j' = j)) as [->|Hjj].
         + destruct (Htodo j) as (d1 & Hd1 & Hg1); [lia|].
           exists d1, d2, col. split; [done|]. split; [done|].
           split; [congruence|done].
         + rewrite Hne by done. apply Hdone. lia.
       - intros j' Hj'. rewrite Hne by lia. apply Htodo. lia. }
  destruct H2 as (_ & _ & _ & Hdone & _). simpl in *.
  intros j Hj. apply Hdone. lia.
Qed.

End JacobianColumns.

(** ** The flux vector of the solid-phase residual *)

Section FluxClaim.

Variable c : Constants.
Variable grad_r : ndarray → ndarray → option ndarray.
Variable div_r : ndarray → ndarray → ndarray → option ndarray.

Lemma Js_ed_ends ed T (xs : ndarray) sdot Js :
  Js_ed grad_r ed T xs sdot = Some Js →
  ∃ inner, Js = [0] ++ inner ++ [- sdot] ∧
    Js !! 0%nat = Some 0 ∧ last Js = Some (- sdot).
Proof.
  unfold Js_ed. intros HJ.
  destruct (Ds_ed ed T xs) as [Ds|]; [simpl in HJ|discriminate].
  destruct (grad_r _ _) as [g|]; [simpl in HJ|discriminate].
  destruct (ew2 Rmult Ds g) as [inner|]; [simpl in HJ|discriminate].
  injection HJ as <-. exists inner. split; [reflexivity|].
  split; [reflexivity|].
  apply (last_snoc (- sdot) (0 :: inner)).
Qed.

Lemma com_ed_inv ed (svdot Js rhs : ndarray) :
  com_ed div_r ed svdot Js = Some rhs →
  ∃ dots d,
    fancy_get svdot (r_ptr_Li_ed ed) = Some dots ∧
    div_r (rm ed) (rp ed) Js = Some d ∧
    ew2 Rminus (map (Rmult (Li_max ed)) dots) d = Some rhs.
Proof.
  unfold com_ed. intros H.
  destruct (fancy_get _ _) as [dots|]; [simpl in H|discriminate].
  destruct (div_r _ _ _) as [d|]; [simpl in H|discriminate].
  exists dots, d. auto.
Qed.

(** C3.  In every call to [residuals] that returns, and for each
    electrode, the rows that the solid-phase conservation of mass writes
    to [res] are [Li_max*svdot[r_ptr] - div_r(rm, rp, Js)], where the flux
    vector [Js] given to [div_r] is [0] at the particle centre, whatever
    the state, and the negative of the reaction rate of that electrode at
    the particle surface.  These rows are the rows of [res] when the call
    returns, the two boundary rows apart. *)
Theorem residuals_flux_ends t a_sv a_svdot a_res sim exp h e' r h' :
  residuals c grad_r div_r t a_sv a_svdot a_res sim exp h
    = Some ((e', r), h') →
  ∃ sv phi_an phi_el phi_ca xs_an xs_ca sdot_an sdot_ca inner_an inner_ca
    svdot1 svdot2 dots_an dots_ca div_an div_ca rhs_an rhs_ca
    res0 r1 r3 res',
    (* the reaction rates *)
    h !! a_sv = Some sv ∧
    sv !! ptr_phi_ed (an sim) = Some phi_an ∧
    sv !! el_ptr_phi_el (el sim) = Some phi_el ∧
    sv !! ptr_phi_ed (ca sim) = Some phi_ca ∧
    fancy_get sv (r_ptr_Li_ed (an sim)) = Some xs_an ∧
    fancy_get sv (r_ptr_Li_ed (ca sim)) = Some xs_ca ∧
    sdot_ed c (an sim) (el sim) (temp (bat sim)) phi_an phi_el xs_an
      = Some sdot_an ∧
    sdot_ed c (ca sim) (el sim) (temp (bat sim)) phi_ca phi_el xs_ca
      = Some sdot_ca ∧
    (* the flux vectors and their ends *)
    Js_ed grad_r (an sim) (temp (bat sim)) xs_an sdot_an
      = Some ([0] ++ inner_an ++ [- sdot_an]) ∧
    Js_ed grad_r (ca sim) (temp (bat sim)) xs_ca sdot_ca
      = Some ([0] ++ inner_ca ++ [- sdot_ca]) ∧
    ([0] ++ inner_an ++ [- sdot_an]) !! 0%nat = Some 0 ∧
    last ([0] ++ inner_an ++ [- sdot_an]) = Some (- sdot_an) ∧
    ([0] ++ inner_ca ++ [- sdot_ca]) !! 0%nat = Some 0 ∧
    last ([0] ++ inner_ca ++ [- sdot_ca]) = Some (- sdot_ca) ∧
    (* the anode rows, from the divergence of the anode flux *)
    h !! a_svdot = Some svdot1 ∧
    fancy_get svdot1 (r_ptr_Li_ed (an sim)) = Some dots_an ∧
    div_r (rm (an sim)) (rp (an sim)) ([0] ++ inner_an ++ [- sdot_an])
      = Some div_an ∧
    ew2 Rminus (map (Rmult (Li_max (an sim))) dots_an) div_an
      = Some rhs_an ∧
    h !! a_res = Some res0 ∧
    fancy_set res0 (r_ptr_Li_ed (an sim)) rhs_an = Some r1 ∧
    (* the cathode rows, from the divergence of the cathode flux *)
    <[a_res := <[ptr_phi_ed (an sim) := phi_an - 0]> r1]> h !! a_svdot
      = Some svdot2 ∧
    fancy_get svdot2 (r_ptr_Li_ed (ca sim)) = Some dots_ca ∧
    div_r (rm (ca sim)) (rp (ca sim)) ([0] ++ inner_ca ++ [- sdot_ca])
      = Some div_ca ∧
    ew2 Rminus (map (Rmult (Li_max (ca sim))) dots_ca) div_ca
      = Some rhs_ca ∧
    fancy_set (<[ptr_phi_ed (an sim) := phi_an - 0]> r1)
      (r_ptr_Li_ed (ca sim)) rhs_ca = Some r3 ∧
    (* the residual when the call returns *)
    h' !! a_res = Some res' ∧ length res' = length r3 ∧
    ∀ k, k ≠ ptr_phi_ed (ca sim) → k ≠ el_ptr_phi_el (el sim) →
         res' !! k = r3 !! k.
Proof.
  intros H.
  apply residuals_inv in H as (phi_ca & sa & sc & h1 & Hd & Hb & _ & _).
  apply domain_equations_steps in Hd
    as (sv & phi_an & phi_el & xs_an & xs_ca & Js_an & Js_ca & svdot1
        & svdot2 & rhs_an & rhs_ca & res0 & r1 & r3 & Hs & Hpa & Hpe & Hpc
        & Hxa & Hxc & Hsa & Hja & Hsd1 & Hra & Hr0 & Hset1 & Hi & Hsc & Hjc
        & Hsd2 & Hrc & Hset3 & ->).
  assert (Hlt : (a_res < length h)%nat) by (by eapply lookup_lt_Some).
  destruct (Js_ed_ends _ _ _ _ _ Hja) as (inner_an & -> & Ha0 & Ha1).
  destruct (Js_ed_ends _ _ _ _ _ Hjc) as (inner_ca & -> & Hc0 & Hc1).
  apply com_ed_inv in Hra as (dots_an & div_an & Hda & Hdiva & Hrhsa).
  apply com_ed_inv in Hrc as (dots_ca & div_ca & Hdc & Hdivc & Hrhsc).
  destruct (boundary_conditions_frame _ _ _ _ _ _ _ _ _ _ _ Hb r3)
    as (res' & -> & Hlen & Hrows); [by apply list_lookup_insert_eq|].
  exists sv, phi_an, phi_el, phi_ca, xs_an, xs_ca, sa, sc, inner_an,
         inner_ca, svdot1, svdot2, dots_an, dots_ca, div_an, div_ca,
         rhs_an, rhs_ca, res0, r1, r3, res'.
  repeat (split; [assumption|]).
  split; [|split; [exact Hlen | exact Hrows]].
  apply list_lookup_insert_eq. by rewrite length_insert.
Qed.

End FluxClaim.

Lemma residuals_flux_ends_witness :
  ∃ e' r h',
    Example.run Example.sim (Example.experiment "current" "C" (λ _, 1))
      = Some ((e', r), h') ∧
    ∃ sdot_an sdot_ca inner_an inner_ca dots_an dots_ca div_an div_ca
      rhs_an rhs_ca r1 r3 res',
      Example.div_r [0; 1] [1; 2] ([0] ++ inner_an ++ [- sdot_an])
        = Some div_an ∧
      fancy_get Example.svdot [0; 1]%nat = Some dots_an ∧
      ew2 Rminus (map (Rmult 30) dots_an) div_an = Some rhs_an ∧
      fancy_set Example.res [0; 1]%nat rhs_an = Some r1 ∧
      Example.div_r [0; 1] [1; 2] ([0] ++ inner_ca ++ [- sdot_ca])
        = Some div_ca ∧
      fancy_get Example.svdot [4; 5]%nat = Some dots_ca ∧
      ew2 Rminus (map (Rmult 50) dots_ca) div_ca = Some rhs_ca ∧
      fancy_set (<[2%nat := 0 - 0]> r1) [4; 5]%nat rhs_ca = Some r3 ∧
      h' !! 2%nat = Some res' ∧
      ∀ k, k ≠ 6%nat → k ≠ 3%nat → res' !! k = r3 !! k.
Proof.
  eexists _, _, _. split; [run_model; reflexivity|].
  destruct (residuals_flux_ends Example.c Example.grad_r Example.div_r
              0 0 1 2 Example.sim
              (Example.experiment "current" "C" (λ _, 1)) Example.mem
              _ _ _ eq_refl)
    as (sv & phi_an & phi_el & phi_ca & xs_an & xs_ca & sa & sc
        & inner_an & inner_ca & svdot1 & svdot2 & dots_an & dots_ca
        & div_an & div_ca & rhs_an & rhs_ca & res0 & r1 & r3 & res'
        & Hsv & Hpa & _ & _ & _ & _ & _ & _ & _ & _ & _ & _ & _ & _
        & Hsd1 & Hda & Hdiva & Hrhsa & Hr0 & Hset1
        & Hsd2 & Hdc & Hdivc & Hrhsc & Hset3 & Hres' & _ & Hrows).
  injection Hsv as <-. injection Hpa as <-.
  injection Hsd1 as <-. injection Hr0 as <-.
  assert (svdot2 = Example.svdot) as ->.
  { apply fancy_set_length in Hset1.
    destruct r1 as [|? r1]; [discriminate|].
    simpl in Hsd2. by injection Hsd2. }
  exists sa, sc, inner_an, inner_ca, dots_an, dots_ca, div_an, div_ca,
         rhs_an, rhs_ca, r1, r3, res'.
  auto 12.
Defined.

(** ** The probes of the bandwidth analysis *)

Section ProbesClaim.

Variable c : Constants.
Variable grad_r : ndarray → ndarray → option ndarray.
Variable div_r : ndarray → ndarray → ndarray → option ndarray.

(** Under the fake experiment a call writes the current-mode rows with
    zero applied current. *)
Lemma call_residuals_zero_current t sim sv svdot b e r e' :
  probe_exp e →
  call_residuals c grad_r div_r t sv svdot b sim e = Some (r, e') →
  zero_current_rows c grad_r div_r sim sv svdot b r ∧
  length r = length b ∧ probe_exp e'.
Proof.
  intros He H. split; [|split].
  - unfold call_residuals in H.
    destruct (residuals _ _ _ _ _ _ _ _ _ _) as [[[e1 r1] h']|] eqn:Hr;
      [|discriminate].
    destruct (h' !! 2%nat) as [r'|] eqn:Hh'; simpl in H; [|discriminate].
    injection H as -> ->.
    apply residuals_inv in Hr as (phi_ca & sa & sc & h1 & Hd & Hb & _ & _).
    destruct (domain_equations_buffer _ _ _ _ _ _ _ _ _ _ Hd)
      as (res1 & Hres1).
    exists phi_ca, sa, sc, h1, res1. split; [exact Hd|].
    split; [exact Hres1|].
    rewrite boundary_conditions_probe in Hb by done.
    apply two_rows_iff with (res1 := res1) in Hb; [|done].
    destruct Hb as (_ & _ & ->).
    rewrite list_lookup_insert_eq in Hh' by (by eapply lookup_lt_Some).
    injection Hh' as <-. unfold reaction_charge.
    f_equal; [unfold Rdiv; ring|]. f_equal. unfold Rdiv. ring.
  - unfold call_residuals in H.
    destruct (residuals _ _ _ _ _ _ _ _ _ _) as [[[e1 r1] h']|] eqn:Hr;
      [|discriminate].
    destruct (h' !! 2%nat) as [r'|] eqn:Hh'; simpl in H; [|discriminate].
    injection H as -> ->.
    apply (residuals_probe_length _ _ _ _ _ _ _ _ _ _ b) in Hr
      as (res' & Hres' & Hlen); [|done|done].
    congruence.
  - by eapply call_residuals_probe_exp.
Qed.

(** One round of the first loop: the call that it makes. *)
Lemma probe_sv_probed sim res_0 j jac res e jac' res' e' :
  length res_0 = length (_sv0 sim) →
  shape (length (_sv0 sim)) (length (_sv0 sim)) jac →
  length res = length (_sv0 sim) → probe_exp e →
  probe_sv (call_residuals c grad_r div_r) sim (_sv0 sim) (_svdot0 sim)
    res_0 j (jac, res, e) = Some (jac', res', e') →
  shape (length (_sv0 sim)) (length (_sv0 sim)) jac' ∧
  length res' = length (_sv0 sim) ∧ probe_exp e' ∧
  (∃ dsv r1 d,
     perturbed (_sv0 sim) j = Some dsv ∧
     probed c grad_r div_r sim dsv (_svdot0 sim) r1 ∧
     ew2 Rminus res_0 r1 = Some d ∧ get_col jac' j = Some d) ∧
  ∀ j', j ≠ j' → get_col jac' j' = get_col jac j'.
Proof.
  intros Hl0 Hsh Hlr He. unfold probe_sv.
  destruct (perturbed _ j) as [dsv|] eqn:Hp; simpl; [|discriminate].
  destruct (call_residuals _ _ _ _ _ _ _ _ _) as [[r1 e1]|] eqn:Hc;
    simpl; [|discriminate].
  destruct (ew2 _ _ _) as [dres|] eqn:Hd; simpl; [|discriminate].
  destruct (set_col _ _ _) as [jac1|] eqn:Hs; simpl; [|discriminate].
  intros [= <- <- <-].
  destruct (call_residuals_zero_current _ _ _ _ _ _ _ _ He Hc)
    as (Hz & Hl1 & He1).
  assert (Hldres : length dres = length (_sv0 sim)).
  { rewrite <- Hl0. eapply ew2_length; [|exact Hd]. congruence. }
  split; [by eapply set_col_shape|]. split; [congruence|].
  split; [done|]. split.
  - exists dsv, r1, dres. split; [done|]. split.
    + exists res, e, e1. auto.
    + split; [done|]. eapply set_col_get_col; [|exact Hs].
      destruct Hsh as [Hn _]. congruence.
  - intros j' Hj. by eapply set_col_get_col_ne.
Qed.

(** One round of the second loop: the call that it makes. *)
Lemma probe_svdot_probed sim res_0 j jac res e jac' res' e' :
  length res_0 = length (_sv0 sim) →
  shape (length (_sv0 sim)) (length (_sv0 sim)) jac →
  length res = length (_sv0 sim) → probe_exp e →
  probe_svdot (call_residuals c grad_r div_r) sim (_sv0 sim) (_svdot0 sim)
    res_0 j (jac, res, e) = Some (jac', res', e') →
  shape (length (_sv0 sim)) (length (_sv0 sim)) jac' ∧
  length res' = length (_sv0 sim) ∧ probe_exp e' ∧
  (∃ col0 dsvdot r2 d col,
     get_col jac j = Some col0 ∧
     perturbed (_svdot0 sim) j = Some dsvdot ∧
     probed c grad_r div_r sim (_sv0 sim) dsvdot r2 ∧
     ew2 Rminus res_0 r2 = Some d ∧
     ew2 Rplus col0 d = Some col ∧ get_col jac' j = Some col) ∧
  ∀ j', j ≠ j' → get_col jac' j' = get_col jac j'.
Proof.
  intros Hl0 Hsh Hlr He. unfold probe_svdot.
  destruct (perturbed _ j) as [dsvdot|] eqn:Hp; simpl; [|discriminate].
  destruct (call_residuals _ _ _ _ _ _ _ _ _) as [[r1 e1]|] eqn:Hc;
    simpl; [|discriminate].
  destruct (ew2 Rminus _ _) as [dres|] eqn:Hd; simpl; [|discriminate].
  destruct (get_col jac j) as [col0|] eqn:Hg; simpl; [|discriminate].
  destruct (ew2 Rplus _ _) as [new|] eqn:Hn; simpl; [|discriminate].
  destruct (set_col _ _ _) as [jac1|] eqn:Hs; simpl; [|discriminate].
  intros [= <- <- <-].
  destruct (call_residuals_zero_current _ _ _ _ _ _ _ _ He Hc)
    as (Hz & Hl1 & He1).
  assert (Hldres : length dres = length (_sv0 sim)).
  { rewrite <- Hl0. eapply ew2_length; [|exact Hd]. congruence. }
  pose proof (get_col_length _ _ _ Hg) as Hlc.
  destruct Hsh as [Hrows Hcols].
  assert (Hlnew : length new = length jac).
  { rewrite <- Hlc. eapply ew2_length; [|exact Hn]. congruence. }
  split; [by eapply set_col_shape|]. split; [congruence|].
  split; [done|]. split.
  - exists col0, dsvdot, r1, dres, new. split; [done|]. split; [done|].
    split; [exists res, e, e1; auto|]. split; [done|]. split; [done|].
    by eapply set_col_get_col.
  - intros j' Hj. by eapply set_col_get_col_ne.
Qed.

(** The matrix that the analysis builds, in terms of the calls made. *)
Lemma jacobian_probes sim jac :
  jacobian c grad_r div_r sim = Some jac →
  ∃ res_0 e0,
    call_residuals c grad_r div_r 0 (_sv0 sim) (_svdot0 sim)
      (replicate (length (_sv0 sim)) 0) sim expr = Some (res_0, e0) ∧
    zero_current_rows c grad_r div_r sim (_sv0 sim) (_svdot0 sim)
      (replicate (length (_sv0 sim)) 0) res_0 ∧
    ∀ j, (j < length (_sv0 sim))%nat →
      ∃ dsv dsvdot r1 r2 d1 d2 col,
        perturbed (_sv0 sim) j = Some dsv ∧
        perturbed (_svdot0 sim) j = Some dsvdot ∧
        probed c grad_r div_r sim dsv (_svdot0 sim) r1 ∧
        probed c grad_r div_r sim (_sv0 sim) dsvdot r2 ∧
        ew2 Rminus res_0 r1 = Some d1 ∧
        ew2 Rminus res_0 r2 = Some d2 ∧
        ew2 Rplus d1 d2 = Some col ∧
        get_col jac j = Some col.
Proof.
  intros HJ. unfold jacobian, jacobian_on in HJ.
  destruct (call_residuals _ _ _ 0 (_sv0 sim) _ _ _ _)
    as [[res_0 e0]|] eqn:H0; simpl in HJ; [|discriminate].
  exists res_0, e0. split; [reflexivity|].
  assert (Hexpr : probe_exp expr) by done.
  destruct (call_residuals_zero_current _ _ _ _ _ _ _ _ Hexpr H0)
    as (Hz0 & Hl0 & He0).
  split; [exact Hz0|].
  rewrite length_replicate in Hl0.
  destruct (for_each _ (probe_sv _ _ _ _ _) _)
    as [[[jac1 res1] e1]|] eqn:H1; simpl in HJ; [|discriminate].
  destruct (for_each _ (probe_svdot _ _ _ _ _) _)
    as [[[jac2 res2] e2]|] eqn:H2; simpl in HJ; [|discriminate].
  injection HJ as ->.
  set (N := length (_sv0 sim)) in *.
  set (P1 := λ (k : nat) (s : matrix * ndarray * Experiment),
    shape N N s.1.1 ∧ length s.1.2 = N ∧ probe_exp s.2 ∧
    ∀ j, (j < k)%nat →
      ∃ dsv r1 d,
        perturbed (_sv0 sim) j = Some dsv ∧
        probed c grad_r div_r sim dsv (_svdot0 sim) r1 ∧
        ew2 Rminus res_0 r1 = Some d ∧ get_col s.1.1 j = Some d).
  apply (for_each_seq_invariant P1) in H1.
  2: { unfold P1. simpl. split; [apply shape_zeros|].
       split; [done|]. split; [done|]. intros j Hj. lia. }
  2: { intros j [[ja ra] ea] [[jb rb] eb] Hj (Hsh & Hlr & He & Hcols) Hstep.
       simpl in *.
       apply probe_sv_probed in Hstep
         as (Hsh' & Hlr' & He' & (dsv & r1 & d & Hp & Hpr & Hd & Hg) & Hne);
         try done.
       unfold P1. simpl. split; [done|]. split; [done|]. split; [done|].
       intros j' Hj'. destruct (decide (j' = j)) as [->|Hjj].
       - by exists dsv, r1, d.
       - rewrite Hne by done. apply Hcols. lia. }
  destruct H1 as (Hsh1 & Hlr1 & He1 & Hcols1). simpl in *.
  set (P2 := λ (k : nat) (s : matrix * ndarray * Experiment),
    shape N N s.1.1 ∧ length s.1.2 = N ∧ probe_exp s.2 ∧
    (∀ j, (j < k)%nat →
      ∃ dsv dsvdot r1 r2 d1 d2 col,
        perturbed (_sv0 sim) j = Some dsv ∧
        perturbed (_svdot0 sim) j = Some dsvdot ∧
        probed c grad_r div_r sim dsv (_svdot0 sim) r1 ∧
        probed c grad_r div_r sim (_sv0 sim) dsvdot r2 ∧
        ew2 Rminus res_0 r1 = Some d1 ∧
        ew2 Rminus res_0 r2 = Some d2 ∧
        ew2 Rplus d1 d2 = Some col ∧
        get_col s.1.1 j = Some col) ∧
    (∀ j, (k ≤ j < N)%nat →
      ∃ dsv r1 d,
        perturbed (_sv0 sim) j = Some dsv ∧
        probed c grad_r div_r sim dsv (_svdot0 sim) r1 ∧
        ew2 Rminus res_0 r1 = Some d ∧ get_col s.1.1 j = Some d)).
  apply (for_each_seq_invariant P2) in H2.
  2: { unfold P2. simpl. split; [done|]. split; [done|]. split; [done|].
       split.
       - intros j Hj. lia.
       - intros j Hj. apply Hcols1. lia. }
  2: { intros j [[ja ra] ea] [[jb rb] eb] Hj
         (Hsh & Hlr & He & Hdone & Htodo) Hstep.
       simpl in *.
       apply probe_svdot_probed in Hstep
         as (Hsh' & Hlr' & He'
             & (col0 & dsvdot & r2 & d2 & col & Hg0 & Hp2 & Hpr2 & Hd2
                & Hcol & Hg) & Hne); try done.
       unfold P2. simpl. split; [done|]. split; [done|]. split; [done|].
       split.
       - intros j' Hj'. destruct (decide (j' = j)) as [->|Hjj].
         + destruct (Htodo j) as (dsv & r1 & d1 & Hp1 & Hpr1 & Hd1 & Hg1);
             [lia|].
           exists dsv, dsvdot, r1, r2, d1, d2, col.
           split; [done|]. split; [done|]. split; [done|].
           split; [done|]. split; [done|]. split; [done|].
           split; [congruence|done].
         + rewrite Hne by done. apply Hdone. lia.
       - intros j' Hj'. rewrite Hne by lia. apply Htodo. lia. }
  destruct H2 as (_ & _ & _ & Hdone & _). simpl in *.
  intros j Hj. apply Hdone. lia.
Qed.

(** C10.  [bandwidth] takes the simulation only.  It calls [residuals]
    only at [t = 0], under the fake experiment (current mode, C-rate
    units, value zero) and at the stored initial vectors with at most one
    component perturbed: a residual function that agrees with [residuals]
    on those calls gives the same analysis.  And it does make those calls:
    when the analysis returns, the bands and the pattern are those of a
    matrix whose column [j] is the residual of the call at
    [(_sv0, _svdot0)] minus the residual of a call with component [j] of
    [_sv0] perturbed, plus the same difference for [_svdot0]; in each of
    these residuals the two boundary rows are the current-mode rows with
    zero applied current, whatever mode the simulation is later run in. *)
Theorem bandwidth_probes_fixed_experiment (sim : Simulation)
    (call : R → ndarray → ndarray → ndarray → Simulation → Experiment →
            option (ndarray * Experiment)) :
  (∀ sv svdot res e, probe_exp e → probe_point sim sv svdot →
     call 0 sv svdot res sim e
     = call_residuals c grad_r div_r 0 sv svdot res sim e) →
  jacobian_on call sim = jacobian c grad_r div_r sim ∧
  bandwidth_on call sim = bandwidth c grad_r div_r sim ∧
  probe_exp expr ∧
  ∀ lband uband pat,
    bandwidth_on call sim = Some (lband, uband, pat) →
    ∃ jac res_0 e0,
      jacobian c grad_r div_r sim = Some jac ∧
      (lband, uband) = find_bands jac ∧ pat = j_pat jac ∧
      call_residuals c grad_r div_r 0 (_sv0 sim) (_svdot0 sim)
        (replicate (length (_sv0 sim)) 0) sim expr = Some (res_0, e0) ∧
      zero_current_rows c grad_r div_r sim (_sv0 sim) (_svdot0 sim)
        (replicate (length (_sv0 sim)) 0) res_0 ∧
      ∀ j, (j < length (_sv0 sim))%nat →
        ∃ dsv dsvdot r1 r2 d1 d2 col,
          perturbed (_sv0 sim) j = Some dsv ∧
          perturbed (_svdot0 sim) j = Some dsvdot ∧
          probed c grad_r div_r sim dsv (_svdot0 sim) r1 ∧
          probed c grad_r div_r sim (_sv0 sim) dsvdot r2 ∧
          ew2 Rminus res_0 r1 = Some d1 ∧
          ew2 Rminus res_0 r2 = Some d2 ∧
          ew2 Rplus d1 d2 = Some col ∧
          get_col jac j = Some col.
Proof.
  intros Hcall.
  pose proof (jacobian_on_probe_ext c grad_r div_r sim call Hcall) as Hjac.
  assert (Hband : bandwidth_on call sim = bandwidth c grad_r div_r sim).
  { unfold bandwidth, bandwidth_on.
    fold (jacobian c grad_r div_r sim). by rewrite Hjac. }
  split; [exact Hjac|]. split; [exact Hband|]. split; [done|].
  intros lband uband pat Hb. rewrite Hband in Hb.
  destruct (jacobian c grad_r div_r sim) as [jac|] eqn:HJ.
  2: { unfold bandwidth, bandwidth_on in Hb.
       fold (jacobian c grad_r div_r sim) in Hb. rewrite HJ in Hb.
       discriminate. }
  rewrite (bandwidth_of_jacobian _ _ _ _ _ HJ) in Hb.
  injection Hb as <- <- <-.
  destruct (jacobian_probes sim jac HJ) as (res_0 & e0 & H0 & Hz0 & Hcols).
  exists jac, res_0, e0. split; [reflexivity|].
  split; [by destruct (find_bands jac)|]. split; [reflexivity|].
  split; [exact H0|]. split; [exact Hz0|]. exact Hcols.
Qed.

End ProbesClaim.

(** A residual function that raises on every experiment other than the
    fake one gives the same analysis, and the last column of the matrix
    comes from the two probes of the last component. *)
Lemma bandwidth_probes_fixed_experiment_witness :
  let call := λ t sv svdot res sim e,
    if String.eqb (mode e) "current" && String.eqb (units e) "C"
    then call_residuals Example.c Example.grad_r Example.div_r
           t sv svdot res sim e
    else None in
  jacobian_on call Example.sim
  = jacobian Example.c Example.grad_r Example.div_r Example.sim ∧
  bandwidth_on call Example.sim
  = bandwidth Example.c Example.grad_r Example.div_r Example.sim ∧
  ∃ lband uband pat jac res_0 r1 r2 d1 d2 col,
    bandwidth_on call Example.sim = Some (lband, uband, pat) ∧
    jacobian Example.c Example.grad_r Example.div_r Example.sim
      = Some jac ∧
    pat = j_pat jac ∧
    zero_current_rows Example.c Example.grad_r Example.div_r Example.sim
      Example.sv Example.svdot (replicate 7 0) res_0 ∧
    probed Example.c Example.grad_r Example.div_r Example.sim
      [0.5; 0.5; 0; 0; 0.5; 0.5; 4.5 + step 4.5] Example.svdot r1 ∧
    probed Example.c Example.grad_r Example.div_r Example.sim
      Example.sv [0; 0; 0; 0; 0; 0; 0 + step 0] r2 ∧
    ew2 Rminus res_0 r1 = Some d1 ∧
    ew2 Rminus res_0 r2 = Some d2 ∧
    ew2 Rplus d1 d2 = Some col ∧
    get_col jac 6 = Some col.
Proof.
  intros call.
  destruct (bandwidth_probes_fixed_experiment Example.c Example.grad_r
              Example.div_r Example.sim call) as (HJ & HB & _ & Hprobes).
  - intros sv svdot res e (Hm & Hu & _) _. unfold call.
    rewrite Hm, Hu. reflexivity.
  - split; [exact HJ|]. split; [exact HB|].
    assert (Hjac : ∃ jac,
      jacobian Example.c Example.grad_r Example.div_r Example.sim
        = Some jac).
    { eexists. run_probe. reflexivity. }
    destruct Hjac as (jac & Hjac).
    pose proof (bandwidth_of_jacobian _ _ _ _ _ Hjac) as Hb.
    rewrite <- HB in Hb.
    destruct (Hprobes _ _ _ Hb)
      as (jac' & res_0 & e0 & Hjac' & _ & Hpat & _ & Hz0 & Hcols).
    destruct (Hcols 6%nat)
      as (dsv & dsvdot & r1 & r2 & d1 & d2 & col & Hp1 & Hp2 & Hpr1 & Hpr2
          & Hd1 & Hd2 & Hcol & Hg); [simpl; lia|].
    injection Hp1 as <-. injection Hp2 as <-.
    eexists _, _, _, jac', res_0, r1, r2, d1, d2, col.
    split; [exact Hb|]. split; [exact Hjac'|]. split; [exact Hpat|].
    split; [exact Hz0|]. split; [exact Hpr1|]. split; [exact Hpr2|].
    auto.
Defined.

(** ** The further properties on the concrete simulation *)

Lemma example_covered (k : nat) :
  (k < 7)%nat → written_row Example.sim k.
Proof.
  intros Hk. unfold written_row. simpl.
  do 7 (destruct k as [|k]; [rewrite ?elem_of_cons; auto 10|]). lia.
Qed.

Lemma current_mode_rows_witness :
  ∃ e' r h' phi_ca sdot_an sdot_ca h1 res1,
    Example.run Example.sim (Example.experiment "current" "C" (λ _, 2))
      = Some ((e', r), h') ∧
    domain_equations Example.c Example.grad_r Example.div_r 0 1 2
      Example.sim Example.mem = Some ((phi_ca, sdot_an, sdot_ca), h1) ∧
    h1 !! 2%nat = Some res1 ∧
    h' = <[2%nat :=
            <[3%nat := reaction_charge Example.c Example.anode sdot_an
                       + 2 * 1 / 1]>
              (<[6%nat := reaction_charge Example.c Example.cathode sdot_ca
                          - 2 * 1 / 1]> res1)]> h1.
Proof.
  eexists _, _, _.
  edestruct (current_mode_rows Example.c Example.grad_r Example.div_r
               0 0 1 2 Example.sim
               (Example.experiment "current" "C" (λ _, 2)) Example.mem)
    as (phi_ca & sa & sc & h1 & res1 & Hd & Hr & Hh & _).
  - reflexivity.
  - by right.
  - run_model. reflexivity.
  - exists phi_ca, sa, sc, h1, res1.
    split; [run_model; reflexivity|]. split; [exact Hd|].
    split; [exact Hr|]. exact Hh.
Defined.

Lemma power_mode_rows_witness :
  ∃ e' r h' phi_ca sdot_an sdot_ca h1 res1 ev,
    Example.run Example.sim (Example.experiment "power" "W" (λ _, 3))
      = Some ((e', r), h') ∧
    domain_equations Example.c Example.grad_r Example.div_r 0 1 2
      Example.sim Example.mem = Some ((phi_ca, sdot_an, sdot_ca), h1) ∧
    h1 !! 2%nat = Some res1 ∧ events e' = Some ev ∧
    h' = <[2%nat := <[3%nat := sdot_an * 1 * 1 + sdot_ca * 1 * 1]>
                      (<[6%nat := power_W ev - 3]> res1)]> h1.
Proof.
  eexists _, _, _.
  edestruct (power_mode_rows Example.c Example.grad_r Example.div_r
               0 0 1 2 Example.sim
               (Example.experiment "power" "W" (λ _, 3)) Example.mem)
    as (phi_ca & sa & sc & h1 & res1 & ev & Hd & Hr & Hev & _ & Hh).
  - reflexivity.
  - run_model. reflexivity.
  - exists phi_ca, sa, sc, h1, res1, ev.
    split; [run_model; reflexivity|]. auto.
Defined.

Lemma voltage_power_differ_at_cathode_row_witness :
  ∃ ev' rv hv ep' rp hp res_v res_p,
    Example.run Example.sim (Example.experiment "voltage" "V" (λ _, 4))
      = Some ((ev', rv), hv) ∧
    Example.run Example.sim (Example.experiment "power" "W" (λ _, 3))
      = Some ((ep', rp), hp) ∧
    hv !! 2%nat = Some res_v ∧ hp !! 2%nat = Some res_p ∧
    ∀ k, k ≠ 6%nat → res_v !! k = res_p !! k.
Proof.
  eexists _, _, _, _, _, _.
  edestruct (voltage_power_differ_at_cathode_row Example.c Example.grad_r
               Example.div_r 0 0 1 2 Example.sim
               (Example.experiment "voltage" "V" (λ _, 4))
               (Example.experiment "power" "W" (λ _, 3)) Example.mem)
    as (_ & res_v & res_p & Hv & Hp & _ & Hk).
  - reflexivity.
  - reflexivity.
  - run_model. reflexivity.
  - run_model. reflexivity.
  - exists res_v, res_p.
    split; [run_model; reflexivity|]. split; [run_model; reflexivity|].
    auto.
Defined.

Lemma events_depend_on_state_only_witness :
  ∃ e1' r1 h1' e2' r2 h2',
    Example.run Example.sim (Example.experiment "voltage" "V" (λ _, 4))
      = Some ((e1', r1), h1') ∧
    residuals Example.c Example.grad_r Example.div_r 0 1 0 0 Example.sim
      (Example.experiment "current" "A" (λ _, 5))
      [Example.res; Example.sv] = Some ((e2', r2), h2') ∧
    events e1' = events e2' ∧ r1 = r2.
Proof.
  eexists _, _, _, _, _, _.
  split; [run_model; reflexivity|]. split; [run_model; reflexivity|].
  eapply (events_depend_on_state_only Example.c Example.grad_r
            Example.div_r 0 Example.sim Example.sv 0 1 2
            (Example.experiment "voltage" "V" (λ _, 4)) Example.mem
            _ _ _ 1 0 0 (Example.experiment "current" "A" (λ _, 5))
            [Example.res; Example.sv]);
    [reflexivity | reflexivity | run_model; reflexivity
     | run_model; reflexivity].
Defined.

Lemma anode_ground_row_witness :
  ∃ e' r h' res',
    Example.run Example.sim (Example.experiment "current" "A" (λ _, 5))
      = Some ((e', r), h') ∧
    h' !! 2%nat = Some res' ∧ res' !! 2%nat = Some 0.
Proof.
  eexists _, _, _.
  edestruct (anode_ground_row Example.c Example.grad_r Example.div_r
               0 0 1 2 Example.sim
               (Example.experiment "current" "A" (λ _, 5)) Example.mem
               Example.sv)
    as (res' & phi_an & Hr & Hsv & Hrow).
  - solve_notin.
  - discriminate.
  - discriminate.
  - reflexivity.
  - run_model. reflexivity.
  - exists res'. split; [run_model; reflexivity|]. split; [exact Hr|].
    simpl in Hsv. injection Hsv as <-. exact Hrow.
Defined.

Lemma residuals_fully_populates_witness :
  ∃ out,
    Example.run Example.sim (Example.experiment "current" "C" (λ _, 2))
      = Some out ∧
    residuals Example.c Example.grad_r Example.div_r 0 0 1 2 Example.sim
      (Example.experiment "current" "C" (λ _, 2))
      [Example.sv; Example.svdot; replicate 7 0] = Some out.
Proof.
  destruct (Example.run Example.sim
              (Example.experiment "current" "C" (λ _, 2)))
    as [[[e' r] h']|] eqn:Hrun.
  - exists (e', r, h'). split; [reflexivity|].
    apply (residuals_fully_populates Example.c Example.grad_r Example.div_r
             0 0 1 2 Example.sim _ Example.mem Example.res
             (replicate 7 0) e' r h').
    + discriminate.
    + discriminate.
    + right. left. split; reflexivity.
    + apply example_covered.
    + reflexivity.
    + reflexivity.
    + exact Hrun.
  - exfalso. revert Hrun. run_model. discriminate.
Defined.

Lemma residuals_no_radial_nodes_witness :
  residuals Example.c Example.grad_r Example.div_r 0 0 1 2
    {| bat := bat Example.sim; el := el Example.sim;
       an := {| ptr_phi_ed := 2; r_ptr_Li_ed := [];
                Li_max := 30; alpha_a := 0.5; alpha_c := 0.5;
                A_s := 1; thick := 1; r := []; rm := []; rp := [];
                get_Eeq := λ _ _, 0; get_i0 := λ _ _ _, 1;
                get_Ds := λ xs _, xs |};
       ca := Example.cathode; _t0 := 0; _flags_post := false;
       _sv0 := Example.sv; _svdot0 := Example.svdot |}
    (Example.experiment "voltage" "V" (λ _, 4)) Example.mem = None.
Proof.
  apply residuals_no_radial_nodes. left. reflexivity.
Defined.

Lemma residuals_bounds_witness :
  ∃ e' r h',
    Example.run Example.sim (Example.experiment "voltage" "V" (λ _, 4))
      = Some ((e', r), h') ∧
    (6 < length Example.sv)%nat ∧ (6 < length Example.res)%nat.
Proof.
  eexists _, _, _.
  edestruct (residuals_bounds Example.c Example.grad_r Example.div_r
               0 0 1 2 Example.sim
               (Example.experiment "voltage" "V" (λ _, 4)) Example.mem
               Example.sv Example.svdot Example.res)
    as (_ & _ & Hc & _ & _ & Hsup).
  - reflexivity.
  - reflexivity.
  - reflexivity.
  - run_model. reflexivity.
  - split; [run_model; reflexivity|]. split; [exact Hc|].
    apply Hsup. right. right. left. reflexivity.
Defined.

Lemma bandwidth_shape_witness :
  ∃ lband uband pat,
    bandwidth Example.c Example.grad_r Example.div_r Example.sim
      = Some (lband, uband, pat) ∧
    shape 7 7 pat ∧ (lband ≤ 6)%nat ∧ (uband ≤ 6)%nat.
Proof.
  assert (HJ : ∃ jac,
    jacobian Example.c Example.grad_r Example.div_r Example.sim = Some jac).
  { eexists. run_probe. reflexivity. }
  destruct HJ as (jac & HJ).
  pose proof (bandwidth_of_jacobian _ _ _ _ _ HJ) as Hb.
  destruct (bandwidth_shape _ _ _ _ _ _ _ Hb) as (_ & Hs & Hl & Hu & _).
  eexists _, _, _. split; [exact Hb|]. auto.
Defined.

Lemma jacobian_columns_witness :
  ∃ jac d1 d2 col,
    jacobian Example.c Example.grad_r Example.div_r Example.sim = Some jac ∧
    sv_difference Example.c Example.grad_r Example.div_r Example.sim 6
      = Some d1 ∧
    svdot_difference Example.c Example.grad_r Example.div_r Example.sim 6
      = Some d2 ∧
    ew2 Rplus d1 d2 = Some col ∧ get_col jac 6 = Some col.
Proof.
  assert (HJ : ∃ jac,
    jacobian Example.c Example.grad_r Example.div_r Example.sim = Some jac).
  { eexists. run_probe. reflexivity. }
  destruct HJ as (jac & HJ).
  destruct (jacobian_columns Example.c Example.grad_r Example.div_r
              Example.sim jac example_covered HJ 6%nat)
    as (d1 & d2 & col & H1 & H2 & H3 & H4); [simpl; lia|].
  exists jac, d1, d2, col. auto.
Defined.

(** ** Properties of the hysteresis option *)

(** On an anode, [make_mesh] raises exactly when there is no ['phi_ed']
    pointer; otherwise it places ['hyst'] right after ['phi_ed'], leaves
    every other pointer and the attributes as they are, and ignores
    [pshift]. *)
Theorem make_mesh_anode (pshift : Z) (d : Domain) :
  _name d = "anode"%string →
  (make_mesh pshift d = None ↔ ptr d !! "phi_ed" = None) ∧
  ∀ d', make_mesh pshift d = Some d' →
    (∃ p, ptr d !! "phi_ed" = Some p ∧ ptr d' !! "hyst" = Some (p + 1)%Z) ∧
    (∀ k, k ≠ "hyst"%string → ptr d' !! k = ptr d !! k) ∧
    _name d' = _name d ∧ hyst0 d' = hyst0 d ∧
    make_mesh 0 d = Some d'.
Proof.
  intros Hn. unfold make_mesh. rewrite Hn. simpl.
  destruct (ptr d !! "phi_ed") as [p|] eqn:Hp; simpl.
  - split; [split; discriminate|]. intros d' [= <-]. simpl.
    split; [exists p; split; [done|]; apply lookup_insert_eq|].
    split; [|done]. intros k Hk. by apply lookup_insert_ne.
  - split; [done|]. discriminate.
Qed.

Lemma make_mesh_anode_witness :
  ∃ d', make_mesh 7
          {| _name := "anode"; ptr := {[ "start" := 0%Z; "phi_ed" := 5%Z ]};
             g_hyst := None; M_hyst := None; hyst0 := Some 0.1 |}
        = Some d' ∧
        ptr d' !! "hyst" = Some 6%Z ∧ ptr d' !! "phi_ed" = Some 5%Z.
Proof.
  set (d := {| _name := "anode";
               ptr := {[ "start" := 0%Z; "phi_ed" := 5%Z ]};
               g_hyst := None; M_hyst := None; hyst0 := Some 0.1 |}).
  destruct (make_mesh_anode 7 d eq_refl) as [_ H].
  destruct (make_mesh 7 d) as [d'|] eqn:Hm; [|discriminate Hm].
  exists d'. split; [done|].
  destruct (H d' eq_refl) as ((p & Hp & Hh) & Hk & _).
  assert (Hp5 : ptr d !! "phi_ed" = Some 5%Z) by reflexivity.
  rewrite Hp5 in Hp. injection Hp as <-.
  split; [exact Hh|]. rewrite Hk by discriminate. exact Hp5.
Defined.

(** On a cathode, [make_mesh] never raises: every pointer moves up by one
    and ['hyst'] takes the place [pshift].  When the pointers, ['hyst']
    apart, were distinct and not below [pshift], they stay distinct and
    ['hyst'] is strictly below all of them. *)
Theorem make_mesh_cathode (pshift : Z) (d : Domain) :
  _name d = "cathode"%string →
  ∃ d', make_mesh pshift d = Some d' ∧
    ptr d' !! "hyst" = Some pshift ∧
    (∀ k, k ≠ "hyst"%string →
       ptr d' !! k = (λ v, (v + 1)%Z) <$> ptr d !! k) ∧
    _name d' = _name d ∧ hyst0 d' = hyst0 d ∧
    (injective_ptr (delete "hyst" (ptr d)) →
     (∀ k v, k ≠ "hyst"%string → ptr d !! k = Some v → (pshift ≤ v)%Z) →
     injective_ptr (ptr d') ∧
     ∀ k v, k ≠ "hyst"%string → ptr d' !! k = Some v → (pshift < v)%Z).
Proof.
  intros Hn. unfold make_mesh. rewrite Hn. simpl.
  eexists. split; [reflexivity|]. simpl.
  split; [rewrite lookup_insert_eq; f_equal; lia|].
  assert (Hk : ∀ k, k ≠ "hyst"%string →
            <["hyst" := (0 + pshift)%Z]> ((λ v, (v + 1)%Z) <$> ptr d) !! k
            = (λ v, (v + 1)%Z) <$> ptr d !! k).
  { intros k Hne. rewrite lookup_insert_ne by done. apply lookup_fmap. }
  split; [exact Hk|]. split; [done|]. split; [done|].
  intros Hinj Hlow.
  assert (Hgt : ∀ k v, k ≠ "hyst"%string →
            <["hyst" := (0 + pshift)%Z]> ((λ v, (v + 1)%Z) <$> ptr d) !! k
              = Some v → (pshift < v)%Z).
  { intros k v Hne. rewrite Hk by done.
    destruct (ptr d !! k) as [w|] eqn:Hw; [|discriminate].
    simpl. intros [= <-]. specialize (Hlow k w Hne Hw). lia. }
  split; [|exact Hgt].
  intros k1 k2 v H1 H2.
  destruct (decide (k1 = "hyst"%string)) as [->|Hne1];
    destruct (decide (k2 = "hyst"%string)) as [->|Hne2]; [done| | |].
  - rewrite lookup_insert_eq in H1. injection H1 as <-.
    apply Hgt in H2; [lia|done].
  - rewrite lookup_insert_eq in H2. injection H2 as <-.
    apply Hgt in H1; [lia|done].
  - rewrite Hk in H1, H2 by done.
    destruct (ptr d !! k1) as [w1|] eqn:Hw1; [|discriminate].
    destruct (ptr d !! k2) as [w2|] eqn:Hw2; [|discriminate].
    simpl in H1, H2. injection H1 as <-. injection H2 as H2.
    assert (w1 = w2) as <- by lia.
    apply (Hinj k1 k2 w1); by rewrite lookup_delete_ne.
Qed.

Lemma make_mesh_cathode_witness :
  ∃ d', make_mesh 11
          {| _name := "cathode";
             ptr := {[ "start" := 11%Z; "phi_ed" := 16%Z ]};
             g_hyst := None; M_hyst := None; hyst0 := Some 0.1 |}
        = Some d' ∧
        ptr d' !! "hyst" = Some 11%Z ∧ injective_ptr (ptr d').
Proof.
  set (d := {| _name := "cathode";
               ptr := {[ "start" := 11%Z; "phi_ed" := 16%Z ]};
               g_hyst := None; M_hyst := None; hyst0 := Some 0.1 |}).
  destruct (make_mesh_cathode 11 d eq_refl)
    as (d' & Hm & Hh & _ & _ & _ & Hinj).
  exists d'. split; [exact Hm|]. split; [exact Hh|].
  apply Hinj.
  - intros k1 k2 v H1 H2.
    apply lookup_delete_Some in H1 as [_ H1], H2 as [_ H2].
    simpl in H1, H2.
    apply lookup_insert_Some in H1 as [[<- <-]|[_ H1]];
      apply lookup_insert_Some in H2 as [[<- H2]|[_ H2]];
      rewrite ?lookup_singleton_Some in *;
      try done; try (destruct H1; lia); try (destruct H2; lia).
    destruct H1 as [<- _], H2 as [<- _]. done.
  - intros k v _ H. simpl in H.
    apply lookup_insert_Some in H as [[_ <-]|[_ H]]; [lia|].
    apply lookup_singleton_Some in H as [_ <-]. lia.
Defined.

Lemma py_index_Some (n : nat) (i : Z) (j : nat) :
  py_index n i = Some j ↔
  ((0 ≤ i < Z.of_nat n)%Z ∧ j = Z.to_nat i) ∨
  ((- Z.of_nat n ≤ i < 0)%Z ∧ j = Z.to_nat (Z.of_nat n + i)).
Proof.
  unfold py_index. repeat case_decide; split;
    try (intros [= <-]); try (intros [[? ->]|[? ->]]); auto; try lia;
    try discriminate.
Qed.

(** [sv0] writes [hyst0] at the position ['hyst' - 'start'], counted from
    the end when it is negative, and nothing else; it raises when a pointer
    or the attribute is missing or when the position is outside
    [-n, n). *)
Theorem Hysteresis_sv0_writes (d : Domain) (a : ndarray) :
  (∀ a', Hysteresis_sv0 d a = Some a' →
     ∃ start hyst x j,
       ptr d !! "start" = Some start ∧ ptr d !! "hyst" = Some hyst ∧
       hyst0 d = Some x ∧ py_index (length a) (hyst - start) = Some j ∧
       (j < length a)%nat ∧
       length a' = length a ∧ a' !! j = Some x ∧
       ∀ k, k ≠ j → a' !! k = a !! k) ∧
  (Hysteresis_sv0 d a = None ↔
   ptr d !! "start" = None ∨ ptr d !! "hyst" = None ∨ hyst0 d = None ∨
   ∃ start hyst, ptr d !! "start" = Some start ∧
     ptr d !! "hyst" = Some hyst ∧
     ((hyst - start < - Z.of_nat (length a))%Z ∨
      (Z.of_nat (length a) ≤ hyst - start)%Z)).
Proof.
  unfold Hysteresis_sv0.
  destruct (ptr d !! "start") as [start|]; simpl;
    [|split; [discriminate | split; auto]].
  destruct (hyst0 d) as [x|]; simpl;
    [|split; [discriminate | split; auto]].
  destruct (ptr d !! "hyst") as [hyst|]; simpl;
    [|split; [discriminate | split; auto]].
  destruct (py_index (length a) (hyst - start)) as [j|] eqn:Hj; simpl.
  - assert (Hlt : (j < length a)%nat).
    { apply py_index_Some in Hj as [[? ->]|[? ->]]; lia. }
    split.
    + intros a' [= <-]. exists start, hyst, x, j.
      repeat (split; [done|]). split; [apply length_insert|].
      split; [by apply list_lookup_insert_eq|].
      intros k Hk. by apply list_lookup_insert_ne.
    + split; [discriminate|].
      intros [H|[H|[H|(s & y & [= <-] & [= <-] & Hout)]]]; try discriminate.
      apply py_index_Some in Hj as [[? _]|[? _]]; lia.
  - split; [discriminate|]. split; [|done]. intros _.
    right. right. right. exists start, hyst. repeat (split; [done|]).
    unfold py_index in Hj. repeat case_decide; try discriminate. lia.
Qed.

Lemma Hysteresis_sv0_writes_witness :
  ∃ a', Hysteresis_sv0
          {| _name := "anode";
             ptr := {[ "start" := 0%Z; "hyst" := 2%Z ]};
             g_hyst := None; M_hyst := None; hyst0 := Some 0.1 |}
          [0.5; 0.5; 0] = Some a' ∧
        a' !! 2%nat = Some 0.1 ∧ a' !! 0%nat = Some 0.5.
Proof.
  set (d := {| _name := "anode";
               ptr := {[ "start" := 0%Z; "hyst" := 2%Z ]};
               g_hyst := None; M_hyst := None; hyst0 := Some 0.1 |}).
  destruct (Hysteresis_sv0_writes d [0.5; 0.5; 0]) as [H _].
  assert (Hrun : Hysteresis_sv0 d [0.5; 0.5; 0] = Some [0.5; 0.5; 0.1])
    by reflexivity.
  exists [0.5; 0.5; 0.1]. split; [exact Hrun|].
  destruct (H _ Hrun) as (start & hyst & x & j & _ & _ & _ & _ & _ & _ & _
                          & _).
  split; reflexivity.
Defined.

(** [make_mesh] followed by [sv0] on a cathode whose ['start'] pointer was
    [s]: the shift moves ['start'] to [s + 1] and puts ['hyst'] at
    [pshift], so the write goes to the position [pshift - s - 1].  When the
    domain starts at [pshift], that position is [-1]: the initial
    hysteresis value lands in the last component of the array. *)
Theorem cathode_mesh_then_sv0 (pshift s : Z) (d : Domain) (x : R)
    (a : ndarray) :
  _name d = "cathode"%string →
  ptr d !! "start" = Some s → hyst0 d = Some x →
  ∃ d', make_mesh pshift d = Some d' ∧
    Hysteresis_sv0 d' a
    = (j ← py_index (length a) (pshift - s - 1); Some (<[j := x]> a)) ∧
    (s = pshift → a ≠ [] →
     Hysteresis_sv0 d' a = Some (<[(length a - 1)%nat := x]> a)).
Proof.
  intros Hn Hs Hx. unfold make_mesh. rewrite Hn. simpl.
  eexists. split; [reflexivity|].
  match goal with |- Hysteresis_sv0 ?d1 a = _ ∧ _ => set (d' := d1) end.
  assert (Hrun : Hysteresis_sv0 d' a
    = (j ← py_index (length a) (pshift - s - 1); Some (<[j := x]> a))).
  { unfold Hysteresis_sv0, d'. simpl.
    assert (Hne : ∀ (m : gmap string Z) v,
              <["hyst" := v]> m !! "start" = m !! "start")
      by (intros; by apply lookup_insert_ne).
    rewrite Hne, lookup_fmap, Hs. simpl. rewrite Hx. simpl.
    rewrite lookup_insert_eq. simpl.
    by replace (0 + pshift - (s + 1))%Z with (pshift - s - 1)%Z by lia. }
  split; [exact Hrun|]. intros -> Hne. rewrite Hrun.
  assert (Hlen : (0 < length a)%nat) by (destruct a; [done | simpl; lia]).
  assert (Hj : py_index (length a) (pshift - pshift - 1)
               = Some (length a - 1)%nat).
  { apply py_index_Some. right. split; [lia|]. lia. }
  by rewrite Hj.
Qed.

Lemma cathode_mesh_then_sv0_witness :
  ∃ d', make_mesh 11
          {| _name := "cathode";
             ptr := {[ "start" := 11%Z; "phi_ed" := 16%Z ]};
             g_hyst := None; M_hyst := None; hyst0 := Some 0.1 |}
        = Some d' ∧
        Hysteresis_sv0 d' [0.5; 0.5; 4] = Some [0.5; 0.5; 0.1].
Proof.
  set (d := {| _name := "cathode";
               ptr := {[ "start" := 11%Z; "phi_ed" := 16%Z ]};
               g_hyst := None; M_hyst := None; hyst0 := Some 0.1 |}).
  destruct (cathode_mesh_then_sv0 11 11 d 0.1 [0.5; 0.5; 4]
              eq_refl eq_refl eq_refl) as (d' & Hm & _ & Hlast).
  exists d'. split; [exact Hm|]. apply Hlast; [reflexivity|discriminate].
Defined.

(** ** Properties of the solution objects *)

(** [dict_fill] raises exactly when one of the seven keys is missing.
    Filling from a dictionary and writing the solution back gives the
    seven entries of that dictionary and no other key; the simulation, the
    experiment and [postvars] are kept. *)
Theorem dict_fill_to_dict (s : Solution) (d : gmap string pyval) :
  (dict_fill s d = None ↔ ∃ k, k ∈ solution_keys ∧ d !! k = None) ∧
  ∀ s', dict_fill s d = Some s' →
    _sim s' = _sim s ∧ _exp s' = _exp s ∧ postvars s' = postvars s ∧
    ∃ d', to_dict s' = Some d' ∧
      (∀ k, k ∈ solution_keys → d' !! k = d !! k) ∧
      (∀ k, k ∉ solution_keys → d' !! k = None).
Proof.
  unfold dict_fill, solution_keys.
  destruct (d !! "t") as [t|] eqn:Ht; simpl.
  2: { split; [|discriminate]. split; [|done]. intros _. exists "t"%string.
       split; [|done]. rewrite !elem_of_cons. auto. }
  destruct (d !! "y") as [y|] eqn:Hy; simpl.
  2: { split; [|discriminate]. split; [|done]. intros _. exists "y"%string.
       split; [|done]. rewrite !elem_of_cons. auto. }
  destruct (d !! "ydot") as [ydot|] eqn:Hyd; simpl.
  2: { split; [|discriminate]. split; [|done]. intros _.
       exists "ydot"%string. split; [|done]. rewrite !elem_of_cons. auto. }
  destruct (d !! "success") as [su|] eqn:Hsu; simpl.
  2: { split; [|discriminate]. split; [|done]. intros _.
       exists "success"%string. split; [|done].
       rewrite !elem_of_cons. auto 10. }
  destruct (d !! "onroot") as [onr|] eqn:Hon; simpl.
  2: { split; [|discriminate]. split; [|done]. intros _.
       exists "onroot"%string. split; [|done].
       rewrite !elem_of_cons. auto 10. }
  destruct (d !! "message") as [me|] eqn:Hme; simpl.
  2: { split; [|discriminate]. split; [|done]. intros _.
       exists "message"%string. split; [|done].
       rewrite !elem_of_cons. auto 10. }
  destruct (d !! "solvetime") as [st|] eqn:Hst; simpl.
  2: { split; [|discriminate]. split; [|done]. intros _.
       exists "solvetime"%string. split; [|done].
       rewrite !elem_of_cons. auto 10. }
  split.
  { split; [discriminate|]. intros (k & Hk & Hnone).
    rewrite !elem_of_cons, elem_of_nil in Hk.
    destruct Hk as [->|[->|[->|[->|[->|[->|[->|[]]]]]]]]; congruence. }
  intros s' [= <-]. simpl. repeat (split; [done|]).
  eexists. split; [reflexivity|]. split.
  - intros k Hk. rewrite !elem_of_cons, elem_of_nil in Hk.
    destruct Hk as [->|[->|[->|[->|[->|[->|[->|[]]]]]]]];
      by simplify_map_eq.
  - intros k Hk. rewrite !elem_of_cons, elem_of_nil in Hk.
    rewrite !lookup_insert_ne by (intros <-; tauto). apply lookup_empty.
Qed.

Lemma dict_fill_to_dict_witness :
  ∃ s' d',
    dict_fill (Solution_init Example.sim ∅)
      {[ "t" := PArr [0; 1]; "y" := PMat [Example.sv; Example.sv];
         "ydot" := PMat [Example.svdot; Example.svdot];
         "success" := PBool true; "onroot" := PBool false;
         "message" := PStr "ok"; "solvetime" := PFloat 0.5;
         "note" := PStr "extra" ]} = Some s' ∧
    to_dict s' = Some d' ∧
    d' !! "solvetime" = Some (PFloat 0.5) ∧ d' !! "note" = None.
Proof.
  set (d := {[ "t" := PArr [0; 1]; "y" := PMat [Example.sv; Example.sv];
         "ydot" := PMat [Example.svdot; Example.svdot];
         "success" := PBool true; "onroot" := PBool false;
         "message" := PStr "ok"; "solvetime" := PFloat 0.5;
         "note" := PStr "extra" ]} : gmap string pyval).
  destruct (dict_fill_to_dict (Solution_init Example.sim ∅) d) as [_ H].
  destruct (dict_fill (Solution_init Example.sim ∅) d) as [s'|] eqn:Hf.
  - destruct (H s' eq_refl) as (_ & _ & _ & d' & Hd' & Hin & Hout).
    exists s', d'. split; [reflexivity|]. split; [exact Hd'|]. split.
    + rewrite Hin by (unfold solution_keys; rewrite !elem_of_cons; auto 10).
      unfold d. by simplify_map_eq.
    + apply Hout. unfold solution_keys.
      rewrite !elem_of_cons, elem_of_nil.
      intros [?|[?|[?|[?|[?|[?|[?|[]]]]]]]]; discriminate.
  - exfalso. unfold dict_fill, d in Hf. by simplify_map_eq.
Defined.

(** Writing a solution to a dictionary and filling it back gives the same
    solution. *)
Theorem to_dict_dict_fill (s : Solution) (d : gmap string pyval) :
  to_dict s = Some d → dict_fill s d = Some s.
Proof.
  destruct s as [sim exp t y ydot su onr me st pv]. unfold to_dict. simpl.
  destruct t as [t|]; simpl; [|discriminate].
  destruct y as [y|]; simpl; [|discriminate].
  destruct ydot as [ydot|]; simpl; [|discriminate].
  destruct su as [su|]; simpl; [|discriminate].
  destruct onr as [onr|]; simpl; [|discriminate].
  destruct me as [me|]; simpl; [|discriminate].
  destruct st as [st|]; simpl; [|discriminate].
  intros [= <-]. unfold dict_fill. by simplify_map_eq.
Qed.

Lemma to_dict_dict_fill_witness :
  let s := ida_fill (Solution_init Example.sim ∅)
             {| values_t := PArr [0; 1];
                values_y := PMat [Example.sv; Example.sv];
                values_ydot := PMat [Example.svdot; Example.svdot];
                flag := 0; roots_t := PNone; sol_message := PStr "ok" |}
             (PFloat 0.5) in
  ∃ d, to_dict s = Some d ∧ dict_fill s d = Some s.
Proof.
  intros s. eexists. split; [reflexivity|].
  apply to_dict_dict_fill. reflexivity.
Defined.

(** A solution that was never filled cannot be written to a dictionary:
    [__init__] leaves [_solvetime] unassigned.  After [ida_fill] it can,
    with [success] true exactly for a solver flag that is not negative and
    [onroot] true exactly when the solver reports a root time. *)
Theorem fresh_solution_to_dict (sim : Simulation) (exp : gmap string pyval)
    (sol : SolverReturn) (solvetime : pyval) :
  to_dict (Solution_init sim exp) = None ∧
  ∃ d, to_dict (ida_fill (Solution_init sim exp) sol solvetime) = Some d ∧
    d !! "solvetime" = Some solvetime ∧
    d !! "t" = Some (values_t sol) ∧
    (d !! "success" = Some (PBool true) ↔ (0 ≤ flag sol)%Z) ∧
    (d !! "success" = Some (PBool false) ↔ (flag sol < 0)%Z) ∧
    (d !! "onroot" = Some (PBool true) ↔ roots_t sol ≠ PNone).
Proof.
  split; [reflexivity|]. eexists. split; [reflexivity|].
  split; [by simplify_map_eq|]. split; [by simplify_map_eq|].
  split; [|split].
  - simplify_map_eq. case_decide; split; intros; (done || lia).
  - simplify_map_eq. case_decide; split; intros; (done || lia).
  - simplify_map_eq. destruct (roots_t sol); simpl; split; done.
Qed.

(** ** Properties of the verification checks *)

Lemma foldl_Rmin_ge (l : ndarray) (x c : R) :
  c <= foldl Rmin x l ↔ c <= x ∧ Forall (λ y, c <= y) l.
Proof.
  revert x. induction l as [|y l IH]; intros x; simpl.
  - split; [intros H; split; [done | constructor] | by intros [H _]].
  - rewrite IH, Forall_cons. unfold Rmin.
    destruct (Rle_dec x y); split; intros; destruct_and?;
      repeat split; try done; lra.
Qed.

Lemma foldl_Rmax_le (l : ndarray) (x c : R) :
  foldl Rmax x l <= c ↔ x <= c ∧ Forall (λ y, y <= c) l.
Proof.
  revert x. induction l as [|y l IH]; intros x; simpl.
  - split; [intros H; split; [done | constructor] | by intros [H _]].
  - rewrite IH, Forall_cons. unfold Rmax.
    destruct (Rle_dec x y); split; intros; destruct_and?;
      repeat split; try done; lra.
Qed.

(** The minimum and the maximum of an array are within the tolerance
    exactly when every component is. *)
Lemma min_max_within (a : ndarray) (mn mx : R) :
  np_min a = Some mn → np_max a = Some mx →
  (bool_decide (0.995 <= mn) && bool_decide (mx <= 1.005) = true ↔
   within_half_percent a).
Proof.
  destruct a as [|x a]; [discriminate|]. simpl. intros [= <-] [= <-].
  rewrite andb_true_iff, !bool_decide_eq_true.
  rewrite foldl_Rmin_ge, foldl_Rmax_le. unfold within_half_percent.
  rewrite Forall_cons. split.
  - intros [[H1 H2] [H3 H4]]. split; [lra|].
    rewrite Forall_forall in *. intros y Hy.
    specialize (H2 y Hy). specialize (H4 y Hy). lra.
  - intros [H1 H2]. rewrite Forall_forall in H2.
    repeat split; try lra; apply Forall_forall; intros y Hy;
      specialize (H2 y Hy); lra.
Qed.

Lemma np_min_max_Some (a : ndarray) :
  a ≠ [] → ∃ mn mx, np_min a = Some mn ∧ np_max a = Some mx.
Proof. destruct a; [done|]. intros _. simpl. eauto. Qed.

Section VerifyClaims.

Variable c : Constants.
Variable post : Solution → option (gmap string pyval).

(** [CVSolution.verify] raises on a solution without saved time points, and
    whenever it returns, its value is [True] exactly when, at every saved
    time, the cathode potential is within half a percent of [V_ext] and
    each electrode current is within half a percent of the external
    current. *)
Theorem CVSolution_verify_checks (s : Solution) :
  (_y s = Some (PMat []) → CVSolution_verify c post s = None) ∧
  ∀ b, CVSolution_verify c post s = Some b →
    ∃ pv V_ext y V_mod i_mod sdot_an sdot_ca r_an r_ca,
      (if decide (postvars s = ∅) then post s else Some (postvars s))
        = Some pv ∧
      get_float (_exp s) "V_ext" = Some V_ext ∧
      _y s = Some (PMat y) ∧
      get_col y (ptr_phi_ed (ca (_sim s))) = Some V_mod ∧
      get_arr pv "i_ext" = Some i_mod ∧
      get_arr pv "sdot_an" = Some sdot_an ∧
      get_arr pv "sdot_ca" = Some sdot_ca ∧
      ew2 Rdiv
        (map (λ x, (- x) * A_s (an (_sim s)) * thick (an (_sim s)) * c_F c)
           sdot_an) i_mod = Some r_an ∧
      ew2 Rdiv
        (map (λ x, x * A_s (ca (_sim s)) * thick (ca (_sim s)) * c_F c)
           sdot_ca) i_mod = Some r_ca ∧
      V_mod ≠ [] ∧ r_an ≠ [] ∧ r_ca ≠ [] ∧
      (b = true ↔
       within_half_percent (map (λ v, v / V_ext) V_mod) ∧
       within_half_percent r_an ∧ within_half_percent r_ca).
Proof.
  unfold CVSolution_verify. split.
  - intros Hy. rewrite Hy.
    destruct (if decide (postvars s = ∅) then post s else Some (postvars s));
      simpl; [|done].
    destruct (get_float _ _); simpl; [|done].
    destruct (get_arr _ "i_ext"); simpl; [|done].
    destruct (get_arr _ "sdot_an"); simpl; [|done].
    by destruct (get_arr _ "sdot_ca").
  - intros b.
    destruct (if decide (postvars s = ∅) then post s else Some (postvars s))
      as [pv|] eqn:E1; simpl; [|discriminate].
    destruct (get_float _ _) as [V_ext|] eqn:E2; simpl; [|discriminate].
    destruct (_y s) as [[| | | | |y]|] eqn:Ey; simpl; try discriminate.
    destruct (get_col _ _) as [V_mod|] eqn:E3; simpl; [|discriminate].
    destruct (get_arr pv "i_ext") as [i_mod|] eqn:E4; simpl; [|discriminate].
    destruct (get_arr pv "sdot_an") as [sdot_an|] eqn:E5; simpl; [|discriminate].
    destruct (get_arr pv "sdot_ca") as [sdot_ca|] eqn:E6; simpl; [|discriminate].
    destruct (np_min (map _ V_mod)) as [c1|] eqn:H1; simpl; [|discriminate].
    destruct (np_max (map _ V_mod)) as [c2|] eqn:H2; simpl; [|discriminate].
    destruct (ew2 Rdiv (map (λ x, (- x) * _ * _ * _) sdot_an) i_mod)
      as [r_an|] eqn:Han; simpl; [|discriminate].
    destruct (np_min r_an) as [c3|] eqn:H3; simpl; [|discriminate].
    destruct (np_max r_an) as [c4|] eqn:H4; simpl; [|discriminate].
    destruct (ew2 Rdiv (map _ sdot_ca) i_mod)
      as [r_ca|] eqn:Hca; simpl; [|discriminate].
    destruct (np_min r_ca) as [c5|] eqn:H5; simpl; [|discriminate].
    destruct (np_max r_ca) as [c6|] eqn:H6; simpl; [|discriminate].
    intros [= <-].
    exists pv, V_ext, y, V_mod, i_mod, sdot_an, sdot_ca, r_an, r_ca.
    repeat (split; [done|]).
    split; [by intros ->|]. split; [by intros ->|]. split; [by intros ->|].
    rewrite <- (min_max_within _ _ _ H1 H2), <- (min_max_within _ _ _ H3 H4),
            <- (min_max_within _ _ _ H5 H6).
    rewrite !andb_true_r, !andb_true_iff. tauto.
Qed.

(** Whenever [CCSolution.verify] returns, time points were saved and its
    value is [True] exactly when, at every saved time, the model current
    and each electrode current are within half a percent of the applied
    current density [C_rate*cap/area]. *)
Theorem CCSolution_verify_checks (s : Solution) :
  ∀ b, CCSolution_verify c post s = Some b →
    ∃ pv C_rate i_mod sdot_an sdot_ca,
      (if decide (postvars s = ∅) then post s else Some (postvars s))
        = Some pv ∧
      get_float (_exp s) "C_rate" = Some C_rate ∧
      get_arr pv "i_ext" = Some i_mod ∧
      get_arr pv "sdot_an" = Some sdot_an ∧
      get_arr pv "sdot_ca" = Some sdot_ca ∧
      i_mod ≠ [] ∧ sdot_an ≠ [] ∧ sdot_ca ≠ [] ∧
      let i_ext := C_rate * cap (bat (_sim s)) / area (bat (_sim s)) in
      (b = true ↔
       within_half_percent (map (λ v, v / i_ext) i_mod) ∧
       within_half_percent
         (map (λ x, (- x) * A_s (an (_sim s)) * thick (an (_sim s)) * c_F c
                    / i_ext) sdot_an) ∧
       within_half_percent
         (map (λ x, x * A_s (ca (_sim s)) * thick (ca (_sim s)) * c_F c
                    / i_ext) sdot_ca)).
Proof.
  unfold CCSolution_verify. intros b.
  destruct (if decide (postvars s = ∅) then post s else Some (postvars s))
    as [pv|] eqn:E7; simpl; [|discriminate].
  destruct (get_float _ _) as [C_rate|] eqn:E8; simpl; [|discriminate].
  destruct (get_arr pv "i_ext") as [i_mod|] eqn:E9; simpl; [|discriminate].
  destruct (get_arr pv "sdot_an") as [sdot_an|] eqn:E10; simpl; [|discriminate].
  destruct (get_arr pv "sdot_ca") as [sdot_ca|] eqn:E11; simpl; [|discriminate].
  destruct (np_min (map _ i_mod)) as [c1|] eqn:H1; simpl; [|discriminate].
  destruct (np_max (map _ i_mod)) as [c2|] eqn:H2; simpl; [|discriminate].
  destruct (np_min (map _ (map _ sdot_an))) as [c3|] eqn:H3; simpl;
    [|discriminate].
  destruct (np_max (map _ (map _ sdot_an))) as [c4|] eqn:H4; simpl;
    [|discriminate].
  destruct (np_min (map _ (map _ sdot_ca))) as [c5|] eqn:H5; simpl;
    [|discriminate].
  destruct (np_max (map _ (map _ sdot_ca))) as [c6|] eqn:H6; simpl;
    [|discriminate].
  intros [= <-]. exists pv, C_rate, i_mod, sdot_an, sdot_ca.
  repeat (split; [done|]).
  split; [by intros ->|]. split; [by intros ->|]. split; [by intros ->|].
  rewrite map_map in H3, H4, H5, H6.
  rewrite <- (min_max_within _ _ _ H1 H2), <- (min_max_within _ _ _ H3 H4),
          <- (min_max_within _ _ _ H5 H6).
  rewrite !andb_true_r, !andb_true_iff. tauto.
Qed.

End VerifyClaims.

Lemma CVSolution_verify_checks_witness :
  ∃ b, CVSolution_verify Example.c (λ _, Some example_postvars)
         example_cv_solution = Some b ∧
    ∃ pv V_ext y V_mod i_mod sdot_an sdot_ca r_an r_ca,
      Some example_postvars = Some pv ∧
      get_float (_exp example_cv_solution) "V_ext" = Some V_ext ∧
      _y example_cv_solution = Some (PMat y) ∧
      get_col y 6 = Some V_mod ∧
      get_arr pv "i_ext" = Some i_mod ∧
      get_arr pv "sdot_an" = Some sdot_an ∧
      get_arr pv "sdot_ca" = Some sdot_ca ∧
      ew2 Rdiv (map (λ x, (- x) * 1 * 1 * 96485330) sdot_an) i_mod
        = Some r_an ∧
      ew2 Rdiv (map (λ x, x * 1 * 1 * 96485330) sdot_ca) i_mod
        = Some r_ca ∧
      V_mod ≠ [] ∧ r_an ≠ [] ∧ r_ca ≠ [] ∧
      (b = true ↔
       within_half_percent (map (λ v, v / V_ext) V_mod) ∧
       within_half_percent r_an ∧ within_half_percent r_ca).
Proof.
  eexists. split; [reflexivity|].
  apply (proj2 (CVSolution_verify_checks Example.c
                  (λ _, Some example_postvars) example_cv_solution)).
  reflexivity.
Defined.

Lemma example_postvars_nonempty : example_postvars ≠ ∅.
Proof. unfold example_postvars. apply insert_non_empty. Qed.

Lemma CCSolution_verify_checks_witness :
  ∃ b, CCSolution_verify Example.c (λ _, None) example_cc_solution
         = Some b ∧
    ∃ pv C_rate i_mod sdot_an sdot_ca,
      Some example_postvars = Some pv ∧
      get_float (_exp example_cc_solution) "C_rate" = Some C_rate ∧
      get_arr pv "i_ext" = Some i_mod ∧
      get_arr pv "sdot_an" = Some sdot_an ∧
      get_arr pv "sdot_ca" = Some sdot_ca ∧
      i_mod ≠ [] ∧ sdot_an ≠ [] ∧ sdot_ca ≠ [] ∧
      let i_ext := C_rate * 1 / 1 in
      (b = true ↔
       within_half_percent (map (λ v, v / i_ext) i_mod) ∧
       within_half_percent
         (map (λ x, (- x) * 1 * 1 * 96485330 / i_ext) sdot_an) ∧
       within_half_percent
         (map (λ x, x * 1 * 1 * 96485330 / i_ext) sdot_ca)).
Proof.
  assert (Hrun : ∃ b, CCSolution_verify Example.c (λ _, None)
                        example_cc_solution = Some b).
  { unfold CCSolution_verify.
    rewrite decide_False by apply example_postvars_nonempty.
    eexists. reflexivity. }
  destruct Hrun as (b & Hrun). exists b. split; [exact Hrun|].
  destruct (CCSolution_verify_checks Example.c (λ _, None)
              example_cc_solution b Hrun)
    as (pv & C_rate & i_mod & sdot_an & sdot_ca & Hpv & H).
  rewrite decide_False in Hpv by apply example_postvars_nonempty.
  exists pv, C_rate, i_mod, sdot_an, sdot_ca. split; [exact Hpv|exact H].
Defined.

(** ** Properties of the exit handler *)

(** [register_atexit] never records what it registers: [_registered] keeps
    its value over any sequence of calls, and every call whose function is
    not in it registers the function with the interpreter, also a function
    that an earlier call registered.  From the initial class state, where
    [_registered] is empty, that is every call. *)
Theorem register_atexit_every_call (funcs : list nat) (s : ExitState) :
  let s' := foldl (λ s f, register_atexit f s) s funcs in
  _registered s' = _registered s ∧
  atexit s' = atexit s ++ filter (λ f, f ∉ _registered s) funcs ∧
  (_registered s = [] → atexit s' = atexit s ++ funcs).
Proof.
  assert (H : ∀ funcs s,
    let s' := foldl (λ s f, register_atexit f s) s funcs in
    _registered s' = _registered s ∧
    atexit s' = atexit s ++ filter (λ f, f ∉ _registered s) funcs).
  { clear. intros funcs. induction funcs as [|f funcs IH]; intros s; simpl.
    - by rewrite app_nil_r.
    - destruct (IH (register_atexit f s)) as [H1 H2]. simpl in *.
      rewrite H1, H2. unfold register_atexit.
      rewrite filter_cons.
      destruct (decide (f ∉ _registered s)); simpl; [|done].
      by rewrite <- app_assoc. }
  destruct (H funcs s) as [H1 H2]. simpl in *.
  split; [exact H1|]. split; [exact H2|].
  intros Hs. rewrite H2, Hs. f_equal.
  clear. induction funcs as [|f funcs IH]; [done|].
  rewrite filter_cons, decide_True by apply not_elem_of_nil.
  by rewrite IH.
Qed.

Lemma register_atexit_every_call_witness :
  let s' := foldl (λ s f, register_atexit f s)
              {| _registered := []; atexit := [] |} [1; 1; 2]%nat in
  _registered s' = [] ∧ atexit s' = [1; 1; 2]%nat.
Proof.
  destruct (register_atexit_every_call [1; 1; 2]%nat
              {| _registered := []; atexit := [] |}) as (H1 & _ & H3).
  split; [exact H1 | exact (H3 eq_refl)].
Defined.
